(** * babble: the mock transport and the store bridge

    A shallow embedding of [src/transports/mock-transport.ts],
    [src/transports/types.ts] and [src/stores/app-store.ts].

    The transport is a JavaScript object whose state, snapshots and listener
    callbacks live in one heap of mutable objects.  The embedding keeps that
    heap explicit (object identity matters for the defensive-copy and
    listener-set properties), runs method bodies and listener callbacks on a
    small abstract machine with an explicit control stack, and keeps the
    host's timer queue next to it. *)

From stdpp Require Import base option list numbers strings sets.
From Stdlib Require Import ZArith Lia.

Local Open Scope Z_scope.
Local Open Scope nat_scope.

(** ** Data model ([types.ts]) *)

Inductive ConnState := disconnected | connecting | connected | error.

Record Channel := mkChannel {
  ch_id : Z;
  ch_name : string;
  ch_parentId : option Z
}.

(** Optional properties ([talking?], [muted?], [deafened?]) are [option]s:
    [None] is an absent property. *)
Record User := mkUser {
  u_id : Z;
  u_name : string;
  u_channelId : Z;
  u_talking : option bool;
  u_muted : option bool;
  u_deafened : option bool
}.

Record MeState := mkMe { muted : bool; deafened : bool }.

(** A [TransportState] read as a value: nested objects and arrays are given by
    their contents. *)
Record TransportState := mkState {
  connState : ConnState;
  currentServer : option string;
  currentChannelId : option Z;
  me : MeState;
  channels : list Channel;
  users : list User
}.

Record ConnectParams := mkParams { server : string; username : option string }.

Global Instance ConnState_eq_dec : EqDecision ConnState.
Proof. solve_decision. Defined.
Global Instance Channel_eq_dec : EqDecision Channel.
Proof. solve_decision. Defined.
Global Instance User_eq_dec : EqDecision User.
Proof. solve_decision. Defined.
Global Instance MeState_eq_dec : EqDecision MeState.
Proof. solve_decision. Defined.
Global Instance TransportState_eq_dec : EqDecision TransportState.
Proof. solve_decision. Defined.

(** JavaScript truthiness of an optional boolean property: an absent flag
    reads as [false] in a condition such as [u.muted && ...]. *)
Definition truthy (f : option bool) : bool := default false f.

(** ** The object heap *)

(** Objects are heap cells addressed by location; a location is the identity
    of a JavaScript object.  Primitive fields are stored in the cell, object
    and array fields as locations. *)
Abbreviation loc := nat.

Inductive obj :=
| OState (cs : ConnState) (srv : option string) (cur : option Z)
         (me_l ch_l us_l : loc)
| OMe (m : MeState)
| OChannel (c : Channel)
| OUser (u : User)
| OArr (es : list loc).

Abbreviation heap := (list obj).

(** [new]: allocation appends a cell; the fresh location is the old length. *)
Definition alloc (o : obj) (h : heap) : heap * loc := (h ++ [o], length h).

Definition get_me (h : heap) (l : loc) : option MeState :=
  match h !! l with Some (OMe m) => Some m | _ => None end.
Definition get_channel (h : heap) (l : loc) : option Channel :=
  match h !! l with Some (OChannel c) => Some c | _ => None end.
Definition get_user (h : heap) (l : loc) : option User :=
  match h !! l with Some (OUser u) => Some u | _ => None end.
Definition get_arr (h : heap) (l : loc) : option (list loc) :=
  match h !! l with Some (OArr es) => Some es | _ => None end.

Definition read_channels (h : heap) (l : loc) : option (list Channel) :=
  es ← get_arr h l; mapM (get_channel h) es.
Definition read_users (h : heap) (l : loc) : option (list User) :=
  es ← get_arr h l; mapM (get_user h) es.

(** The contents of the state object at [s], read through the heap. *)
Definition view (h : heap) (s : loc) : option TransportState :=
  match h !! s with
  | Some (OState cs srv cur ml cl ul) =>
      m ← get_me h ml;
      cs' ← read_channels h cl;
      us ← read_users h ul;
      Some (mkState cs srv cur m cs' us)
  | _ => None
  end.

(** The locations a state object reaches: itself, its [me] object, its two
    arrays and their entries. *)
Definition reach (h : heap) (s : loc) : list loc :=
  match h !! s with
  | Some (OState _ _ _ ml cl ul) =>
      s :: ml :: cl :: ul :: default [] (get_arr h cl) ++ default [] (get_arr h ul)
  | _ => []
  end.

(** [{ ...x }]: a fresh object with the same own properties. *)
Definition copy (h : heap) (l : loc) : option (heap * loc) :=
  o ← h !! l; Some (alloc o h).

(** [arr.map((x) => ({ ...x }))], entries copied left to right. *)
Fixpoint map_copy (h : heap) (es : list loc) : option (heap * list loc) :=
  match es with
  | [] => Some (h, [])
  | e :: es' =>
      '(h1, e') ← copy h e;
      '(h2, r) ← map_copy h1 es';
      Some (h2, e' :: r)
  end.

(** [MockTransport.snapshot] (part_003, lines 88-95). *)
Definition snapshot (h : heap) (s : loc) : option (heap * loc) :=
  match h !! s with
  | Some (OState cs srv cur ml cl ul) =>
      '(h1, ml') ← copy h ml;
      ces ← get_arr h1 cl;
      '(h2, ces') ← map_copy h1 ces;
      let '(h3, cl') := alloc (OArr ces') h2 in
      ues ← get_arr h3 ul;
      '(h4, ues') ← map_copy h3 ues;
      let '(h5, ul') := alloc (OArr ues') h4 in
      Some (alloc (OState cs srv cur ml' cl' ul') h5)
  | _ => None
  end.

(** ** The transport object ([MockTransport], part_003) *)

(** Listener functions are compared by identity in the [Set]; [lid] is that
    identity. *)
Abbreviation lid := nat.

(** [Partial<TransportState>]: [None] is a key that is not in the literal. *)
Record Partial := mkPartial {
  p_connState : option ConnState;
  p_currentServer : option (option string);
  p_currentChannelId : option (option Z);
  p_me : option loc;
  p_channels : option loc;
  p_users : option loc
}.

Definition no_keys : Partial := mkPartial None None None None None None.

(** [{ ...this.state, ...partial }] on the fields of the state object. *)
Definition merge (o : obj) (p : Partial) : obj :=
  match o with
  | OState cs srv cur ml cl ul =>
      OState (default cs (p_connState p)) (default srv (p_currentServer p))
             (default cur (p_currentChannelId p)) (default ml (p_me p))
             (default cl (p_channels p)) (default ul (p_users p))
  | _ => o
  end.

(** [{ ...user, channelId }] (line 61). *)
Definition with_channel (c : Z) (u : User) : User :=
  mkUser (u_id u) (u_name u) c (u_talking u) (u_muted u) (u_deafened u).

(** [{ ...user, muted: me.muted, deafened: me.deafened }] (line 77). *)
Definition with_flags (m : MeState) (u : User) : User :=
  mkUser (u_id u) (u_name u) (u_channelId u) (u_talking u)
         (Some (muted m)) (Some (deafened m)).

(** [{ ...this.state.me, ...partial }] (line 75) for a partial with an
    optional [muted] and an optional [deafened] key. *)
Definition merge_me (pm pd : option bool) (m0 : MeState) : MeState :=
  mkMe (default (muted m0) pm) (default (deafened m0) pd).

(** [this.state.users.map((user) => user.id === 1 ? f(user) : user)] where
    [f] builds a fresh object; other entries keep their identity. *)
Fixpoint map_self (f : User → User) (h : heap) (es : list loc)
  : option (heap * list loc) :=
  match es with
  | [] => Some (h, [])
  | e :: es' =>
      u ← get_user h e;
      let '(h1, e') :=
        if decide (u_id u = 1%Z) then alloc (OUser (f u)) h else (h, e) in
      '(h2, r) ← map_self f h1 es';
      Some (h2, e' :: r)
  end.

(** The [Set<TransportListener>]: entries in insertion order; a deleted entry
    leaves a hole, so that positions of an iteration in progress stay valid
    (ECMAScript [Set.prototype.forEach] walks the live entry list). *)
Definition set_add (l : lid) (ls : list (option lid)) : list (option lid) :=
  if bool_decide (Some l ∈ ls) then ls else ls ++ [Some l].
Definition set_delete (l : lid) (ls : list (option lid)) : list (option lid) :=
  (λ e, if bool_decide (e = Some l) then None else e) <$> ls.

(** The host's timer queue: pending [(handle, due time)] pairs, in the order
    they were armed.  Every timer of this program runs the same callback,
    [() => this.update({ connState: "connected" })]. *)
Definition clearTimeout (id : nat) (ts : list (nat * nat)) : list (nat * nat) :=
  filter (λ t, t.1 ≠ id) ts.

Fixpoint earliest (ts : list (nat * nat)) : option (nat * nat) :=
  match ts with
  | [] => None
  | t :: ts' =>
      match earliest ts' with
      | Some t' => if t'.2 <? t.2 then Some t' else Some t
      | None => Some t
      end
  end.

(** The simulated latency of [connect] (line 51). *)
Definition latency : nat := 400.

(** ** Client code and the abstract machine *)

(** The methods of the [Transport] interface.  [Unsubscribe l] is a call of
    the function that [subscribe(l)] returned. *)
Inductive op :=
| GetState
| Subscribe (l : lid)
| Unsubscribe (l : lid)
| Connect (p : ConnectParams)
| Disconnect
| JoinChannel (c : Z)
| SetMute (b : bool)
| SetDeafen (b : bool).

(** In-place writes a consumer can make to a snapshot it holds: to the
    primitive fields of the snapshot object, of its [me] object, and of the
    entries of its [channels] and [users] arrays. *)
Inductive mutation :=
| MConnState (c : ConnState)
| MCurrentServer (s : option string)
| MCurrentChannelId (c : option Z)
| MMe (f : MeState → MeState)
| MChannel (i : nat) (f : Channel → Channel)
| MUser (i : nat) (f : User → User).

(** What a listener callback does with the snapshot it is called with:
    calls back into the transport, or writes to the snapshot. *)
Inductive action :=
| ACall (o : op)
| AMutate (m : mutation).

(** Where a snapshot came from. *)
Inductive origin := FromGetState | FromSubscribe (l : lid) | FromUpdate.

(** The history of a run, newest first: every snapshot the transport built
    (its root and its contents when built) and every listener invocation
    (with the contents the listener saw). *)
Inductive event :=
| EvSnapshot (src : origin) (root : loc) (v : TransportState)
| EvCall (l : lid) (root : loc) (v : TransportState).

(** Control stack frames. *)
Inductive frame :=
| KOp (o : op)                       (* a method call *)
| KDeliver (i : nat) (snap : loc)    (* [listeners.forEach] at position [i] *)
| KInvoke (l : lid) (snap : loc)     (* [listener(snapshot)] *)
| KArm                               (* lines 48-51 of [connect] *)
| KMutate (target : loc) (m : mutation)
| KAdvance (until : nat).            (* the event loop, up to a time *)

(** A write through the snapshot rooted at [s].  A path that does not
    resolve writes nothing. *)
Definition apply_mutation (h : heap) (s : loc) (m : mutation) : heap :=
  match h !! s with
  | Some (OState cs srv cur ml cl ul) =>
      match m with
      | MConnState c => <[s := OState c srv cur ml cl ul]> h
      | MCurrentServer x => <[s := OState cs x cur ml cl ul]> h
      | MCurrentChannelId x => <[s := OState cs srv x ml cl ul]> h
      | MMe f =>
          match h !! ml with
          | Some (OMe m0) => <[ml := OMe (f m0)]> h
          | _ => h
          end
      | MChannel i f =>
          match get_arr h cl ≫= (.!! i) with
          | Some e =>
              match h !! e with
              | Some (OChannel c) => <[e := OChannel (f c)]> h
              | _ => h
              end
          | None => h
          end
      | MUser i f =>
          match get_arr h ul ≫= (.!! i) with
          | Some e =>
              match h !! e with
              | Some (OUser u) => <[e := OUser (f u)]> h
              | _ => h
              end
          | None => h
          end
      end
  | _ => h
  end.

Definition snapshot_roots (tr : list event) : list loc :=
  omap (λ e, match e with EvSnapshot _ r _ => Some r | _ => None end) tr.

Section Machine.

(** [C] is whatever the listeners close over (a store, counters, retained
    snapshots); a callback reads the snapshot it is given, updates [C], and
    performs a list of actions. *)
Context {C : Type}.

Definition behaviour := lid → loc → TransportState → C → C * list action.

Variable B : behaviour.

Record World := mkWorld {
  heap_of : heap;
  state : loc;                           (* [this.state] *)
  listeners : list (option lid);         (* [this.listeners] *)
  connectTimer : option nat;             (* [this.connectTimer] *)
  timers : list (nat * nat);             (* host: pending timers *)
  next_timer : nat;                      (* host: next timer handle *)
  now : nat;                             (* host: clock, in ms *)
  client : C;
  trace : list event
}.

Definition with_heap (w : World) (h : heap) : World :=
  mkWorld h (state w) (listeners w) (connectTimer w) (timers w)
          (next_timer w) (now w) (client w) (trace w).

(** [this.snapshot()], recorded in the history. *)
Definition take_snapshot (src : origin) (w : World) : option (World * loc) :=
  '(h', r) ← snapshot (heap_of w) (state w);
  v ← view h' r;
  Some (mkWorld h' (state w) (listeners w) (connectTimer w) (timers w)
                (next_timer w) (now w) (client w)
                (EvSnapshot src r v :: trace w), r).

(** [MockTransport.update] (lines 82-86): the new state object, the snapshot,
    and the delivery pass left on the stack. *)
Definition update (p : Partial) (w : World) : option (World * list frame) :=
  o ← heap_of w !! state w;
  let '(h1, s') := alloc (merge o p) (heap_of w) in
  let w1 := mkWorld h1 s' (listeners w) (connectTimer w) (timers w)
                    (next_timer w) (now w) (client w) (trace w) in
  '(w2, snap) ← take_snapshot FromUpdate w1;
  Some (w2, [KDeliver 0 snap]).

(** [MockTransport.updateMe] (lines 74-80). *)
Definition updateMe (pm pd : option bool) (w : World)
  : option (World * list frame) :=
  match heap_of w !! state w with
  | Some (OState _ _ _ ml _ ul) =>
      m0 ← get_me (heap_of w) ml;
      let m := merge_me pm pd m0 in
      let '(h1, ml') := alloc (OMe m) (heap_of w) in
      es ← get_arr h1 ul;
      '(h2, es') ← map_self (with_flags m) h1 es;
      let '(h3, ul') := alloc (OArr es') h2 in
      update (mkPartial None None None (Some ml') None (Some ul'))
             (with_heap w h3)
  | _ => None
  end.

(** [if (this.connectTimer) clearTimeout(this.connectTimer)]: a handle is
    truthy unless it is [0]. *)
Definition clear_connect_timer (w : World) : World :=
  match connectTimer w with
  | Some id =>
      if 0 <? id then
        mkWorld (heap_of w) (state w) (listeners w) (connectTimer w)
                (clearTimeout id (timers w)) (next_timer w) (now w)
                (client w) (trace w)
      else w
  | None => w
  end.

(** [this.connectTimer = setTimeout(..., 400)]. *)
Definition arm_connect_timer (w : World) : World :=
  mkWorld (heap_of w) (state w) (listeners w) (Some (next_timer w))
          (timers w ++ [(next_timer w, now w + latency)])
          (S (next_timer w)) (now w) (client w) (trace w).

Definition frame_of_action (snap : loc) (a : action) : frame :=
  match a with
  | ACall o => KOp o
  | AMutate m => KMutate snap m
  end.

(** One machine step: run the frame on top of the stack; the frames it
    returns replace it.  [None] is a read through a dangling or ill-typed
    reference, which a well-formed heap excludes. *)
Definition step (w : World) (k : frame) : option (World * list frame) :=
  match k with
  | KOp GetState =>
      (* lines 33-35 *)
      '(w', _) ← take_snapshot FromGetState w; Some (w', [])
  | KOp (Subscribe l) =>
      (* lines 37-43 *)
      let w1 := mkWorld (heap_of w) (state w) (set_add l (listeners w))
                        (connectTimer w) (timers w) (next_timer w) (now w)
                        (client w) (trace w) in
      '(w2, snap) ← take_snapshot (FromSubscribe l) w1;
      Some (w2, [KInvoke l snap])
  | KOp (Unsubscribe l) =>
      (* lines 40-42 *)
      Some (mkWorld (heap_of w) (state w) (set_delete l (listeners w))
                    (connectTimer w) (timers w) (next_timer w) (now w)
                    (client w) (trace w), [])
  | KOp (Connect p) =>
      (* lines 45-47 *)
      match heap_of w !! state w with
      | Some (OState cs _ _ _ _ _) =>
          if decide (cs = connected) then Some (w, [])
          else
            '(w', ks) ← update (mkPartial (Some connecting)
                                          (Some (Some (server p)))
                                          None None None None) w;
            Some (w', ks ++ [KArm])
      | _ => None
      end
  | KArm =>
      (* lines 48-51 *)
      Some (arm_connect_timer (clear_connect_timer w), [])
  | KOp Disconnect =>
      (* lines 54-57 *)
      update (mkPartial (Some disconnected) None None None None None)
             (clear_connect_timer w)
  | KOp (JoinChannel c) =>
      (* lines 59-64 *)
      match heap_of w !! state w with
      | Some (OState _ _ _ _ _ ul) =>
          es ← get_arr (heap_of w) ul;
          '(h1, es') ← map_self (with_channel c) (heap_of w) es;
          let '(h2, ul') := alloc (OArr es') h1 in
          update (mkPartial None None (Some (Some c)) None None (Some ul'))
                 (with_heap w h2)
      | _ => None
      end
  | KOp (SetMute b) => updateMe (Some b) None w       (* lines 66-68 *)
  | KOp (SetDeafen b) => updateMe None (Some b) w     (* lines 70-72 *)
  | KDeliver i snap =>
      (* line 85: the entry list is read afresh at every position *)
      match listeners w !! i with
      | None => Some (w, [])
      | Some None => Some (w, [KDeliver (S i) snap])
      | Some (Some l) => Some (w, [KInvoke l snap; KDeliver (S i) snap])
      end
  | KInvoke l snap =>
      v ← view (heap_of w) snap;
      let '(c', acts) := B l snap v (client w) in
      Some (mkWorld (heap_of w) (state w) (listeners w) (connectTimer w)
                    (timers w) (next_timer w) (now w) c'
                    (EvCall l snap v :: trace w),
            frame_of_action snap <$> acts)
  | KMutate t m =>
      (* a consumer only holds snapshots the transport gave out *)
      if bool_decide (t ∈ snapshot_roots (trace w))
      then Some (with_heap w (apply_mutation (heap_of w) t m), [])
      else Some (w, [])
  | KAdvance until =>
      match earliest (timers w) with
      | Some (id, due) =>
          if due <=? until then
            (* the timer fires: line 50 *)
            let w1 := mkWorld (heap_of w) (state w) (listeners w)
                              (connectTimer w) (clearTimeout id (timers w))
                              (next_timer w) (now w `max` due) (client w)
                              (trace w) in
            '(w2, ks) ← update (mkPartial (Some connected) None None None
                                          None None) w1;
            Some (w2, ks ++ [KAdvance until])
          else Some (mkWorld (heap_of w) (state w) (listeners w)
                             (connectTimer w) (timers w) (next_timer w)
                             (now w `max` until) (client w) (trace w), [])
      | None => Some (mkWorld (heap_of w) (state w) (listeners w)
                              (connectTimer w) (timers w) (next_timer w)
                              (now w `max` until) (client w) (trace w), [])
      end
  end.

(** [run n w stk]: at most [n] steps from stack [stk]; an empty stack is the
    end of the turn. *)
Fixpoint run (n : nat) (w : World) (stk : list frame)
  : option (World * list frame) :=
  match n, stk with
  | 0, _ => Some (w, stk)
  | S _, [] => Some (w, [])
  | S n', k :: stk' => '(w', ks) ← step w k; run n' w' (ks ++ stk')
  end.

(** [getState()] as a value: what the snapshot it returns contains. *)
Definition getState (w : World) : option TransportState :=
  '(h', r) ← snapshot (heap_of w) (state w); view h' r.

(** The invocations of listener [l] in a history, oldest first. *)
Definition calls_of (l : lid) (tr : list event) : list (loc * TransportState) :=
  reverse (omap (λ e, match e with
                      | EvCall l' r v => if decide (l' = l) then Some (r, v) else None
                      | _ => None
                      end) tr).

End Machine.

Arguments World : clear implicits.
Arguments behaviour : clear implicits.

(** [createMockTransport()] (lines 9-31, 98-100): the seeded arrays, the
    initial state object, no listener, no timer.  Heap layout: channels at
    0-2, their array at 3, users at 4-6, their array at 7, [me] at 8, the
    state object at 9. *)
Definition defaultChannels : list Channel :=
  [ mkChannel 1 "Lobby" None; mkChannel 2 "Gaming" None; mkChannel 3 "AFK" None ].

Definition defaultUsers : list User :=
  [ mkUser 1 "You" 1 None None None;
    mkUser 2 "Alex" 1 (Some true) None None;
    mkUser 3 "Sam" 2 None None None ].

Definition createMockTransport {C} (c : C) : World C :=
  mkWorld ((OChannel <$> defaultChannels) ++ [OArr [0; 1; 2]] ++
           (OUser <$> defaultUsers) ++ [OArr [4; 5; 6]] ++
           [OMe (mkMe false false); OState disconnected None (Some 1%Z) 8 3 7])
          9 [] None [] 1 0 c [].

(** The block of cells [snapshot] appends to a heap of length [base] for a
    state whose contents are [v], and where its root lands. *)
Definition snap_block (base : nat) (v : TransportState) : list obj :=
  [OMe (me v)] ++ (OChannel <$> channels v) ++
  [OArr (seq (base + 1) (length (channels v)))] ++
  (OUser <$> users v) ++
  [OArr (seq (base + length (channels v) + 2) (length (users v)))] ++
  [OState (connState v) (currentServer v) (currentChannelId v) base
          (base + length (channels v) + 1)
          (base + length (channels v) + length (users v) + 2)].

Definition snap_root (base : nat) (v : TransportState) : loc :=
  base + length (channels v) + length (users v) + 3.

(** Two cells of the same kind with the same reference fields: what a write
    to primitive fields preserves. *)
Definition same_kind (o o' : obj) : Prop :=
  match o, o' with
  | OState _ _ _ ml cl ul, OState _ _ _ ml' cl' ul' => ml = ml' ∧ cl = cl' ∧ ul = ul'
  | OMe _, OMe _ => True
  | OChannel _, OChannel _ => True
  | OUser _, OUser _ => True
  | OArr es, OArr es' => es = es'
  | _, _ => False
  end.

(** ** What the methods do to the contents of the state *)

Definition upd_self (f : User → User) (u : User) : User :=
  if decide (u_id u = 1%Z) then f u else u.

Definition with_conn (cs : ConnState) (v : TransportState) : TransportState :=
  mkState cs (currentServer v) (currentChannelId v) (me v) (channels v) (users v).

Definition connecting_v (srv : string) (v : TransportState) : TransportState :=
  mkState connecting (Some srv) (currentChannelId v) (me v) (channels v) (users v).

Definition join_v (c : Z) (v : TransportState) : TransportState :=
  mkState (connState v) (currentServer v) (Some c) (me v) (channels v)
          (upd_self (with_channel c) <$> users v).

Definition updateMe_v (pm pd : option bool) (v : TransportState) : TransportState :=
  mkState (connState v) (currentServer v) (currentChannelId v)
          (merge_me pm pd (me v)) (channels v)
          (upd_self (with_flags (merge_me pm pd (me v))) <$> users v).

(** ** Invariants of the heap *)

(** The state object is well formed; every snapshot handed out is well
    formed and reaches nothing that the state object reaches; two different
    snapshots reach nothing in common. *)
Definition hinv (h : heap) (s : loc) (rs : list loc) : Prop :=
  is_Some (view h s) ∧
  (∀ r, r ∈ rs → is_Some (view h r) ∧ reach h r ## reach h s) ∧
  (∀ r1 r2, r1 ∈ rs → r2 ∈ rs → r1 ≠ r2 → reach h r1 ## reach h r2).

Definition inv {C} (w : World C) : Prop :=
  hinv (heap_of w) (state w) (snapshot_roots (trace w)).

(** The snapshots named by frames on the stack are snapshots that exist. *)
Definition frame_ok (rs : list loc) (k : frame) : Prop :=
  match k with
  | KDeliver _ s | KInvoke _ s => s ∈ rs
  | _ => True
  end.

Definition cinv {C} (w : World C) (stk : list frame) : Prop :=
  inv w ∧ Forall (frame_ok (snapshot_roots (trace w))) stk.

(** [w'] is [w] after one [update]: the state object now holds [v'], the
    snapshot [snap] holds the same, the history has one more snapshot, old
    cells are untouched, and the rest of the transport is as it was. *)
Definition emitted {C} (w w' : World C) (v' : TransportState) (snap : loc) : Prop :=
  view (heap_of w') (state w') = Some v' ∧
  view (heap_of w') snap = Some v' ∧
  trace w' = EvSnapshot FromUpdate snap v' :: trace w ∧
  heap_of w `prefix_of` heap_of w' ∧
  listeners w' = listeners w ∧ connectTimer w' = connectTimer w ∧
  timers w' = timers w ∧ next_timer w' = next_timer w ∧ now w' = now w ∧
  client w' = client w ∧
  inv w'.

(** ** Runs *)

Section Runs.
Context {C : Type} (B : behaviour C).

(** [reaches w stk w' stk']: the machine gets from one configuration to the
    other in some number of steps. *)
Inductive reaches : World C → list frame → World C → list frame → Prop :=
| reaches_refl w stk : reaches w stk w stk
| reaches_step w k stk w1 ks w' stk' :
    step B w k = Some (w1, ks) →
    reaches w1 (ks ++ stk) w' stk' →
    reaches w (k :: stk) w' stk'.

(** Listeners that only look: a callback may update what it closes over but
    neither calls the transport nor writes to the snapshot. *)
Definition readonly : Prop := ∀ l s v c, (B l s v c).2 = [].

(** One listener that only looks. *)
Definition looks_only (l : lid) : Prop := ∀ s v c, (B l s v c).2 = [].

(** Listeners that never write to a snapshot. *)
Definition nomut : Prop :=
  ∀ l s v c a, a ∈ (B l s v c).2 → ∃ o, a = ACall o.

End Runs.

(** The contents of the transport's own state object. *)
Definition contents {C} (w : World C) : option TransportState :=
  view (heap_of w) (state w).

(** The listeners a delivery pass from position [i] would call if nothing
    changed the set meanwhile. *)
Definition live_from (i : nat) (ls : list (option lid)) : list lid :=
  omap id (drop i ls).

(** Every pending timer is the one [this.connectTimer] names. *)
Definition timers_ok {C} (w : World C) : Prop :=
  0 < next_timer w ∧
  ∀ t, t ∈ timers w → connectTimer w = Some t.1 ∧ 0 < t.1.

(** A script of client calls: method calls, writes to snapshots the client
    holds, and the passing of time. *)
Definition client_frame (k : frame) : Prop :=
  match k with
  | KOp _ | KMutate _ _ | KAdvance _ => True
  | _ => False
  end.

(** [w'] is [w] after one method that updates the state to [v'] has run to
    completion with listeners that only look: one snapshot, handed once to
    every listener in the set, in insertion order. *)
Definition settled {C} (B : behaviour C) (w w' : World C)
    (v' : TransportState) (snap : loc) : Prop :=
  contents w' = Some v' ∧
  view (heap_of w') snap = Some v' ∧
  trace w' = reverse ((λ l, EvCall l snap v') <$> live_from 0 (listeners w))
             ++ EvSnapshot FromUpdate snap v' :: trace w ∧
  heap_of w `prefix_of` heap_of w' ∧
  listeners w' = listeners w ∧ connectTimer w' = connectTimer w ∧
  timers w' = timers w ∧ next_timer w' = next_timer w ∧ now w' = now w ∧
  client w' = foldl (λ c l, (B l snap v' c).1) (client w) (live_from 0 (listeners w)) ∧
  inv w'.

(** A script runs to completion from [w] and ends in [w']. *)
Definition completes {C} (B : behaviour C) (w : World C) (stk : list frame)
    (w' : World C) : Prop :=
  ∃ n, run B n w stk = Some (w', []).

(** The contents of a freshly created transport. *)
Definition initialState : TransportState :=
  mkState disconnected None (Some 1%Z) (mkMe false false)
          defaultChannels defaultUsers.

(** A listener environment in which every callback only looks. *)
Definition onlookers {C} : behaviour C := λ _ _ _ c, (c, []).

(** ** What one step does to the state and to the history *)

(** The changes [update] is called with. *)
Inductive change :=
| ChConnecting (srv : string)      (* line 47 *)
| ChConn (cs : ConnState)          (* lines 50 and 56 *)
| ChJoin (c : Z)                   (* line 63 *)
| ChMe (pm pd : option bool).      (* line 79 *)

Definition apply_change (ch : change) (v : TransportState) : TransportState :=
  match ch with
  | ChConnecting srv => connecting_v srv v
  | ChConn cs => with_conn cs v
  | ChJoin c => join_v c v
  | ChMe pm pd => updateMe_v pm pd v
  end.

(** The five things a step can do: nothing to heap, state and history; build
    a snapshot for [getState] or [subscribe]; update the state and build the
    snapshot to deliver; call a listener; write to a snapshot for a client. *)
Inductive effect {C} (k : frame) (w w' : World C) : Prop :=
| eff_none :
    heap_of w' = heap_of w → state w' = state w → trace w' = trace w →
    effect k w w'
| eff_snapshot src r v :
    contents w = Some v → contents w' = Some v →
    view (heap_of w') r = Some v →
    trace w' = EvSnapshot src r v :: trace w →
    heap_of w `prefix_of` heap_of w' →
    effect k w w'
| eff_update ch snap v :
    contents w = Some v → contents w' = Some (apply_change ch v) →
    view (heap_of w') snap = Some (apply_change ch v) →
    trace w' = EvSnapshot FromUpdate snap (apply_change ch v) :: trace w →
    heap_of w `prefix_of` heap_of w' →
    effect k w w'
| eff_call l snap vs :
    k = KInvoke l snap →
    view (heap_of w) snap = Some vs →
    heap_of w' = heap_of w → state w' = state w →
    trace w' = EvCall l snap vs :: trace w →
    effect k w w'
| eff_mutate t m :
    k = KMutate t m →
    t ∈ snapshot_roots (trace w) →
    heap_of w' = apply_mutation (heap_of w) t m → state w' = state w →
    trace w' = trace w →
    effect k w w'.

Definition is_mutate (k : frame) : Prop :=
  match k with KMutate _ _ => True | _ => False end.

(** The self-user mirror, with an absent flag read as [false]. *)
Definition mirror (v : TransportState) : Prop :=
  ∀ u, u ∈ users v → u_id u = 1%Z →
    truthy (u_muted u) = muted (me v) ∧ truthy (u_deafened u) = deafened (me v).

(** The mirror read strictly: the flags are present and equal. *)
Definition strict_mirror (v : TransportState) : Prop :=
  ∀ u, u ∈ users v → u_id u = 1%Z →
    u_muted u = Some (muted (me v)) ∧ u_deafened u = Some (deafened (me v)).

(** A listener environment in which listener 1 flips [me.muted] in every
    snapshot it is called with, and the others only look. *)
Definition meddler : behaviour unit :=
  λ l _ _ c,
    if decide (l = 1)
    then (c, [AMutate (MMe (λ m, mkMe (negb (muted m)) (deafened m)))])
    else (c, []).

(** No callback ever calls [subscribe(l)]. *)
Definition never_subscribes {C} (B : behaviour C) (l : lid) : Prop :=
  ∀ l' s v c, ACall (Subscribe l) ∉ (B l' s v c).2.

(** A frame that neither subscribes [l] nor is an invocation of [l]. *)
Definition frame_avoids (l : lid) (k : frame) : Prop :=
  k ≠ KOp (Subscribe l) ∧ ∀ s, k ≠ KInvoke l s.

(** The world after [this.listeners.delete(l)]. *)
Definition unsubscribed {C} (w : World C) (l : lid) : World C :=
  mkWorld (heap_of w) (state w) (set_delete l (listeners w)) (connectTimer w)
          (timers w) (next_timer w) (now w) (client w) (trace w).

(** A listener environment in which listener 0 unsubscribes listener 1
    whenever it is called, and listener 2 subscribes listener 3 when it is
    called with a muted snapshot; listeners 1 and 3 only look. *)
Definition rearranger : behaviour unit :=
  λ l _ v c,
    if decide (l = 0) then (c, [ACall (Unsubscribe 1)])
    else if decide (l = 2)
         then (c, if muted (me v) then [ACall (Subscribe 3)] else [])
         else (c, []).

(** ** The store ([app-store.ts]) *)

(** The transport-derived part of the store's state.  [set(state)] copies
    the keys of the snapshot into a new state object: the primitive fields by
    value, and [me], [channels] and [users] by reference.  Nothing ever
    reassigns those three fields of a snapshot object, so the references are
    read through the snapshot they came from. *)
Record AppState := mkApp {
  app_connState : ConnState;
  app_currentServer : option string;
  app_currentChannelId : option Z;
  app_snapshot : loc
}.

Definition store_listener : lid := 0.

(** The callback of line 17, [(state) => set(state)]; the transport is
    private to the module, so the store's callback is the only one. *)
Definition app_store : behaviour (option AppState) :=
  λ l snap v c,
    if decide (l = store_listener)
    then (Some (mkApp (connState v) (currentServer v) (currentChannelId v) snap), [])
    else (c, []).

(** [get().me] *)
Definition get_me_of_store (w : World (option AppState)) : option MeState :=
  st ← client w;
  match heap_of w !! app_snapshot st with
  | Some (OState _ _ _ ml _ _) => get_me (heap_of w) ml
  | _ => None
  end.

(** Lines 24-25: the call each toggle makes. *)
Definition toggleMute (w : World (option AppState)) : option frame :=
  m ← get_me_of_store w; Some (KOp (SetMute (negb (muted m)))).
Definition toggleDeafen (w : World (option AppState)) : option frame :=
  m ← get_me_of_store w; Some (KOp (SetDeafen (negb (deafened m)))).

(** Lines 13-27: the transport is created, [initial] is taken, the store
    subscribes, and the returned state starts from [initial]. *)
Definition useAppStore : option (World (option AppState)) :=
  '(w1, r0) ← take_snapshot FromGetState (createMockTransport None);
  v0 ← view (heap_of w1) r0;
  '(w2, _) ← run app_store 2 w1 [KOp (Subscribe store_listener)];
  Some (mkWorld (heap_of w2) (state w2) (listeners w2) (connectTimer w2)
                (timers w2) (next_timer w2) (now w2)
                (Some (mkApp (connState v0) (currentServer v0)
                             (currentChannelId v0) r0))
                (trace w2)).

(** ** Concrete worlds and listener environments for the examples *)

(** A listener environment in which listener 0 calls [disconnect()] as soon
    as it is shown a "connecting" snapshot. *)
Definition hasty : behaviour unit :=
  λ l _ v c,
    if decide (l = 0 ∧ connState v = connecting)
    then (c, [ACall Disconnect]) else (c, []).

(** A listener environment in which listener 0 subscribes listener 1
    whenever it is called. *)
Definition recruiter : behaviour unit :=
  λ l _ _ c, if decide (l = 0) then (c, [ACall (Subscribe 1)]) else (c, []).

(** The world after [connect({server: "localhost"})] and 400 ms. *)
Definition connectedWorld : World unit :=
  match run onlookers 8 (createMockTransport tt)
            [KOp (Connect (mkParams "localhost" None)); KAdvance 400] with
  | Some (w, _) => w
  | None => createMockTransport tt
  end.

(** The world after one [getState()], with the listener set replaced. *)
Definition snapshotWorld (ls : list (option lid)) : World unit :=
  match run onlookers 1 (createMockTransport tt) [KOp GetState] with
  | Some (w, _) =>
      mkWorld (heap_of w) (state w) ls (connectTimer w) (timers w)
              (next_timer w) (now w) (client w) (trace w)
  | None => createMockTransport tt
  end.

(** The world the application starts in. *)
Definition appWorld : World (option AppState) :=
  default (createMockTransport None) useAppStore.

(** The end of a short session: a listener subscribes, the user deafens
    and moves to channel 2. *)
Definition sessionScript : list frame :=
  [KOp (Subscribe 0); KOp (SetDeafen true); KOp (JoinChannel 2)].

Definition sessionWorld : World unit :=
  match run onlookers 20 (createMockTransport tt) sessionScript with
  | Some (w, _) => w
  | None => createMockTransport tt
  end.

(** The end of a session with a listener that writes to its snapshots. *)
Definition meddledScript : list frame :=
  [KOp (Subscribe 1); KOp (SetMute true); KOp GetState].

Definition meddledWorld : World unit :=
  match run meddler 20 (createMockTransport tt) meddledScript with
  | Some (w, _) => w
  | None => createMockTransport tt
  end.

(** ** Auxiliary definitions for the proofs *)

Definition sel_me (o : obj) := match o with OMe m => Some m | _ => None end.
Definition sel_channel (o : obj) := match o with OChannel m => Some m | _ => None end.
Definition sel_user (o : obj) := match o with OUser m => Some m | _ => None end.

(** Every snapshot the transport has built satisfies the mirror, and so
    does its state. *)
Definition mirror_inv {C} (w : World C) : Prop :=
  (∃ v, contents w = Some v ∧ mirror v) ∧
  (∀ src r v, EvSnapshot src r v ∈ trace w → mirror v).

(** Without writes to snapshots, every snapshot in the history still holds
    what it held when it was built, and every listener saw exactly that. *)
Definition pristine_inv {C} (w : World C) (stk : list frame) : Prop :=
  Forall (λ k, ¬ is_mutate k) stk ∧
  (∀ src r v, EvSnapshot src r v ∈ trace w → view (heap_of w) r = Some v) ∧
  (∀ l r v, EvCall l r v ∈ trace w → ∃ src, EvSnapshot src r v ∈ trace w).

(** [l] is not in the set and nothing on the stack brings it back. *)
Definition avoided {C} (l : lid) (w : World C) (stk : list frame) : Prop :=
  (Some l ∉ listeners w) ∧ Forall (frame_avoids l) stk.

(** What a step does to the listener set, the history and the stack, by
    the kind of frame. *)
Definition frame_shape {C} (B : behaviour C) (w : World C) (k : frame)
    (w' : World C) (ks : list frame) : Prop :=
  match k with
  | KOp GetState =>
      ks = [] ∧ listeners w' = listeners w ∧
      ∃ r v, trace w' = EvSnapshot FromGetState r v :: trace w
  | KOp (Subscribe l) =>
      listeners w' = set_add l (listeners w) ∧
      ∃ r v, ks = [KInvoke l r] ∧ trace w' = EvSnapshot (FromSubscribe l) r v :: trace w
  | KOp (Unsubscribe l) => w' = unsubscribed w l ∧ ks = []
  | KOp (Connect _) =>
      listeners w' = listeners w ∧
      ((w' = w ∧ ks = []) ∨
       ∃ r v, ks = [KDeliver 0 r; KArm] ∧ trace w' = EvSnapshot FromUpdate r v :: trace w)
  | KOp _ =>
      listeners w' = listeners w ∧
      ∃ r v, ks = [KDeliver 0 r] ∧ trace w' = EvSnapshot FromUpdate r v :: trace w
  | KDeliver i s =>
      w' = w ∧
      ks = match listeners w !! i with
           | None => []
           | Some None => [KDeliver (S i) s]
           | Some (Some l) => [KInvoke l s; KDeliver (S i) s]
           end
  | KInvoke l s =>
      listeners w' = listeners w ∧
      ∃ v, trace w' = EvCall l s v :: trace w ∧
           ks = frame_of_action s <$> (B l s v (client w)).2
  | KArm | KMutate _ _ =>
      ks = [] ∧ listeners w' = listeners w ∧ trace w' = trace w
  | KAdvance t =>
      listeners w' = listeners w ∧
      ((ks = [] ∧ trace w' = trace w) ∨
       ∃ r v, ks = [KDeliver 0 r; KAdvance t] ∧
              trace w' = EvSnapshot FromUpdate r v :: trace w)
  end.

(** ** Properties of the state that the methods keep *)

(** Two entries of [users] for the same person: the id, the name and the
    [talking] flag agree, and an entry other than the self user's (id 1) is
    the same entry. *)
Definition same_person (u u' : User) : Prop :=
  u_id u' = u_id u ∧ u_name u' = u_name u ∧ u_talking u' = u_talking u ∧
  (u_id u ≠ 1%Z → u' = u).

(** The same channels, and the same people in the same order. *)
Definition same_directory (v v' : TransportState) : Prop :=
  channels v' = channels v ∧ Forall2 same_person (users v) (users v').

(** The self user is in the current channel. *)
Definition self_in_current (v : TransportState) : Prop :=
  ∀ u, u ∈ users v → u_id u = 1%Z → currentChannelId v = Some (u_channelId u).

(** [P] holds of the state now, and of every snapshot the transport has
    built since its history was [tr0]. *)
Definition since {C} (tr0 : list event) (P : TransportState → Prop)
    (w : World C) : Prop :=
  (∃ v, contents w = Some v ∧ P v) ∧
  ∃ new, trace w = new ++ tr0 ∧ ∀ src r v, EvSnapshot src r v ∈ new → P v.

(** The connection state is one the mock produces, and a server is named
    whenever the state is not "disconnected". *)
Definition conn_ok (v : TransportState) : Prop :=
  connState v ≠ error ∧
  (connState v ≠ disconnected → is_Some (currentServer v)).

(** [conn_ok] of the state and of every snapshot built so far; a server is
    named as well while a completion is pending or about to be armed. *)
Definition conn_inv {C} (w : World C) (stk : list frame) : Prop :=
  (∃ v, contents w = Some v ∧ connState v ≠ error ∧
        (connState v ≠ disconnected ∨ timers w ≠ [] ∨ KArm ∈ stk →
         is_Some (currentServer v))) ∧
  ∀ src r v, EvSnapshot src r v ∈ trace w → conn_ok v.

(** At most one completion is pending; it is the one [this.connectTimer]
    names, and it is due in the future, at most [latency] ms from now. *)
Definition one_pending {C} (w : World C) : Prop :=
  timers w = [] ∨
  ∃ id due, timers w = [(id, due)] ∧ connectTimer w = Some id ∧
            now w < due ≤ now w + latency.

(** The world with its listener set, its timers and its clock replaced. *)
Definition with_listeners {C} (w : World C) (ls : list (option lid)) : World C :=
  mkWorld (heap_of w) (state w) ls (connectTimer w) (timers w)
          (next_timer w) (now w) (client w) (trace w).

Definition with_timers {C} (w : World C) (ts : list (nat * nat)) (t : nat)
  : World C :=
  mkWorld (heap_of w) (state w) (listeners w) (connectTimer w) ts
          (next_timer w) t (client w) (trace w).

(** [w'] is [w] after one [this.snapshot()] for [src]: the snapshot [r]
    holds what the state holds, and nothing else has changed. *)
Definition snapped {C} (src : origin) (w w' : World C) (v : TransportState)
    (r : loc) : Prop :=
  contents w' = Some v ∧ view (heap_of w') r = Some v ∧
  trace w' = EvSnapshot src r v :: trace w ∧
  heap_of w `prefix_of` heap_of w' ∧ state w' = state w ∧
  listeners w' = listeners w ∧ connectTimer w' = connectTimer w ∧
  timers w' = timers w ∧ next_timer w' = next_timer w ∧ now w' = now w ∧
  client w' = client w ∧ inv w'.

(** What each kind of frame does, in terms of the contents [v] of the state
    before the step. *)
Definition step_spec {C} (B : behaviour C) (v : TransportState) (w : World C)
    (k : frame) (w' : World C) (ks : list frame) : Prop :=
  match k with
  | KOp GetState => ks = [] ∧ ∃ r, snapped FromGetState w w' v r
  | KOp (Subscribe l) =>
      ∃ r, ks = [KInvoke l r] ∧
           snapped (FromSubscribe l)
                   (with_listeners w (set_add l (listeners w))) w' v r
  | KOp (Unsubscribe l) => w' = unsubscribed w l ∧ ks = []
  | KOp (Connect p) =>
      if decide (connState v = connected) then w' = w ∧ ks = []
      else ∃ snap, ks = [KDeliver 0 snap; KArm] ∧
                   emitted w w' (connecting_v (server p) v) snap
  | KOp Disconnect =>
      ∃ snap, ks = [KDeliver 0 snap] ∧
              emitted (clear_connect_timer w) w' (with_conn disconnected v) snap
  | KOp (JoinChannel c) =>
      ∃ snap, ks = [KDeliver 0 snap] ∧ emitted w w' (join_v c v) snap
  | KOp (SetMute b) =>
      ∃ snap, ks = [KDeliver 0 snap] ∧
              emitted w w' (updateMe_v (Some b) None v) snap
  | KOp (SetDeafen b) =>
      ∃ snap, ks = [KDeliver 0 snap] ∧
              emitted w w' (updateMe_v None (Some b) v) snap
  | KDeliver i s =>
      w' = w ∧
      ks = match listeners w !! i with
           | None => []
           | Some None => [KDeliver (S i) s]
           | Some (Some l) => [KInvoke l s; KDeliver (S i) s]
           end
  | KInvoke l s =>
      ∃ vs, view (heap_of w) s = Some vs ∧
            w' = mkWorld (heap_of w) (state w) (listeners w) (connectTimer w)
                         (timers w) (next_timer w) (now w)
                         (B l s vs (client w)).1 (EvCall l s vs :: trace w) ∧
            ks = frame_of_action s <$> (B l s vs (client w)).2
  | KArm => w' = arm_connect_timer (clear_connect_timer w) ∧ ks = []
  | KMutate t m =>
      ks = [] ∧ contents w' = Some v ∧
      w' = if bool_decide (t ∈ snapshot_roots (trace w))
           then with_heap w (apply_mutation (heap_of w) t m) else w
  | KAdvance t =>
      match earliest (timers w) with
      | Some (id, due) =>
          if due <=? t
          then ∃ snap, ks = [KDeliver 0 snap; KAdvance t] ∧
                 emitted (with_timers w (clearTimeout id (timers w))
                                      (now w `max` due))
                         w' (with_conn connected v) snap
          else w' = with_timers w (timers w) (now w `max` t) ∧ ks = []
      | None => w' = with_timers w (timers w) (now w `max` t) ∧ ks = []
      end
  end.

(** ** The methods as functions on the contents of the state *)

(** The change a method call makes to the state ([None]: the call does not
    call [update]). *)
Definition op_change (o : op) (v : TransportState) : option change :=
  match o with
  | Connect p =>
      if decide (connState v = connected) then None
      else Some (ChConnecting (server p))
  | Disconnect => Some (ChConn disconnected)
  | JoinChannel c => Some (ChJoin c)
  | SetMute b => Some (ChMe (Some b) None)
  | SetDeafen b => Some (ChMe None (Some b))
  | GetState | Subscribe _ | Unsubscribe _ => None
  end.

Definition op_result (o : op) (v : TransportState) : TransportState :=
  match op_change o v with Some ch => apply_change ch v | None => v end.

(** The timers the host holds after a method call. *)
Definition op_timers {C} (o : op) (v : TransportState) (w : World C)
  : list (nat * nat) :=
  match o with
  | Connect _ =>
      if decide (connState v = connected) then timers w
      else timers (clear_connect_timer w) ++ [(next_timer w, now w + latency)]
  | Disconnect => timers (clear_connect_timer w)
  | _ => timers w
  end.

(** The five methods that return a promise: the ones that can update the
    state. *)
Definition updates (o : op) : Prop :=
  match o with
  | GetState | Subscribe _ | Unsubscribe _ => False
  | _ => True
  end.

(** The world a script ends in on a fresh transport, given enough fuel. *)
Definition world_after {C} (B : behaviour C) (c : C) (n : nat)
    (script : list frame) : World C :=
  match run B n (createMockTransport c) script with
  | Some (w, _) => w
  | None => createMockTransport c
  end.

(** Snapshots in a history hold what they were built with. *)
Definition intact {C} (w : World C) (tr : list event) : Prop :=
  ∀ src r v, EvSnapshot src r v ∈ tr → view (heap_of w) r = Some v.

(** ** Cells are added, never overwritten *)

(** The snapshots of [w'] that [w] did not have are built from cells that
    [w] did not have. *)
Definition fresh_roots {C} (w w' : World C) : Prop :=
  heap_of w `prefix_of` heap_of w' ∧
  ∀ r, r ∈ snapshot_roots (trace w') →
       r ∈ snapshot_roots (trace w) ∨
       ∀ l, l ∈ reach (heap_of w') r → length (heap_of w) ≤ l.

(** Relative to a starting heap [h0] with snapshots [rs0]: the cells of [h0]
    that no snapshot reached are as they were, and every cell of [h0] that a
    snapshot reaches now, a snapshot reached then. *)
Definition kept {C} (h0 : heap) (rs0 : list loc) (w : World C) : Prop :=
  length h0 ≤ length (heap_of w) ∧
  (∀ l, l < length h0 → (∀ r, r ∈ rs0 → l ∉ reach h0 r) →
        heap_of w !! l = h0 !! l) ∧
  (∀ r l, r ∈ snapshot_roots (trace w) → l ∈ reach (heap_of w) r →
          l < length h0 → ∃ r0, r0 ∈ rs0 ∧ l ∈ reach h0 r0).

(** ** The store's methods and what it shows ([app-store.ts]) *)

(** The state the store holds: the primitive fields as [set(state)] copied
    them, and [me], [channels] and [users] read through the snapshot they
    were taken from. *)
Definition store_state (w : World (option AppState)) : option TransportState :=
  st ← client w;
  v ← view (heap_of w) (app_snapshot st);
  Some (mkState (app_connState st) (app_currentServer st)
                (app_currentChannelId st) (me v) (channels v) (users v)).

(** The five methods of the store (lines 21-25). *)
Inductive store_call :=
| SConnect (server : string)
| SDisconnect
| SSelectChannel (channelId : Z)
| SToggleMute
| SToggleDeafen.

(** The transport call each of them makes; the toggles read [get().me]. *)
Definition store_frame (a : store_call) (w : World (option AppState))
  : option frame :=
  match a with
  | SConnect s => Some (KOp (Connect (mkParams s None)))
  | SDisconnect => Some (KOp Disconnect)
  | SSelectChannel c => Some (KOp (JoinChannel c))
  | SToggleMute => toggleMute w
  | SToggleDeafen => toggleDeafen w
  end.

(** The same call, from the state the store shows. *)
Definition call_op (a : store_call) (v : TransportState) : op :=
  match a with
  | SConnect s => Connect (mkParams s None)
  | SDisconnect => Disconnect
  | SSelectChannel c => JoinChannel c
  | SToggleMute => SetMute (negb (muted (me v)))
  | SToggleDeafen => SetDeafen (negb (deafened (me v)))
  end.

(** What happens to the application: a call of a store method, or time
    passing until a given time. *)
Inductive happening :=
| Call (a : store_call)
| Wait (until : nat).

Definition happening_frame (e : happening) (w : World (option AppState))
  : option frame :=
  match e with
  | Call a => store_frame a w
  | Wait t => Some (KAdvance t)
  end.

(** A session: each happening runs to completion (the methods of the
    transport have no [await], so a call is over when it returns) before
    the next one starts.  [n] is the fuel given to each. *)
Fixpoint play (n : nat) (es : list happening) (w : World (option AppState))
  : option (World (option AppState)) :=
  match es with
  | [] => Some w
  | e :: es' =>
      k ← happening_frame e w;
      match run app_store n w [k] with
      | Some (w', []) => play n es' w'
      | _ => None
      end
  end.

(** The store is subscribed and shows the transport's state. *)
Definition in_sync (w : World (option AppState)) : Prop :=
  inv w ∧ timers_ok w ∧ one_pending w ∧ Some store_listener ∈ listeners w ∧
  ∃ v, contents w = Some v ∧ store_state w = Some v.

(** ** The view ([App.tsx]) *)

(** Line 27: [currentChannelId ?? channels[0]?.id ?? 0]. *)
Definition selectedChannelId (v : TransportState) : Z :=
  match currentChannelId v with
  | Some c => c
  | None => match channels v with c :: _ => ch_id c | [] => 0%Z end
  end.

(** Lines 29-32: [users.filter((u) => u.channelId === selectedChannelId)]. *)
Definition usersHere (v : TransportState) : list User :=
  filter (λ u, u_channelId u = selectedChannelId v) (users v).

(** Line 62: the channel button drawn as active. *)
Definition active (v : TransportState) (c : Channel) : bool :=
  bool_decide (ch_id c = selectedChannelId v).

(** Line 121: [channels.find((c) => c.id === selectedChannelId)?.name]. *)
Definition heading (v : TransportState) : option string :=
  (ch_name ∘ snd) <$> list_find (λ c, ch_id c = selectedChannelId v) (channels v).

(** Line 49: [currentServer ?? "Server Name"]. *)
Definition serverTitle (v : TransportState) : string :=
  default "Server Name" (currentServer v).

(** Lines 93, 102 and 110: the labels of the three buttons. *)
Definition muteLabel (v : TransportState) : string :=
  if muted (me v) then "Muted" else "Mute".
Definition deafenLabel (v : TransportState) : string :=
  if deafened (me v) then "Deaf" else "Deafen".
Definition connectLabel (v : TransportState) : string :=
  if decide (connState v = connected) then "Disconnect" else "Connect".

(** Lines 147-148: the pills on a user's card,
    [u.muted && <Pill>Muted</Pill>] and [u.deafened && <Pill>Deaf</Pill>]. *)
Definition pills (u : User) : list string :=
  (if truthy (u_muted u) then ["Muted"] else []) ++
  (if truthy (u_deafened u) then ["Deaf"] else []).

(** The buttons the view draws: one per channel (lines 61-75), and the
    three controls (lines 86-111). *)
Inductive click :=
| ClickChannel (i : nat)
| ClickMute
| ClickDeafen
| ClickConnect.

(** The [onClick] handlers, as drawn from the state [v] the store showed at
    the last render; there is no button for a channel that is not in the
    list. *)
Definition on_click (c : click) (v : TransportState) : option store_call :=
  match c with
  | ClickChannel i => ch ← channels v !! i; Some (SSelectChannel (ch_id ch))
  | ClickMute => Some SToggleMute
  | ClickDeafen => Some SToggleDeafen
  | ClickConnect =>
      Some (if decide (connState v = connected) then SDisconnect
            else SConnect "localhost")
  end.

(** What the user does: clicks a button, or waits. *)
Inductive gesture :=
| Click (c : click)
| Idle (until : nat).

Definition gesture_happening (g : gesture) (w : World (option AppState))
  : option happening :=
  match g with
  | Click c => v ← store_state w; a ← on_click c v; Some (Call a)
  | Idle t => Some (Wait t)
  end.

(** A session at the screen; the view is drawn again after every change of
    the store, so a click is handled with the state the store shows then. *)
Fixpoint use (n : nat) (gs : list gesture) (w : World (option AppState))
  : option (World (option AppState)) :=
  match gs with
  | [] => Some w
  | g :: gs' =>
      e ← gesture_happening g w;
      w' ← play n [e] w;
      use n gs' w'
  end.

(** A gesture the view offers in state [v]: a click on a button that is
    drawn, or waiting. *)
Definition clickable (v : TransportState) (g : gesture) : Prop :=
  match g with
  | Click c => is_Some (on_click c v)
  | Idle _ => True
  end.

(** The room on the screen makes sense: the channels are the seeded ones,
    the current channel is one of them, and the self user is in it. *)
Definition room_ok (v : TransportState) : Prop :=
  channels v = defaultChannels ∧ self_in_current v ∧
  (∃ ch, ch ∈ channels v ∧ currentChannelId v = Some (ch_id ch)) ∧
  (∃ u, u ∈ users v ∧ u_id u = 1%Z).

(** The cards agree with the controls: the self user's flags read as [me]
    does, and no other user has a flag set. *)
Definition cards_ok (v : TransportState) : Prop :=
  mirror v ∧ ∀ u, u ∈ users v → u_id u ≠ 1%Z → pills u = [].

(** The only server the view ever names. *)
Definition localhost_only (v : TransportState) : Prop :=
  connState v ≠ error ∧
  (currentServer v = None ∨ currentServer v = Some "localhost").

(** A listener environment in which listener 0 insists on channel 2: shown
    a state with another current channel, it calls [joinChannel(2)]; the
    other listeners only look. *)
Definition insister : behaviour unit :=
  λ l _ v c,
    if decide (l = 0 ∧ currentChannelId v ≠ Some 2%Z)
    then (c, [ACall (JoinChannel 2)]) else (c, []).

(** Listeners 0 and 1 subscribed, in that order, with listener 0 insisting. *)
Definition insisterWorld : World unit :=
  world_after insister tt 30 [KOp (Subscribe 0); KOp (Subscribe 1)].

(** The world after a listener call. *)
Definition called {C} (B : behaviour C) (w : World C) (l : lid) (s : loc)
    (vs : TransportState) : World C :=
  mkWorld (heap_of w) (state w) (listeners w) (connectTimer w) (timers w)
          (next_timer w) (now w) (B l s vs (client w)).1
          (EvCall l s vs :: trace w).

(** * Proofs *)

Ltac solve_app :=
  repeat first [ rewrite <- app_assoc | rewrite <- app_comm_cons | progress simpl ];
  reflexivity.

Ltac solve_len :=
  repeat first [ rewrite length_app | rewrite length_fmap | rewrite length_seq
               | rewrite length_insert | progress simpl ];
  lia.

Ltac solve_roots :=
  simpl;
  solve [ done
        | apply list_elem_of_here
        | apply list_subseteq_cons; done
        | etransitivity; [eassumption|]; apply list_subseteq_cons; done
        | etransitivity; [eassumption|]; eassumption ].

(** ** Reading through an extended heap *)

Lemma lookup_ext (h k : heap) l o : h !! l = Some o → (h ++ k) !! l = Some o.
Proof. intros H. by apply lookup_app_l_Some. Qed.

Lemma get_me_ext h k l m : get_me h l = Some m → get_me (h ++ k) l = Some m.
Proof.
  unfold get_me. destruct (h !! l) as [o|] eqn:E; [|done].
  intros H. by rewrite (lookup_ext _ k _ _ E).
Qed.

Lemma get_channel_ext h k l c :
  get_channel h l = Some c → get_channel (h ++ k) l = Some c.
Proof.
  unfold get_channel. destruct (h !! l) as [o|] eqn:E; [|done].
  intros H. by rewrite (lookup_ext _ k _ _ E).
Qed.

Lemma get_user_ext h k l u : get_user h l = Some u → get_user (h ++ k) l = Some u.
Proof.
  unfold get_user. destruct (h !! l) as [o|] eqn:E; [|done].
  intros H. by rewrite (lookup_ext _ k _ _ E).
Qed.

Lemma get_arr_ext h k l es : get_arr h l = Some es → get_arr (h ++ k) l = Some es.
Proof.
  unfold get_arr. destruct (h !! l) as [o|] eqn:E; [|done].
  intros H. by rewrite (lookup_ext _ k _ _ E).
Qed.

Lemma mapM_mono {A B} (f g : A → option B) l r :
  (∀ x y, f x = Some y → g x = Some y) → mapM f l = Some r → mapM g l = Some r.
Proof.
  intros Hfg. rewrite !mapM_Some. intros H.
  induction H; constructor; auto.
Qed.

Lemma read_channels_ext h k l cs :
  read_channels h l = Some cs → read_channels (h ++ k) l = Some cs.
Proof.
  unfold read_channels. destruct (get_arr h l) as [es|] eqn:E; [|done]; simpl.
  intros H. rewrite (get_arr_ext _ k _ _ E); simpl.
  eapply mapM_mono; [|done]. intros. by apply get_channel_ext.
Qed.

Lemma read_users_ext h k l us :
  read_users h l = Some us → read_users (h ++ k) l = Some us.
Proof.
  unfold read_users. destruct (get_arr h l) as [es|] eqn:E; [|done]; simpl.
  intros H. rewrite (get_arr_ext _ k _ _ E); simpl.
  eapply mapM_mono; [|done]. intros. by apply get_user_ext.
Qed.

(** A state object is well formed when its fields resolve. *)
Lemma view_Some h s v :
  view h s = Some v ↔
  ∃ ml cl ul, h !! s = Some (OState (connState v) (currentServer v)
                                    (currentChannelId v) ml cl ul) ∧
    get_me h ml = Some (me v) ∧ read_channels h cl = Some (channels v) ∧
    read_users h ul = Some (users v).
Proof.
  unfold view. split.
  - destruct (h !! s) as [[cs srv cur ml cl ul| | | |]|]; try done.
    destruct (get_me h ml) as [m|] eqn:Em; [|done]; simpl.
    destruct (read_channels h cl) as [chs|] eqn:Ec; [|done]; simpl.
    destruct (read_users h ul) as [us|] eqn:Eu; [|done]; simpl.
    intros [= <-]. by exists ml, cl, ul.
  - intros (ml & cl & ul & -> & -> & -> & ->). simpl. by destruct v.
Qed.

Lemma view_ext h k s v : view h s = Some v → view (h ++ k) s = Some v.
Proof.
  rewrite !view_Some. intros (ml & cl & ul & Hs & Hm & Hc & Hu).
  exists ml, cl, ul.
  split_and!; eauto using lookup_ext, get_me_ext, read_channels_ext, read_users_ext.
Qed.

Lemma reach_ext h k s v : view h s = Some v → reach (h ++ k) s = reach h s.
Proof.
  rewrite view_Some. intros (ml & cl & ul & Hs & Hm & Hc & Hu).
  unfold reach. rewrite (lookup_ext _ k _ _ Hs), Hs.
  unfold read_channels in Hc. unfold read_users in Hu.
  destruct (get_arr h cl) as [ces|] eqn:Ec; [|done].
  destruct (get_arr h ul) as [ues|] eqn:Eu; [|done].
  by rewrite (get_arr_ext _ k _ _ Ec), (get_arr_ext _ k _ _ Eu).
Qed.

(** ** [snapshot] in closed form *)


Lemma map_copy_eq (h : heap) es os :
  mapM (λ e, h !! e) es = Some os →
  map_copy h es = Some (h ++ os, seq (length h) (length os)).
Proof.
  revert h os. induction es as [|e es IH]; intros h os; simpl.
  - intros [= <-]. by rewrite app_nil_r.
  - unfold copy, alloc. destruct (h !! e) as [o|] eqn:E; [|done]; simpl.
    destruct (mapM (λ e0, h !! e0) es) as [os'|] eqn:E'; [|done]; simpl.
    intros [= <-].
    rewrite (IH (h ++ [o]) os'); simpl.
    + rewrite length_app, <- app_assoc. simpl.
      by replace (length h + 1) with (S (length h)) by lia.
    + eapply mapM_mono; [|done]. intros x y. apply lookup_ext.
Qed.

Lemma mapM_get_channel_cells (h : heap) es (cs : list Channel) :
  mapM (get_channel h) es = Some cs →
  mapM (λ e, h !! e) es = Some (OChannel <$> cs).
Proof.
  rewrite !mapM_Some. intros H. induction H as [|e c es cs He]; simpl; constructor; auto.
  unfold get_channel in He. by destruct (h !! e) as [[]|]; simplify_eq.
Qed.

Lemma mapM_get_user_cells (h : heap) es (us : list User) :
  mapM (get_user h) es = Some us →
  mapM (λ e, h !! e) es = Some (OUser <$> us).
Proof.
  rewrite !mapM_Some. intros H. induction H as [|e c es cs He]; simpl; constructor; auto.
  unfold get_user in He. by destruct (h !! e) as [[]|]; simplify_eq.
Qed.

Lemma get_me_middle (pre : heap) m post :
  get_me (pre ++ OMe m :: post) (length pre) = Some m.
Proof. unfold get_me. by rewrite list_lookup_middle. Qed.
Lemma get_channel_middle (pre : heap) c post :
  get_channel (pre ++ OChannel c :: post) (length pre) = Some c.
Proof. unfold get_channel. by rewrite list_lookup_middle. Qed.
Lemma get_user_middle (pre : heap) u post :
  get_user (pre ++ OUser u :: post) (length pre) = Some u.
Proof. unfold get_user. by rewrite list_lookup_middle. Qed.
Lemma get_arr_middle (pre : heap) es post :
  get_arr (pre ++ OArr es :: post) (length pre) = Some es.
Proof. unfold get_arr. by rewrite list_lookup_middle. Qed.

Lemma mapM_seq_cells {A} (get : heap → loc → option A) (mk : A → obj)
    (pre : heap) (xs : list A) (post : heap) :
  (∀ pre a post, get (pre ++ mk a :: post) (length pre) = Some a) →
  mapM (get (pre ++ (mk <$> xs) ++ post)) (seq (length pre) (length xs)) = Some xs.
Proof.
  intros Hget. revert pre. induction xs as [|x xs IH]; intros pre; [done|].
  apply mapM_Some. cbn [length seq fmap list_fmap]. constructor.
  - apply Hget.
  - specialize (IH (pre ++ [mk x])). apply mapM_Some in IH.
    rewrite length_app, <- app_assoc in IH. simpl in IH.
    by replace (length pre + 1) with (S (length pre)) in IH by lia.
Qed.

Lemma snapshot_eq h s v :
  view h s = Some v →
  snapshot h s = Some (h ++ snap_block (length h) v, snap_root (length h) v).
Proof.
  rewrite view_Some. intros (ml & cl & ul & Hs & Hm & Hc & Hu).
  unfold snapshot. rewrite Hs.
  unfold get_me in Hm. destruct (h !! ml) as [[]|] eqn:Eml; simplify_eq.
  unfold copy. rewrite Eml. simpl.
  unfold read_channels in Hc. destruct (get_arr h cl) as [ces|] eqn:Ec; [|done].
  simpl in Hc. rewrite (get_arr_ext _ _ _ _ Ec). simpl.
  rewrite (map_copy_eq _ _ (OChannel <$> channels v)); last first.
  { apply mapM_get_channel_cells. eapply mapM_mono; [|done].
    intros. by apply get_channel_ext. }
  simpl.
  unfold read_users in Hu. destruct (get_arr h ul) as [ues|] eqn:Eu; [|done].
  simpl in Hu. rewrite <- !app_assoc. rewrite (get_arr_ext _ _ _ _ Eu). simpl.
  rewrite (map_copy_eq _ _ (OUser <$> users v)); last first.
  { apply mapM_get_user_cells. eapply mapM_mono; [|done].
    intros. by apply get_user_ext. }
  simpl. unfold alloc, snap_block, snap_root.
  rewrite <- !app_assoc. simpl.
  rewrite !length_app, !length_fmap. simpl.
  rewrite !length_app, !length_fmap. simpl.
  rewrite <- !app_assoc. simpl.
  replace (length h + S (length (channels v) + 1)) with (length h + length (channels v) + 2) by lia.
  replace (length h + S (length (channels v))) with (length h + length (channels v) + 1) by lia.
  replace (length h + S (length (channels v) + 1 + length (users v)))
    with (length h + length (channels v) + length (users v) + 2) by lia.
  replace (length h + S (length (channels v) + 1 + (length (users v) + 1)))
    with (length h + length (channels v) + length (users v) + 3) by lia.
  done.
Qed.

Lemma lookup_at (H pre post : heap) o n :
  H = pre ++ o :: post → n = length pre → H !! n = Some o.
Proof. intros -> ->. by apply list_lookup_middle. Qed.

Lemma get_arr_at (H pre post : heap) es n :
  H = pre ++ OArr es :: post → n = length pre → get_arr H n = Some es.
Proof. intros -> ->. apply get_arr_middle. Qed.

Lemma mapM_seq_at {A} (get : heap → loc → option A) (mk : A → obj)
    (H pre : heap) (xs : list A) (post : heap) n :
  (∀ pre a post, get (pre ++ mk a :: post) (length pre) = Some a) →
  H = pre ++ (mk <$> xs) ++ post → n = length pre →
  mapM (get H) (seq n (length xs)) = Some xs.
Proof. intros Hget -> ->. by apply mapM_seq_cells. Qed.

(** Reading a snapshot block back. *)
Lemma view_block (h : heap) v k :
  view (h ++ snap_block (length h) v ++ k) (snap_root (length h) v) = Some v.
Proof.
  set (n := length (channels v)). set (m := length (users v)).
  apply view_Some. exists (length h), (length h + n + 1), (length h + n + m + 2).
  unfold snap_block, snap_root. fold n m. split_and!.
  - eapply (lookup_at _ (h ++ [OMe (me v)] ++ (OChannel <$> channels v) ++
        [OArr (seq (length h + 1) n)] ++ (OUser <$> users v) ++
        [OArr (seq (length h + n + 2) m)]) k);
      [solve_app | subst n m; solve_len].
  - simpl. apply get_me_middle.
  - unfold read_channels.
    erewrite (get_arr_at _ (h ++ [OMe (me v)] ++ (OChannel <$> channels v)));
      [| solve_app | subst n m; solve_len].
    simpl.
    eapply (mapM_seq_at _ OChannel _ (h ++ [OMe (me v)]));
      [apply get_channel_middle | solve_app | solve_len].
  - unfold read_users.
    erewrite (get_arr_at _ (h ++ [OMe (me v)] ++ (OChannel <$> channels v) ++
        [OArr (seq (length h + 1) n)] ++ (OUser <$> users v)));
      [| solve_app | subst n m; solve_len].
    simpl.
    eapply (mapM_seq_at _ OUser _ (h ++ [OMe (me v)] ++ (OChannel <$> channels v) ++
        [OArr (seq (length h + 1) n)]));
      [apply get_user_middle | solve_app | subst n m; solve_len].
Qed.

(** ** What a state object reaches *)

Lemma mapM_get_lt {A} (get : heap → loc → option A) (h : heap) es (xs : list A) :
  (∀ e x, get h e = Some x → e < length h) →
  mapM (get h) es = Some xs → Forall (λ e, e < length h) es.
Proof.
  intros Hget. rewrite mapM_Some. intros H.
  induction H; constructor; eauto.
Qed.

Lemma get_user_lt h e u : get_user h e = Some u → e < length h.
Proof.
  unfold get_user. destruct (h !! e) eqn:E; [|done]. intros _.
  by eapply lookup_lt_Some.
Qed.
Lemma get_channel_lt h e u : get_channel h e = Some u → e < length h.
Proof.
  unfold get_channel. destruct (h !! e) eqn:E; [|done]. intros _.
  by eapply lookup_lt_Some.
Qed.
Lemma get_me_lt h e u : get_me h e = Some u → e < length h.
Proof.
  unfold get_me. destruct (h !! e) eqn:E; [|done]. intros _.
  by eapply lookup_lt_Some.
Qed.
Lemma get_arr_lt h e u : get_arr h e = Some u → e < length h.
Proof.
  unfold get_arr. destruct (h !! e) eqn:E; [|done]. intros _.
  by eapply lookup_lt_Some.
Qed.

Lemma reach_lt h s v l : view h s = Some v → l ∈ reach h s → l < length h.
Proof.
  rewrite view_Some. intros (ml & cl & ul & Hs & Hm & Hc & Hu).
  unfold reach. rewrite Hs.
  unfold read_channels in Hc. unfold read_users in Hu.
  destruct (get_arr h cl) as [ces|] eqn:Ec; [|done].
  destruct (get_arr h ul) as [ues|] eqn:Eu; [|done]. simpl in *.
  rewrite !elem_of_cons, elem_of_app.
  intros [->|[->|[->|[->|[H|H]]]]];
    eauto using lookup_lt_Some, get_me_lt, get_arr_lt.
  - eapply mapM_get_lt in Hc; [|apply get_channel_lt].
    by eapply Forall_forall in Hc.
  - eapply mapM_get_lt in Hu; [|apply get_user_lt].
    by eapply Forall_forall in Hu.
Qed.

Lemma reach_block (h : heap) v k l :
  l ∈ reach (h ++ snap_block (length h) v ++ k) (snap_root (length h) v) →
  length h ≤ l ≤ snap_root (length h) v.
Proof.
  pose proof (view_block h v k) as Hv.
  apply view_Some in Hv as (ml & cl & ul & Hs & Hm & Hc & Hu).
  unfold reach. rewrite Hs.
  assert ((h ++ snap_block (length h) v ++ k) !! snap_root (length h) v =
          Some (OState (connState v) (currentServer v) (currentChannelId v)
                 (length h) (length h + length (channels v) + 1)
                 (length h + length (channels v) + length (users v) + 2))) as Hs'.
  { unfold snap_block, snap_root.
    eapply (lookup_at _ (h ++ [OMe (me v)] ++ (OChannel <$> channels v) ++
        [OArr (seq (length h + 1) (length (channels v)))] ++ (OUser <$> users v) ++
        [OArr (seq (length h + length (channels v) + 2) (length (users v)))]) k);
      [solve_app | solve_len]. }
  rewrite Hs in Hs'. injection Hs' as -> -> ->.
  unfold snap_block.
  erewrite (get_arr_at _ (h ++ [OMe (me v)] ++ (OChannel <$> channels v)));
    [| solve_app | solve_len].
  erewrite (get_arr_at _ (h ++ [OMe (me v)] ++ (OChannel <$> channels v) ++
        [OArr (seq (length h + 1) (length (channels v)))] ++ (OUser <$> users v)));
    [| solve_app | solve_len].
  simpl. unfold snap_root.
  rewrite !elem_of_cons, elem_of_app, !elem_of_seq. lia.
Qed.

(** ** Writes outside what a state object reaches *)

Lemma mapM_insert_ne {A} (get : heap → loc → option A) (h : heap) l o es :
  (∀ e, e ≠ l → get (<[l:=o]> h) e = get h e) →
  l ∉ es → mapM (get (<[l:=o]> h)) es = mapM (get h) es.
Proof.
  intros Hget Hl. apply Forall_mapM_ext, Forall_forall.
  intros e He. apply Hget. intros ->. done.
Qed.

Lemma get_me_insert_ne (h : heap) l o e : e ≠ l → get_me (<[l:=o]> h) e = get_me h e.
Proof. intros. unfold get_me. by rewrite list_lookup_insert_ne. Qed.
Lemma get_channel_insert_ne (h : heap) l o e :
  e ≠ l → get_channel (<[l:=o]> h) e = get_channel h e.
Proof. intros. unfold get_channel. by rewrite list_lookup_insert_ne. Qed.
Lemma get_user_insert_ne (h : heap) l o e :
  e ≠ l → get_user (<[l:=o]> h) e = get_user h e.
Proof. intros. unfold get_user. by rewrite list_lookup_insert_ne. Qed.
Lemma get_arr_insert_ne (h : heap) l o e :
  e ≠ l → get_arr (<[l:=o]> h) e = get_arr h e.
Proof. intros. unfold get_arr. by rewrite list_lookup_insert_ne. Qed.

Lemma view_reach_insert_ne (h : heap) l o s v :
  view h s = Some v → l ∉ reach h s →
  view (<[l:=o]> h) s = Some v ∧ reach (<[l:=o]> h) s = reach h s.
Proof.
  intros Hv. pose proof Hv as Hv'. revert Hv'.
  rewrite view_Some. intros (ml & cl & ul & Hs & Hm & Hc & Hu).
  unfold reach. rewrite Hs.
  unfold read_channels in Hc. unfold read_users in Hu.
  destruct (get_arr h cl) as [ces|] eqn:Ec; [|done].
  destruct (get_arr h ul) as [ues|] eqn:Eu; [|done]. simpl in *.
  rewrite !not_elem_of_cons, not_elem_of_app.
  intros (? & ? & ? & ? & ? & ?).
  rewrite list_lookup_insert_ne by done. rewrite Hs.
  rewrite !get_arr_insert_ne by done. rewrite Ec, Eu. split; [|done].
  apply view_Some. exists ml, cl, ul. split_and!.
  - by rewrite list_lookup_insert_ne.
  - by rewrite get_me_insert_ne.
  - unfold read_channels. rewrite get_arr_insert_ne, Ec by done. simpl.
    rewrite mapM_insert_ne; auto using get_channel_insert_ne.
  - unfold read_users. rewrite get_arr_insert_ne, Eu by done. simpl.
    rewrite mapM_insert_ne; auto using get_user_insert_ne.
Qed.

(** ** Writes to primitive fields *)

Lemma get_arr_insert_kind (h : heap) l o o' e :
  h !! l = Some o → same_kind o o' → get_arr (<[l:=o']> h) e = get_arr h e.
Proof.
  intros Hl Hk. unfold get_arr. destruct (decide (e = l)) as [->|].
  - rewrite list_lookup_insert_eq by by eapply lookup_lt_Some.
    rewrite Hl. destruct o, o'; simpl in *; try done. by subst.
  - by rewrite list_lookup_insert_ne.
Qed.

Lemma get_is_Some_insert_kind {A} (sel : obj → option A) (h : heap) l o o' e :
  (∀ o o', same_kind o o' → is_Some (sel o) → is_Some (sel o')) →
  h !! l = Some o → same_kind o o' →
  is_Some (h !! e ≫= sel) → is_Some (<[l:=o']> h !! e ≫= sel).
Proof.
  intros Hsel Hl Hk. destruct (decide (e = l)) as [->|].
  - rewrite list_lookup_insert_eq by by eapply lookup_lt_Some.
    rewrite Hl. simpl. by apply Hsel.
  - by rewrite list_lookup_insert_ne.
Qed.


Lemma get_me_sel h l : get_me h l = h !! l ≫= sel_me.
Proof. unfold get_me. by destruct (h !! l) as [[]|]. Qed.
Lemma get_channel_sel h l : get_channel h l = h !! l ≫= sel_channel.
Proof. unfold get_channel. by destruct (h !! l) as [[]|]. Qed.
Lemma get_user_sel h l : get_user h l = h !! l ≫= sel_user.
Proof. unfold get_user. by destruct (h !! l) as [[]|]. Qed.

Lemma sel_me_kind o o' : same_kind o o' → is_Some (sel_me o) → is_Some (sel_me o').
Proof. destruct o, o'; simpl; try done; by intros _ [? [=]]. Qed.
Lemma sel_channel_kind o o' :
  same_kind o o' → is_Some (sel_channel o) → is_Some (sel_channel o').
Proof. destruct o, o'; simpl; try done; by intros _ [? [=]]. Qed.
Lemma sel_user_kind o o' : same_kind o o' → is_Some (sel_user o) → is_Some (sel_user o').
Proof. destruct o, o'; simpl; try done; by intros _ [? [=]]. Qed.

Lemma view_insert_kind (h : heap) l o o' s :
  h !! l = Some o → same_kind o o' →
  is_Some (view h s) →
  is_Some (view (<[l:=o']> h) s) ∧ reach (<[l:=o']> h) s = reach h s.
Proof.
  intros Hl Hk [v Hv]. revert Hv.
  rewrite view_Some. intros (ml & cl & ul & Hs & Hm & Hc & Hu).
  assert (∃ cs srv cur, <[l:=o']> h !! s = Some (OState cs srv cur ml cl ul))
    as (cs & srv & cur & Hs').
  { destruct (decide (s = l)) as [->|].
    - rewrite list_lookup_insert_eq by by eapply lookup_lt_Some.
      rewrite Hl in Hs. injection Hs as ->.
      destruct o'; simpl in Hk; try done. destruct Hk as (<- & <- & <-). eauto.
    - rewrite list_lookup_insert_ne by done. eauto. }
  split.
  - unfold view. rewrite Hs'.
    assert (is_Some (get_me (<[l:=o']> h) ml)) as [m ->].
    { rewrite get_me_sel. eapply get_is_Some_insert_kind; eauto using sel_me_kind;
      rewrite <- ?get_me_sel; eauto. }
    simpl. unfold read_channels, read_users in *.
    rewrite !(get_arr_insert_kind _ _ _ _ _ Hl Hk).
    destruct (get_arr h cl) as [ces|] eqn:Ec; [|done].
    destruct (get_arr h ul) as [ues|] eqn:Eu; [|done]. simpl in *.
    assert (is_Some (mapM (get_channel (<[l:=o']> h)) ces)) as [chs ->].
    { apply mapM_is_Some. assert (is_Some (mapM (get_channel h) ces)) as Hc' by eauto.
      apply mapM_is_Some in Hc'. eapply Forall_impl; [done|]. simpl.
      intros e. rewrite !get_channel_sel.
      eapply get_is_Some_insert_kind; eauto using sel_channel_kind. }
    assert (is_Some (mapM (get_user (<[l:=o']> h)) ues)) as [us ->].
    { apply mapM_is_Some. assert (is_Some (mapM (get_user h) ues)) as Hu' by eauto.
      apply mapM_is_Some in Hu'. eapply Forall_impl; [done|]. simpl.
      intros e. rewrite !get_user_sel.
      eapply get_is_Some_insert_kind; eauto using sel_user_kind. }
    simpl. eauto.
  - unfold reach. rewrite Hs', Hs.
    by rewrite !(get_arr_insert_kind _ _ _ _ _ Hl Hk).
Qed.

(** A mutation through a snapshot either writes nothing or rewrites one
    cell the snapshot reaches, keeping its kind and its references. *)
Lemma apply_mutation_cases (h : heap) t m :
  apply_mutation h t m = h ∨
  ∃ l o o', h !! l = Some o ∧ same_kind o o' ∧ l ∈ reach h t ∧
            apply_mutation h t m = <[l:=o']> h.
Proof.
  unfold apply_mutation, reach.
  destruct (h !! t) as [[cs srv cur ml cl ul| | | |]|] eqn:Ht; auto.
  destruct m as [c|x|x|f|i f|i f].
  - right. eexists t, _, _. split_and!; [done| |set_solver|done]. done.
  - right. eexists t, _, _. split_and!; [done| |set_solver|done]. done.
  - right. eexists t, _, _. split_and!; [done| |set_solver|done]. done.
  - destruct (h !! ml) as [[]|] eqn:Hml; auto.
    right. eexists ml, _, _. split_and!; [done| |set_solver|done]. done.
  - destruct (get_arr h cl) as [ces|] eqn:Ec; simpl; auto.
    destruct (ces !! i) as [e|] eqn:Ei; simpl; auto.
    destruct (h !! e) as [[]|] eqn:He; auto.
    right. eexists e, _, _. split_and!; [done| | |done]; [done|].
    apply list_elem_of_lookup_2 in Ei. set_solver.
  - destruct (get_arr h ul) as [ues|] eqn:Eu; simpl; auto.
    destruct (ues !! i) as [e|] eqn:Ei; simpl; auto.
    destruct (h !! e) as [[]|] eqn:He; auto.
    right. eexists e, _, _. split_and!; [done| | |done]; [done|].
    apply list_elem_of_lookup_2 in Ei. set_solver.
Qed.

Lemma apply_mutation_length (h : heap) t m :
  length (apply_mutation h t m) = length h.
Proof.
  destruct (apply_mutation_cases h t m) as [->|(l & o & o' & _ & _ & _ & ->)];
    [done|apply length_insert].
Qed.

(** The snapshot written to stays well formed and keeps its shape. *)
Lemma apply_mutation_self (h : heap) t m s :
  is_Some (view h s) →
  is_Some (view (apply_mutation h t m) s) ∧
  reach (apply_mutation h t m) s = reach h s.
Proof.
  intros Hs.
  destruct (apply_mutation_cases h t m) as [->|(l & o & o' & Hl & Hk & _ & ->)];
    [done|by eapply view_insert_kind].
Qed.

(** Anything disjoint from the snapshot written to keeps its contents. *)
Lemma apply_mutation_frame (h : heap) t m s v :
  view h s = Some v → reach h t ## reach h s →
  view (apply_mutation h t m) s = Some v.
Proof.
  intros Hs Hd.
  destruct (apply_mutation_cases h t m) as [->|(l & o & o' & Hl & Hk & Hin & ->)];
    [done|].
  eapply view_reach_insert_ne; [done|]. intros Hin'. by eapply Hd.
Qed.

(** ** Preservation of the heap invariant *)

Lemma hinv_alloc (h k : heap) s s' rs v' :
  hinv h s rs → view (h ++ k) s' = Some v' →
  (∀ l, l ∈ reach (h ++ k) s' → l ∈ reach h s ∨ length h ≤ l) →
  hinv (h ++ k) s' rs.
Proof.
  intros ([v Hv] & Hsnap & Hdis) Hv' Hreach. split_and!; [eauto| |].
  - intros r Hr. destruct (Hsnap r Hr) as [[vr Hvr] Hd]. split.
    + erewrite view_ext; eauto.
    + erewrite reach_ext by done. intros l Hl Hl'.
      destruct (Hreach l Hl') as [?|?]; [by eapply Hd|].
      eapply reach_lt in Hl; [|done]. lia.
  - intros r1 r2 H1 H2 Hne.
    destruct (Hsnap r1 H1) as [[v1 Hv1] _], (Hsnap r2 H2) as [[v2 Hv2] _].
    erewrite !reach_ext by done. eauto.
Qed.

Lemma hinv_snapshot (h : heap) s rs v :
  hinv h s rs → view h s = Some v →
  hinv (h ++ snap_block (length h) v) s (snap_root (length h) v :: rs).
Proof.
  intros (_ & Hsnap & Hdis) Hv.
  pose proof (view_block h v []) as Hb. rewrite app_nil_r in Hb.
  assert (∀ l, l ∈ reach (h ++ snap_block (length h) v) (snap_root (length h) v) →
               length h ≤ l) as Hfresh.
  { intros l Hl. pose proof (reach_block h v [] l) as Hr.
    rewrite app_nil_r in Hr. apply Hr in Hl. lia. }
  assert (∀ r, r ∈ rs → r ≠ snap_root (length h) v) as Hne.
  { intros r Hr ->. destruct (Hsnap _ Hr) as [[vr Hvr] _].
    apply view_Some in Hvr as (? & ? & ? & Hs & _).
    apply lookup_lt_Some in Hs. unfold snap_root in Hs. lia. }
  split_and!.
  - erewrite view_ext; eauto.
  - intros r [->|Hr]%elem_of_cons.
    + split; [eauto|]. erewrite (reach_ext h _ s) by done.
      intros l Hl Hl'. apply Hfresh in Hl. eapply reach_lt in Hl'; [|done]. lia.
    + destruct (Hsnap r Hr) as [[vr Hvr] Hd]. split.
      * erewrite view_ext; eauto.
      * by erewrite !reach_ext by done.
  - intros r1 r2 [->|H1]%elem_of_cons [->|H2]%elem_of_cons Hr; [done| | |].
    + destruct (Hsnap r2 H2) as [[v2 Hv2] _]. erewrite (reach_ext h _ r2) by done.
      intros l Hl Hl'. apply Hfresh in Hl. eapply reach_lt in Hl'; [|done]. lia.
    + destruct (Hsnap r1 H1) as [[v1 Hv1] _]. erewrite (reach_ext h _ r1) by done.
      intros l Hl Hl'. apply Hfresh in Hl'. eapply reach_lt in Hl; [|done]. lia.
    + destruct (Hsnap r1 H1) as [[v1 Hv1] _], (Hsnap r2 H2) as [[v2 Hv2] _].
      erewrite !reach_ext by done. eauto.
Qed.

Lemma hinv_mutate (h : heap) s rs t m :
  hinv h s rs → t ∈ rs → hinv (apply_mutation h t m) s rs.
Proof.
  intros ([v Hv] & Hsnap & Hdis) Ht.
  destruct (Hsnap t Ht) as [Hvt Hdt].
  assert (reach (apply_mutation h t m) s = reach h s) as Hrs
    by (eapply apply_mutation_self; eauto).
  split_and!.
  - erewrite apply_mutation_frame; eauto.
  - intros r Hr. destruct (Hsnap r Hr) as [Hvr Hd].
    destruct (apply_mutation_self h t m r Hvr) as [? ->]. by rewrite Hrs.
  - intros r1 r2 H1 H2 Hne.
    destruct (Hsnap r1 H1) as [Hv1 _], (Hsnap r2 H2) as [Hv2 _].
    destruct (apply_mutation_self h t m r1 Hv1) as [_ ->].
    destruct (apply_mutation_self h t m r2 Hv2) as [_ ->]. eauto.
Qed.

(** A write through one snapshot changes neither the state object nor any
    other snapshot. *)
Lemma hinv_mutate_state (h : heap) s rs t m v :
  hinv h s rs → t ∈ rs → view h s = Some v →
  view (apply_mutation h t m) s = Some v.
Proof.
  intros (_ & Hsnap & _) Ht Hv. destruct (Hsnap t Ht) as [_ Hd].
  by eapply apply_mutation_frame.
Qed.

Lemma hinv_mutate_other (h : heap) s rs t m r v :
  hinv h s rs → t ∈ rs → r ∈ rs → r ≠ t → view h r = Some v →
  view (apply_mutation h t m) r = Some v.
Proof.
  intros (_ & _ & Hdis) Ht Hr Hne Hv.
  eapply apply_mutation_frame; eauto.
Qed.

(** ** The methods, on a well-formed world *)

Lemma view_reach_new_state (h : heap) cs srv cur ml cl ul m ces chs ues us :
  get_me h ml = Some m →
  get_arr h cl = Some ces → mapM (get_channel h) ces = Some chs →
  get_arr h ul = Some ues → mapM (get_user h) ues = Some us →
  view (h ++ [OState cs srv cur ml cl ul]) (length h)
    = Some (mkState cs srv cur m chs us) ∧
  reach (h ++ [OState cs srv cur ml cl ul]) (length h)
    = length h :: ml :: cl :: ul :: ces ++ ues.
Proof.
  intros Hm Hc Hcs Hu Hus. split.
  - apply view_Some. exists ml, cl, ul. simpl. split_and!.
    + by apply list_lookup_middle.
    + by apply get_me_ext.
    + apply read_channels_ext. unfold read_channels. by rewrite Hc.
    + apply read_users_ext. unfold read_users. by rewrite Hu.
  - unfold reach. rewrite list_lookup_middle by done.
    by rewrite (get_arr_ext _ _ _ _ Hc), (get_arr_ext _ _ _ _ Hu).
Qed.

Lemma view_parts (h : heap) s v :
  view h s = Some v →
  ∃ ml cl ul ces ues,
    h !! s = Some (OState (connState v) (currentServer v) (currentChannelId v) ml cl ul) ∧
    get_me h ml = Some (me v) ∧
    get_arr h cl = Some ces ∧ mapM (get_channel h) ces = Some (channels v) ∧
    get_arr h ul = Some ues ∧ mapM (get_user h) ues = Some (users v) ∧
    reach h s = s :: ml :: cl :: ul :: ces ++ ues.
Proof.
  rewrite view_Some. intros (ml & cl & ul & Hs & Hm & Hc & Hu).
  unfold read_channels in Hc. unfold read_users in Hu.
  destruct (get_arr h cl) as [ces|] eqn:Ec; [|done].
  destruct (get_arr h ul) as [ues|] eqn:Eu; [|done]. simpl in *.
  exists ml, cl, ul, ces, ues. split_and!; try done.
  unfold reach. by rewrite Hs, Ec, Eu.
Qed.

Lemma map_self_spec f (h : heap) es (us : list User) :
  mapM (get_user h) es = Some us →
  ∃ k es', map_self f h es = Some (h ++ k, es') ∧
    mapM (get_user (h ++ k)) es' = Some (upd_self f <$> us) ∧
    Forall (λ e, e ∈ es ∨ length h ≤ e) es'.
Proof.
  revert h us. induction es as [|e es IH]; intros h us.
  - intros [= <-]. exists [], []. by rewrite app_nil_r.
  - intros Hm. apply mapM_Some in Hm. inversion Hm as [|? u ? us' He Hes]; subst.
    apply mapM_Some in Hes. simpl. rewrite He. simpl.
    unfold upd_self at 1.
    destruct (decide (u_id u = 1%Z)) as [Hid|Hid]; unfold alloc; simpl.
    + destruct (IH (h ++ [OUser (f u)]) us') as (k & es' & -> & Hr & Hf).
      { eapply mapM_mono; [|done]. intros. by apply get_user_ext. }
      simpl. exists (OUser (f u) :: k), (length h :: es').
      rewrite <- app_assoc. split_and!; [done| |].
      * rewrite <- app_assoc in Hr. simpl in Hr.
        apply mapM_Some. constructor; [|by apply mapM_Some].
        apply get_user_middle.
      * constructor; [right; lia|]. eapply Forall_impl; [done|]. simpl.
        intros x [?|?]; [left; set_solver|right]. rewrite length_app in *. lia.
    + destruct (IH h us') as (k & es' & -> & Hr & Hf); [done|].
      simpl. exists k, (e :: es'). split_and!; [done| |].
      * apply mapM_Some. constructor; [|by apply mapM_Some]. by apply get_user_ext.
      * constructor; [left; set_solver|]. eapply Forall_impl; [done|]. simpl.
        intros x [?|?]; [left; set_solver|by right].
Qed.

Section Methods.
Context {C : Type} (B : behaviour C).
Implicit Types w : World C.

Lemma with_heap_id w : with_heap w (heap_of w) = w.
Proof. by destruct w. Qed.

Lemma take_snapshot_ok src w v :
  inv w → view (heap_of w) (state w) = Some v →
  ∃ w' r, take_snapshot src w = Some (w', r) ∧
    heap_of w' = heap_of w ++ snap_block (length (heap_of w)) v ∧
    r = snap_root (length (heap_of w)) v ∧
    view (heap_of w') r = Some v ∧
    view (heap_of w') (state w') = Some v ∧
    trace w' = EvSnapshot src r v :: trace w ∧
    state w' = state w ∧ listeners w' = listeners w ∧
    connectTimer w' = connectTimer w ∧ timers w' = timers w ∧
    next_timer w' = next_timer w ∧ now w' = now w ∧ client w' = client w ∧
    inv w'.
Proof.
  intros Hinv Hv. unfold take_snapshot.
  rewrite (snapshot_eq _ _ _ Hv). simpl.
  pose proof (view_block (heap_of w) v []) as Hb. rewrite app_nil_r in Hb.
  rewrite Hb. simpl. eexists _, _. split; [done|]. simpl.
  split_and!; try done.
  - by apply view_ext.
  - unfold inv. simpl. by apply hinv_snapshot.
Qed.

Lemma update_ok w k p o v' :
  inv w →
  (heap_of w ++ k) !! state w = Some o →
  view ((heap_of w ++ k) ++ [merge o p]) (length (heap_of w ++ k)) = Some v' →
  (∀ l, l ∈ reach ((heap_of w ++ k) ++ [merge o p]) (length (heap_of w ++ k)) →
        l ∈ reach (heap_of w) (state w) ∨ length (heap_of w) ≤ l) →
  ∃ w' snap, update p (with_heap w (heap_of w ++ k)) = Some (w', [KDeliver 0 snap]) ∧
             emitted w w' v' snap.
Proof.
  intros Hinv Ho Hv' Hreach. unfold update. simpl. rewrite Ho. simpl.
  set (w1 := mkWorld _ _ _ _ _ _ _ _ _).
  assert (inv w1) as Hinv1.
  { unfold inv, w1. simpl. rewrite <- app_assoc.
    eapply hinv_alloc; [done|by rewrite app_assoc|].
    intros l. rewrite app_assoc. apply Hreach. }
  destruct (take_snapshot_ok FromUpdate w1 v' Hinv1 Hv')
    as (w' & r & -> & Hh & Hr & Hvr & Hvs & Htr & Hst & Hl & Hct & Hts & Hnt & Hnow & Hcl & Hinv').
  simpl. eexists _, _. split; [done|].
  unfold emitted. split_and!; try done.
  rewrite Hh. unfold w1. simpl. rewrite <- !app_assoc. by eexists.
Qed.

End Methods.

Section Steps.
Context {C : Type} (B : behaviour C).
Implicit Types w : World C.

(** An [update] whose partial has only primitive keys. *)
Lemma update_prim w pcs psrv pcur v :
  inv w → view (heap_of w) (state w) = Some v →
  ∃ w' snap,
    update (mkPartial pcs psrv pcur None None None) w = Some (w', [KDeliver 0 snap]) ∧
    emitted w w' (mkState (default (connState v) pcs) (default (currentServer v) psrv)
                          (default (currentChannelId v) pcur) (me v) (channels v)
                          (users v)) snap.
Proof.
  intros Hinv Hv.
  destruct (view_parts _ _ _ Hv) as (ml & cl & ul & ces & ues & Hs & Hm & Hc & Hcs & Hu & Hus & Hr).
  set (o := OState (connState v) (currentServer v) (currentChannelId v) ml cl ul).
  set (p := mkPartial pcs psrv pcur None None None).
  assert ((heap_of w ++ []) !! state w = Some o) as Ho by by rewrite app_nil_r.
  destruct (view_reach_new_state (heap_of w) (default (connState v) pcs)
               (default (currentServer v) psrv) (default (currentChannelId v) pcur)
               ml cl ul _ _ _ _ _ Hm Hc Hcs Hu Hus) as [Hv' Hr'].
  edestruct (update_ok w [] p o) as (w' & snap & Hup & He).
  - done.
  - exact Ho.
  - rewrite app_nil_r. simpl. apply Hv'.
  - rewrite app_nil_r. simpl. rewrite Hr', Hr. intros l.
    rewrite !elem_of_cons, !elem_of_app. intros [->|?]; [right; lia|left; tauto].
  - rewrite app_nil_r, with_heap_id in Hup. eauto.
Qed.

Lemma step_connect_connected w p v :
  view (heap_of w) (state w) = Some v → connState v = connected →
  step B w (KOp (Connect p)) = Some (w, []).
Proof.
  intros Hv Hc. apply view_Some in Hv as (ml & cl & ul & Hs & _).
  simpl. rewrite Hs, Hc. by rewrite decide_True.
Qed.

Lemma step_connect w p v :
  inv w → view (heap_of w) (state w) = Some v → connState v ≠ connected →
  ∃ w' snap, step B w (KOp (Connect p)) = Some (w', [KDeliver 0 snap; KArm]) ∧
             emitted w w' (connecting_v (server p) v) snap.
Proof.
  intros Hinv Hv Hc.
  destruct (update_prim w (Some connecting) (Some (Some (server p))) None v Hinv Hv)
    as (w' & snap & Hu & He).
  apply view_Some in Hv as (ml & cl & ul & Hs & _).
  simpl. rewrite Hs. rewrite decide_False by done. rewrite Hu. simpl. eauto.
Qed.

Lemma inv_clear_connect_timer w : inv w → inv (clear_connect_timer w).
Proof.
  unfold clear_connect_timer. destruct (connectTimer w); [|done].
  by destruct (0 <? n).
Qed.

Lemma step_disconnect w v :
  inv w → view (heap_of w) (state w) = Some v →
  ∃ w' snap, step B w (KOp Disconnect) = Some (w', [KDeliver 0 snap]) ∧
             emitted (clear_connect_timer w) w' (with_conn disconnected v) snap.
Proof.
  intros Hinv Hv. simpl.
  apply (update_prim (clear_connect_timer w) (Some disconnected) None None v).
  - by apply inv_clear_connect_timer.
  - unfold clear_connect_timer. destruct (connectTimer w); [|done].
    by destruct (0 <? n).
Qed.

Lemma step_join w c v :
  inv w → view (heap_of w) (state w) = Some v →
  ∃ w' snap, step B w (KOp (JoinChannel c)) = Some (w', [KDeliver 0 snap]) ∧
             emitted w w' (join_v c v) snap.
Proof.
  intros Hinv Hv.
  destruct (view_parts _ _ _ Hv) as (ml & cl & ul & ces & ues & Hs & Hm & Hc & Hcs & Hu & Hus & Hr).
  simpl. rewrite Hs, Hu. simpl.
  destruct (map_self_spec (with_channel c) _ _ _ Hus) as (k & es' & -> & Hes' & Hf).
  simpl. unfold alloc.
  set (k' := k ++ [OArr es']).
  replace ((heap_of w ++ k) ++ [OArr es']) with (heap_of w ++ k')
    by (unfold k'; by rewrite app_assoc).
  set (o := OState (connState v) (currentServer v) (currentChannelId v) ml cl ul).
  assert ((heap_of w ++ k') !! state w = Some o) as Ho by by apply lookup_ext.
  edestruct (view_reach_new_state (heap_of w ++ k') (connState v) (currentServer v)
               (Some c) ml cl (length (heap_of w ++ k))) as [Hv' Hr'].
  { by apply get_me_ext. }
  { by apply get_arr_ext. }
  { eapply mapM_mono; [|done]. intros. by apply get_channel_ext. }
  { unfold k'. rewrite app_assoc. apply get_arr_middle. }
  { unfold k'. rewrite app_assoc. eapply mapM_mono; [|done]. intros. by apply get_user_ext. }
  eapply (update_ok w k' _ o); [done|done|apply Hv'|].
  simpl. rewrite Hr', Hr. intros l.
  rewrite !elem_of_cons, !elem_of_app.
  intros [->|[->|[->|[->|[?|Hl]]]]]; try (left; tauto);
    try (right; rewrite ?length_app; lia).
  eapply Forall_forall in Hf; [|done]. destruct Hf; [left|right]; tauto.
Qed.

Lemma updateMe_ok w pm pd v :
  inv w → view (heap_of w) (state w) = Some v →
  ∃ w' snap, updateMe pm pd w = Some (w', [KDeliver 0 snap]) ∧
             emitted w w' (updateMe_v pm pd v) snap.
Proof.
  intros Hinv Hv.
  destruct (view_parts _ _ _ Hv) as (ml & cl & ul & ces & ues & Hs & Hm & Hc & Hcs & Hu & Hus & Hr).
  unfold updateMe. rewrite Hs, Hm. simpl.
  rewrite (get_arr_ext _ _ _ _ Hu). simpl.
  set (m := merge_me pm pd (me v)).
  destruct (map_self_spec (with_flags m) (heap_of w ++ [OMe m]) ues (users v))
    as (k & es' & -> & Hes' & Hf).
  { eapply mapM_mono; [|done]. intros. by apply get_user_ext. }
  simpl. unfold alloc.
  set (k' := [OMe m] ++ k ++ [OArr es']).
  replace (((heap_of w ++ [OMe m]) ++ k) ++ [OArr es']) with (heap_of w ++ k')
    by (unfold k'; by rewrite <- !app_assoc).
  set (o := OState (connState v) (currentServer v) (currentChannelId v) ml cl ul).
  assert ((heap_of w ++ k') !! state w = Some o) as Ho by by apply lookup_ext.
  edestruct (view_reach_new_state (heap_of w ++ k') (connState v) (currentServer v)
               (currentChannelId v) (length (heap_of w)) cl
               (length ((heap_of w ++ [OMe m]) ++ k))) as [Hv' Hr'].
  { unfold k'. apply get_me_middle. }
  { by apply get_arr_ext. }
  { eapply mapM_mono; [|done]. intros. by apply get_channel_ext. }
  { eapply get_arr_at; [|done]. unfold k'. solve_app. }
  { replace (heap_of w ++ k') with (((heap_of w ++ [OMe m]) ++ k) ++ [OArr es'])
      by (unfold k'; by rewrite <- !app_assoc).
    eapply mapM_mono; [|done]. intros. by apply get_user_ext. }
  eapply (update_ok w k' _ o); [done|done|apply Hv'|].
  simpl. rewrite Hr', Hr. intros l.
  rewrite !elem_of_cons, !elem_of_app.
  intros [->|[->|[->|[->|[?|Hl]]]]]; try (left; tauto);
    try (right; rewrite ?length_app; simpl; lia).
  eapply Forall_forall in Hf; [|done]. rewrite length_app in Hf. simpl in Hf.
  destruct Hf; [left; tauto|right; lia].
Qed.

Lemma step_setMute w b v :
  inv w → view (heap_of w) (state w) = Some v →
  ∃ w' snap, step B w (KOp (SetMute b)) = Some (w', [KDeliver 0 snap]) ∧
             emitted w w' (updateMe_v (Some b) None v) snap.
Proof. apply updateMe_ok. Qed.

Lemma step_setDeafen w b v :
  inv w → view (heap_of w) (state w) = Some v →
  ∃ w' snap, step B w (KOp (SetDeafen b)) = Some (w', [KDeliver 0 snap]) ∧
             emitted w w' (updateMe_v None (Some b) v) snap.
Proof. apply updateMe_ok. Qed.

End Steps.


Section Safety.
Context {C : Type} (B : behaviour C).
Implicit Types w : World C.

Lemma emitted_inv w w' v snap : emitted w w' v snap → inv w'.
Proof. unfold emitted. tauto. Qed.

Lemma emitted_roots w w' v snap :
  emitted w w' v snap →
  snapshot_roots (trace w') = snap :: snapshot_roots (trace w).
Proof. intros (_ & _ & -> & _). done. Qed.

Lemma frame_ok_mono rs rs' k : rs ⊆ rs' → frame_ok rs k → frame_ok rs' k.
Proof. intros Hs. destruct k; simpl; auto. Qed.

Lemma frame_ok_action rs snap a : snap ∈ rs → frame_ok rs (frame_of_action snap a).
Proof. by destruct a. Qed.

(** Every step from a good configuration succeeds and gives a good
    configuration: the machine never reads a dangling reference. *)
Lemma step_cinv w k stk :
  cinv w (k :: stk) →
  ∃ w' ks, step B w k = Some (w', ks) ∧ cinv w' (ks ++ stk) ∧
           snapshot_roots (trace w) ⊆ snapshot_roots (trace w').
Proof.
  intros [Hinv Hstk]. apply Forall_cons in Hstk as [Hk Hstk].
  pose proof Hinv as ([v Hv] & Hsnap & _).
  assert (∀ w' v' snap ks,
    emitted w w' v' snap → Forall (frame_ok (snap :: snapshot_roots (trace w))) ks →
    cinv w' (ks ++ stk) ∧ snapshot_roots (trace w) ⊆ snapshot_roots (trace w')) as Hem.
  { intros w' v' snap ks He Hks. rewrite (emitted_roots _ _ _ _ He).
    split; [split; [by eapply emitted_inv|]|solve_roots].
    rewrite (emitted_roots _ _ _ _ He). apply Forall_app. split; [done|].
    eapply Forall_impl; [done|]. intros k'. apply frame_ok_mono. solve_roots. }
  destruct k as [[|l|l|p| |c|b|b]|i snap|l snap| |t m|until].
  - (* getState *)
    destruct (take_snapshot_ok FromGetState w v Hinv Hv)
      as (w' & r & Ht & _ & _ & _ & _ & Htr & _ & _ & _ & _ & _ & _ & _ & Hinv').
    simpl. rewrite Ht. simpl. eexists _, _. split; [done|].
    rewrite Htr. simpl. split; [split; [done|]|solve_roots].
    rewrite Htr. simpl. eapply Forall_impl; [done|].
    intros k'. apply frame_ok_mono. solve_roots.
  - (* subscribe *)
    set (w1 := mkWorld (heap_of w) (state w) (set_add l (listeners w)) (connectTimer w)
                 (timers w) (next_timer w) (now w) (client w) (trace w)).
    destruct (take_snapshot_ok (FromSubscribe l) w1 v Hinv Hv)
      as (w' & r & Ht & _ & _ & _ & _ & Htr & _ & _ & _ & _ & _ & _ & _ & Hinv').
    simpl. fold w1. rewrite Ht. simpl. eexists _, _. split; [done|].
    rewrite Htr. simpl. split; [split; [done|]|solve_roots].
    rewrite Htr. simpl. constructor; [simpl; solve_roots|].
    eapply Forall_impl; [done|]. intros k'. apply frame_ok_mono. solve_roots.
  - (* unsubscribe *)
    simpl. eexists _, _. split; [done|]. split; [by split|done].
  - (* connect *)
    destruct (decide (connState v = connected)) as [Hc|Hc].
    + rewrite (step_connect_connected B w p v Hv Hc).
      eexists _, _. split; [done|]. split; [by split|done].
    + destruct (step_connect B w p v Hinv Hv Hc) as (w' & snap & -> & He).
      eexists _, _. split; [done|]. eapply Hem; [done|].
      repeat constructor.
  - (* disconnect *)
    destruct (step_disconnect B w v Hinv Hv) as (w' & snap & -> & He).
    eexists _, _. split; [done|].
    assert (trace (clear_connect_timer w) = trace w) as Htr.
    { unfold clear_connect_timer. destruct (connectTimer w); [|done]. by destruct (0 <? n). }
    pose proof (emitted_roots _ _ _ _ He) as Hrs. rewrite Htr in Hrs.
    rewrite Hrs. split; [split; [by eapply emitted_inv|]|solve_roots].
    rewrite Hrs. constructor; [simpl; solve_roots|].
    eapply Forall_impl; [done|]. intros k'. apply frame_ok_mono. solve_roots.
  - (* joinChannel *)
    destruct (step_join B w c v Hinv Hv) as (w' & snap & -> & He).
    eexists _, _. split; [done|]. eapply Hem; [done|].
    repeat constructor.
  - (* setMute *)
    destruct (step_setMute B w b v Hinv Hv) as (w' & snap & -> & He).
    eexists _, _. split; [done|]. eapply Hem; [done|].
    repeat constructor.
  - (* setDeafen *)
    destruct (step_setDeafen B w b v Hinv Hv) as (w' & snap & -> & He).
    eexists _, _. split; [done|]. eapply Hem; [done|].
    repeat constructor.
  - (* deliver *)
    simpl in Hk. simpl.
    destruct (listeners w !! i) as [[l|]|]; eexists _, _; (split; [done|]);
      (split; [split; [done|]|done]); simpl; repeat constructor; done.
  - (* invoke *)
    simpl in Hk. destruct (Hsnap snap Hk) as [[vs Hvs] _].
    simpl. rewrite Hvs. simpl. destruct (B l snap vs (client w)) as [c' acts].
    eexists _, _. split; [done|]. simpl. split; [split; [done|]|done]. simpl.
    apply Forall_app. split; [|done].
    apply Forall_fmap, Forall_forall. intros a _. by apply frame_ok_action.
  - (* arm *)
    simpl. eexists _, _. split; [done|]. split; [split|].
    + unfold inv, arm_connect_timer. simpl.
      by apply (inv_clear_connect_timer w).
    + simpl. unfold clear_connect_timer. destruct (connectTimer w); [|done].
      by destruct (0 <? n).
    + simpl. unfold clear_connect_timer. destruct (connectTimer w); [|done].
      by destruct (0 <? n).
  - (* mutate *)
    simpl. case_bool_decide as Ht.
    + eexists _, _. split; [done|]. split; [split|done]; [|done].
      unfold inv. simpl. by apply hinv_mutate.
    + eexists _, _. split; [done|]. split; [by split|done].
  - (* advance *)
    simpl. destruct (earliest (timers w)) as [[id due]|].
    + destruct (due <=? until).
      * set (w1 := mkWorld _ _ _ _ _ _ _ _ _).
        destruct (update_prim w1 (Some connected) None None v Hinv Hv)
          as (w' & snap & -> & He).
        simpl. eexists _, _. split; [done|].
        pose proof (emitted_roots _ _ _ _ He) as Hrs. simpl in Hrs.
        rewrite Hrs. split; [split; [by eapply emitted_inv|]|solve_roots].
        rewrite Hrs. simpl. constructor; [simpl; solve_roots|].
        constructor; [done|].
        eapply Forall_impl; [done|]. intros k'. apply frame_ok_mono. solve_roots.
      * eexists _, _. split; [done|]. split; [by split|done].
    + eexists _, _. split; [done|]. split; [by split|done].
Qed.

Lemma run_cinv n w stk :
  cinv w stk →
  ∃ w' stk', run B n w stk = Some (w', stk') ∧ cinv w' stk' ∧
             snapshot_roots (trace w) ⊆ snapshot_roots (trace w').
Proof.
  revert w stk. induction n as [|n IH]; intros w stk Hc; [by eauto|].
  destruct stk as [|k stk]; [by eauto|].
  destruct (step_cinv w k stk Hc) as (w1 & ks & Hs & Hc1 & Hsub).
  destruct (IH w1 (ks ++ stk) Hc1) as (w' & stk' & Hr & Hc' & Hsub').
  simpl. rewrite Hs. simpl. rewrite Hr. eexists _, _. split; [done|].
  split; [done|solve_roots].
Qed.

End Safety.

Section RunLemmas.
Context {C : Type} (B : behaviour C).
Implicit Types w : World C.

Lemma run_nil n w : run B n w [] = Some (w, []).
Proof. by destruct n. Qed.

Lemma reaches_trans w1 s1 w2 s2 w3 s3 :
  reaches B w1 s1 w2 s2 → reaches B w2 s2 w3 s3 → reaches B w1 s1 w3 s3.
Proof. induction 1; [done|]. intros. econstructor; eauto. Qed.

Lemma reaches_frame w stk w' stk' rest :
  reaches B w stk w' stk' → reaches B w (stk ++ rest) w' (stk' ++ rest).
Proof.
  induction 1 as [|w k stk w1 ks w' stk' Hs _ IH]; [constructor|].
  simpl. econstructor; [done|]. by rewrite app_assoc.
Qed.

Lemma reaches_seq w s1 w1 s2 w2 :
  reaches B w s1 w1 [] → reaches B w1 s2 w2 [] → reaches B w (s1 ++ s2) w2 [].
Proof.
  intros H1 H2. eapply reaches_trans; [|done].
  by apply (reaches_frame _ _ _ [] s2).
Qed.

Lemma reaches_one w k stk w1 ks :
  step B w k = Some (w1, ks) → reaches B w (k :: stk) w1 (ks ++ stk).
Proof. intros. econstructor; [done|constructor]. Qed.

Lemma reaches_run w stk w' stk' :
  reaches B w stk w' stk' → ∃ n, run B n w stk = Some (w', stk').
Proof.
  induction 1 as [|w k stk w1 ks w' stk' Hs _ [n IH]]; [by exists 0|].
  exists (S n). simpl. rewrite Hs. done.
Qed.

Lemma run_reaches n w stk w' stk' :
  run B n w stk = Some (w', stk') → reaches B w stk w' stk'.
Proof.
  revert w stk. induction n as [|n IH]; intros w stk; simpl.
  - intros [= <- <-]. constructor.
  - destruct stk as [|k stk]; [intros [= <- <-]; constructor|].
    destruct (step B w k) as [[w1 ks]|] eqn:Hs; [|done]. simpl.
    intros Hr. econstructor; eauto.
Qed.

(** A run that has emptied the stack stays where it is with more fuel. *)
Lemma run_done_mono n m w stk w' :
  run B n w stk = Some (w', []) → n ≤ m → run B m w stk = Some (w', []).
Proof.
  revert m w stk. induction n as [|n IH]; intros m w stk; simpl.
  - intros [= -> ->] _. apply run_nil.
  - destruct stk as [|k stk]; [intros [= <-] _; apply run_nil|].
    destruct (step B w k) as [[w1 ks]|] eqn:Hs; [|done]. simpl.
    intros Hr Hm. destruct m as [|m]; [lia|]. simpl. rewrite Hs. simpl.
    apply IH; [done|lia].
Qed.

Lemma reaches_cinv w stk w' stk' :
  reaches B w stk w' stk' → cinv w stk →
  cinv w' stk' ∧ snapshot_roots (trace w) ⊆ snapshot_roots (trace w').
Proof.
  induction 1 as [|w k stk w1 ks w' stk' Hs _ IH]; [done|].
  intros Hc. destruct (step_cinv B w k stk Hc) as (w1' & ks' & Hs' & Hc1 & Hsub).
  rewrite Hs in Hs'. injection Hs' as <- <-.
  destruct (IH Hc1) as [? ?]. split; [done|]. by etransitivity.
Qed.

(** ** A delivery pass to listeners that only look *)

Lemma live_from_ge i (ls : list (option lid)) : ls !! i = None → live_from i ls = [].
Proof.
  intros H. unfold live_from. apply lookup_ge_None in H.
  by rewrite drop_ge.
Qed.

Lemma live_from_hole i (ls : list (option lid)) :
  ls !! i = Some None → live_from i ls = live_from (S i) ls.
Proof.
  intros H. unfold live_from. by rewrite (drop_S _ _ _ H).
Qed.

Lemma live_from_some i (ls : list (option lid)) l :
  ls !! i = Some (Some l) → live_from i ls = l :: live_from (S i) ls.
Proof.
  intros H. unfold live_from. by rewrite (drop_S _ _ _ H).
Qed.

Lemma deliver_readonly w i snap vs stk :
  readonly B → view (heap_of w) snap = Some vs →
  ∃ w', reaches B w (KDeliver i snap :: stk) w' stk ∧
    heap_of w' = heap_of w ∧ state w' = state w ∧ listeners w' = listeners w ∧
    connectTimer w' = connectTimer w ∧ timers w' = timers w ∧
    next_timer w' = next_timer w ∧ now w' = now w ∧
    trace w' = reverse ((λ l, EvCall l snap vs) <$> live_from i (listeners w)) ++ trace w ∧
    client w' = foldl (λ c l, (B l snap vs c).1) (client w) (live_from i (listeners w)).
Proof.
  intros Hro. remember (length (listeners w) - i) as d eqn:Hd.
  revert w i Hd. induction d as [|d IH]; intros w i Hd Hvs.
  - exists w. assert (listeners w !! i = None) as Hn by (apply lookup_ge_None; lia).
    split; [|by rewrite (live_from_ge _ _ Hn)].
    apply (reaches_one _ _ stk _ []). simpl. by rewrite Hn.
  - destruct (listeners w !! i) as [[l|]|] eqn:Hi.
    + destruct (B l snap vs (client w)) as [c' acts] eqn:HB.
      pose proof (Hro l snap vs (client w)) as Hacts. rewrite HB in Hacts.
      simpl in Hacts. subst acts.
      set (w1 := mkWorld (heap_of w) (state w) (listeners w) (connectTimer w)
                   (timers w) (next_timer w) (now w) c' (EvCall l snap vs :: trace w)).
      destruct (IH w1 (S i)) as (w' & Hr & Hh & Hs & Hl & Hct & Hts & Hnt & Hnow & Htr & Hcl);
        [simpl; lia|done|].
      exists w'. split; [|split_and!; try done].
      * eapply reaches_step; [simpl; by rewrite Hi|]. simpl.
        eapply reaches_step; [simpl; rewrite Hvs; simpl; by rewrite HB|]. simpl. done.
      * rewrite Htr. simpl. rewrite (live_from_some _ _ _ Hi). simpl.
        rewrite reverse_cons, <- app_assoc. done.
      * rewrite Hcl. simpl. rewrite (live_from_some _ _ _ Hi). simpl. by rewrite HB.
    + destruct (IH w (S i)) as (w' & Hr & Hrest); [lia|done|].
      exists w'. split; [|by rewrite (live_from_hole _ _ Hi)].
      eapply reaches_step; [simpl; by rewrite Hi|]. done.
    + exists w. split; [|by rewrite (live_from_ge _ _ Hi)].
      apply (reaches_one _ _ stk _ []). simpl. by rewrite Hi.
Qed.

End RunLemmas.

Lemma snapshot_roots_app tr1 tr2 :
  snapshot_roots (tr1 ++ tr2) = snapshot_roots tr1 ++ snapshot_roots tr2.
Proof. unfold snapshot_roots. apply omap_app. Qed.

Lemma snapshot_roots_calls (ls : list lid) snap v :
  snapshot_roots (reverse ((λ l, EvCall l snap v) <$> ls)) = [].
Proof.
  induction ls as [|l ls IH]; [done|].
  by rewrite fmap_cons, reverse_cons, snapshot_roots_app, IH.
Qed.

Section Completion.
Context {C : Type} (B : behaviour C).
Implicit Types w : World C.

Lemma inv_same w w' :
  heap_of w' = heap_of w → state w' = state w →
  snapshot_roots (trace w') = snapshot_roots (trace w) → inv w → inv w'.
Proof. unfold inv. by intros -> -> ->. Qed.

Lemma contents_getState w v : contents w = Some v → getState w = Some v.
Proof.
  unfold contents, getState. intros Hv. rewrite (snapshot_eq _ _ _ Hv). simpl.
  pose proof (view_block (heap_of w) v []) as Hb. by rewrite app_nil_r in Hb.
Qed.

Lemma getState_contents w : inv w → getState w = contents w.
Proof. intros [[v Hv] _]. unfold contents. rewrite Hv. by apply contents_getState. Qed.

(** After an [update], the delivery pass runs to completion. *)
Lemma emit_readonly w0 w1 v' snap stk :
  readonly B → emitted w0 w1 v' snap →
  ∃ w', reaches B w1 (KDeliver 0 snap :: stk) w' stk ∧ settled B w0 w' v' snap.
Proof.
  intros Hro (Hv & Hsnap & Htr & Hpre & Hl & Hct & Hts & Hnt & Hnow & Hcl & Hinv).
  destruct (deliver_readonly B w1 0 snap v' stk Hro Hsnap)
    as (w' & Hr & Hh & Hs & Hl' & Hct' & Hts' & Hnt' & Hnow' & Htr' & Hcl').
  exists w'. split; [done|]. unfold settled, contents.
  rewrite Hh, Hs, Hl', Hct', Hts', Hnt', Hnow', Htr', Hcl', Htr, Hl, Hcl.
  split_and!; try done.
  eapply (inv_same w1); [done..| |done].
  by rewrite Htr', snapshot_roots_app, snapshot_roots_calls.
Qed.

Lemma run_join w c v :
  readonly B → inv w → contents w = Some v →
  ∃ w' snap, reaches B w [KOp (JoinChannel c)] w' [] ∧ settled B w w' (join_v c v) snap.
Proof.
  intros Hro Hinv Hv.
  destruct (step_join B w c v Hinv Hv) as (w1 & snap & Hs & He).
  destruct (emit_readonly w w1 _ snap [] Hro He) as (w' & Hr & Hset).
  exists w', snap. split; [|done]. eapply reaches_step; [done|]. done.
Qed.

Lemma run_setMute w b v :
  readonly B → inv w → contents w = Some v →
  ∃ w' snap, reaches B w [KOp (SetMute b)] w' [] ∧
             settled B w w' (updateMe_v (Some b) None v) snap.
Proof.
  intros Hro Hinv Hv.
  destruct (step_setMute B w b v Hinv Hv) as (w1 & snap & Hs & He).
  destruct (emit_readonly w w1 _ snap [] Hro He) as (w' & Hr & Hset).
  exists w', snap. split; [|done]. eapply reaches_step; [done|]. done.
Qed.

Lemma run_setDeafen w b v :
  readonly B → inv w → contents w = Some v →
  ∃ w' snap, reaches B w [KOp (SetDeafen b)] w' [] ∧
             settled B w w' (updateMe_v None (Some b) v) snap.
Proof.
  intros Hro Hinv Hv.
  destruct (step_setDeafen B w b v Hinv Hv) as (w1 & snap & Hs & He).
  destruct (emit_readonly w w1 _ snap [] Hro He) as (w' & Hr & Hset).
  exists w', snap. split; [|done]. eapply reaches_step; [done|]. done.
Qed.

Lemma run_disconnect w v :
  readonly B → inv w → contents w = Some v →
  ∃ w' snap, reaches B w [KOp Disconnect] w' [] ∧
             settled B (clear_connect_timer w) w' (with_conn disconnected v) snap.
Proof.
  intros Hro Hinv Hv.
  destruct (step_disconnect B w v Hinv Hv) as (w1 & snap & Hs & He).
  destruct (emit_readonly _ w1 _ snap [] Hro He) as (w' & Hr & Hset).
  exists w', snap. split; [|done]. eapply reaches_step; [done|]. done.
Qed.

Lemma run_connect w p v :
  readonly B → inv w → contents w = Some v → connState v ≠ connected →
  ∃ w1 snap, reaches B w [KOp (Connect p)] (arm_connect_timer (clear_connect_timer w1)) [] ∧
             settled B w w1 (connecting_v (server p) v) snap.
Proof.
  intros Hro Hinv Hv Hc.
  destruct (step_connect B w p v Hinv Hv Hc) as (w0 & snap & Hs & He).
  destruct (emit_readonly w w0 _ snap [KArm] Hro He) as (w1 & Hr & Hset).
  exists w1, snap. split; [|done]. eapply reaches_step; [done|]. simpl.
  eapply reaches_trans; [done|]. by apply (reaches_one _ _ _ [] _ []).
Qed.

End Completion.

Section Timers.
Context {C : Type} (B : behaviour C).
Implicit Types w : World C.

Lemma reaches_completes w stk w' : reaches B w stk w' [] → completes B w stk w'.
Proof. apply reaches_run. Qed.

Lemma completes_reaches w stk w' : completes B w stk w' → reaches B w stk w' [].
Proof. intros [n Hn]. by eapply run_reaches. Qed.

Lemma inv_create (c : C) : inv (createMockTransport c).
Proof.
  split_and!.
  - by exists initialState.
  - intros r Hr. by apply elem_of_nil in Hr.
  - intros r1 r2 Hr. by apply elem_of_nil in Hr.
Qed.

Lemma contents_create (c : C) : contents (createMockTransport c) = Some initialState.
Proof. reflexivity. Qed.

Lemma timers_ok_create (c : C) : timers_ok (createMockTransport c).
Proof. split; [simpl; lia|]. intros t Ht. by apply elem_of_nil in Ht. Qed.

Lemma clearTimeout_all id (ts : list (nat * nat)) :
  (∀ t, t ∈ ts → t.1 = id) → clearTimeout id ts = [].
Proof.
  intros H. unfold clearTimeout. induction ts as [|t ts IH]; [done|].
  rewrite filter_cons. rewrite decide_False.
  - apply IH. intros t' Ht'. apply H. by right.
  - intros Hne. apply Hne, H. by left.
Qed.

Lemma timers_clear w :
  timers_ok w → timers (clear_connect_timer w) = [].
Proof.
  intros [Hn Hts]. unfold clear_connect_timer.
  destruct (timers w) as [|t ts] eqn:Et.
  { destruct (connectTimer w) as [id|]; [destruct (0 <? id)|]; simpl; by rewrite ?Et. }
  destruct (Hts t) as [Hct Hpos]; [by left|]. rewrite Hct.
  destruct (0 <? t.1) eqn:E; [|apply Nat.ltb_ge in E; lia]. simpl. rewrite ?Et.
  apply clearTimeout_all. intros t' Ht'. destruct (Hts t' Ht') as [Hct' _].
  rewrite Hct in Hct'. by injection Hct'.
Qed.

Lemma clear_connect_timer_fields w :
  heap_of (clear_connect_timer w) = heap_of w ∧
  state (clear_connect_timer w) = state w ∧
  listeners (clear_connect_timer w) = listeners w ∧
  connectTimer (clear_connect_timer w) = connectTimer w ∧
  next_timer (clear_connect_timer w) = next_timer w ∧
  now (clear_connect_timer w) = now w ∧
  client (clear_connect_timer w) = client w ∧
  trace (clear_connect_timer w) = trace w.
Proof.
  unfold clear_connect_timer. destruct (connectTimer w) as [id|] eqn:E; [|done].
  by destruct (0 <? id).
Qed.

(** Time passing with nothing due only moves the clock. *)
Lemma step_advance_idle w t :
  (∀ x, x ∈ timers w → t < x.2) →
  step B w (KAdvance t) =
    Some (mkWorld (heap_of w) (state w) (listeners w) (connectTimer w) (timers w)
                  (next_timer w) (now w `max` t) (client w) (trace w), []).
Proof.
  intros Hts. simpl. destruct (earliest (timers w)) as [[id due]|] eqn:E; [|done].
  assert ((id, due) ∈ timers w) as Hin.
  { clear Hts. revert id due E. induction (timers w) as [|x ts IH]; [done|].
    intros id due. simpl. destruct (earliest ts) as [x'|].
    - destruct (x'.2 <? x.2); intros [= ->]; [right; by eapply IH|by left].
    - intros [= ->]. by left. }
  apply Hts in Hin. simpl in Hin.
  destruct (due <=? t) eqn:E'; [apply Nat.leb_le in E'; lia|done].
Qed.

(** The one pending timer fires: [update({ connState: "connected" })], one
    delivery pass, and the clock moves on. *)
Lemma run_advance_fire w id due t v :
  readonly B → inv w → contents w = Some v → timers w = [(id, due)] → due ≤ t →
  ∃ w' snap, reaches B w [KAdvance t] w' [] ∧
    contents w' = Some (with_conn connected v) ∧
    view (heap_of w') snap = Some (with_conn connected v) ∧
    trace w' = reverse ((λ l, EvCall l snap (with_conn connected v))
                          <$> live_from 0 (listeners w))
               ++ EvSnapshot FromUpdate snap (with_conn connected v) :: trace w ∧
    heap_of w `prefix_of` heap_of w' ∧
    listeners w' = listeners w ∧ connectTimer w' = connectTimer w ∧
    timers w' = [] ∧ next_timer w' = next_timer w ∧
    now w' = (now w `max` due) `max` t ∧ inv w'.
Proof.
  intros Hro Hinv Hv Hts Hdue.
  set (w1 := mkWorld (heap_of w) (state w) (listeners w) (connectTimer w) []
               (next_timer w) (now w `max` due) (client w) (trace w)).
  destruct (update_prim w1 (Some connected) None None v Hinv Hv)
    as (w2 & snap & Hup & He).
  destruct (emit_readonly B w1 w2 _ snap [KAdvance t] Hro He) as (w3 & Hr & Hset).
  destruct Hset as (Hc3 & Hs3 & Htr3 & Hpre3 & Hl3 & Hct3 & Hts3 & Hnt3 & Hnow3 & Hcl3 & Hinv3).
  simpl in *.
  eexists _, snap. split.
  - eapply reaches_step.
    { simpl. rewrite Hts. simpl.
      rewrite (clearTimeout_all id [(id, due)])
        by (by intros x ->%list_elem_of_singleton).
      destruct (due <=? t) eqn:E; [|apply Nat.leb_gt in E; lia].
      fold w1. rewrite Hup. simpl. done. }
    simpl. eapply reaches_trans; [done|].
    apply (reaches_one _ _ _ [] _ []). apply step_advance_idle.
    intros x Hx. rewrite Hts3 in Hx. by apply elem_of_nil in Hx.
  - simpl. unfold contents in *. simpl. rewrite Hnow3. split_and!; try done.
Qed.

End Timers.

Section Connect.
Context {C : Type} (B : behaviour C).
Implicit Types w : World C.

(** [connect] from a state that is not connected, run to completion: the
    state is "connecting", and exactly one timer is pending. *)
Lemma connect_pending w p v :
  readonly B → inv w → timers_ok w → contents w = Some v → connState v ≠ connected →
  ∃ w1 snap, reaches B w [KOp (Connect p)] w1 [] ∧
    inv w1 ∧ timers_ok w1 ∧
    contents w1 = Some (connecting_v (server p) v) ∧
    timers w1 = [(next_timer w, now w + latency)] ∧
    connectTimer w1 = Some (next_timer w) ∧
    next_timer w1 = S (next_timer w) ∧ now w1 = now w ∧
    listeners w1 = listeners w ∧
    trace w1 = reverse ((λ l, EvCall l snap (connecting_v (server p) v))
                          <$> live_from 0 (listeners w))
               ++ EvSnapshot FromUpdate snap (connecting_v (server p) v) :: trace w.
Proof.
  intros Hro Hinv Hok Hv Hc.
  destruct (run_connect B w p v Hro Hinv Hv Hc) as (w1 & snap & Hr & Hset).
  destruct Hset as (Hc1 & Hs1 & Htr1 & Hpre1 & Hl1 & Hct1 & Hts1 & Hnt1 & Hnow1 & Hcl1 & Hinv1).
  assert (timers_ok w1) as Hok1.
  { destruct Hok as [Hn Hts]. split; [by rewrite Hnt1|]. rewrite Hts1, Hct1. done. }
  pose proof (timers_clear w1 Hok1) as Hclr.
  destruct (clear_connect_timer_fields w1) as (Hh & Hs & Hl & Hct & Hnt & Hnow & Hcl & Htr).
  exists (arm_connect_timer (clear_connect_timer w1)), snap.
  split; [done|]. unfold arm_connect_timer, contents, timers_ok, inv in *. simpl.
  rewrite Hclr, Hh, Hs, Hl, Hnt, Hnow, Htr, Hnt1, Hnow1. simpl.
  destruct Hok as [Hn _].
  split_and!; try done; try lia.
  intros t ->%list_elem_of_singleton. simpl. split; [done|lia].
Qed.

(** Time passing while nothing is due. *)
Lemma advance_idle w t :
  (∀ x, x ∈ timers w → t < x.2) →
  ∃ w', reaches B w [KAdvance t] w' [] ∧
    heap_of w' = heap_of w ∧ state w' = state w ∧ listeners w' = listeners w ∧
    connectTimer w' = connectTimer w ∧ timers w' = timers w ∧
    next_timer w' = next_timer w ∧ now w' = now w `max` t ∧
    client w' = client w ∧ trace w' = trace w.
Proof.
  intros Hts. eexists. split.
  - apply (reaches_one _ _ _ [] _ []). by apply step_advance_idle.
  - done.
Qed.

Lemma getState_same w w' :
  heap_of w' = heap_of w → state w' = state w → getState w' = getState w.
Proof. unfold getState. by intros -> ->. Qed.

Lemma contents_same w w' :
  heap_of w' = heap_of w → state w' = state w → contents w' = contents w.
Proof. unfold contents. by intros -> ->. Qed.

Lemma timers_ok_same w w' :
  timers w' = timers w → connectTimer w' = connectTimer w →
  next_timer w' = next_timer w → timers_ok w → timers_ok w'.
Proof. unfold timers_ok. by intros -> -> ->. Qed.

(** [disconnect] run to completion: "disconnected", and no timer left. *)
Lemma disconnect_settled w v :
  readonly B → inv w → timers_ok w → contents w = Some v →
  ∃ w2 snap, reaches B w [KOp Disconnect] w2 [] ∧
    inv w2 ∧ timers_ok w2 ∧
    contents w2 = Some (with_conn disconnected v) ∧ timers w2 = [] ∧
    now w2 = now w ∧ next_timer w2 = next_timer w ∧ listeners w2 = listeners w ∧
    trace w2 = reverse ((λ l, EvCall l snap (with_conn disconnected v))
                          <$> live_from 0 (listeners w))
               ++ EvSnapshot FromUpdate snap (with_conn disconnected v) :: trace w.
Proof.
  intros Hro Hinv Hok Hv.
  destruct (run_disconnect B w v Hro Hinv Hv) as (w2 & snap & Hr & Hset).
  destruct Hset as (Hc2 & Hs2 & Htr2 & Hpre2 & Hl2 & Hct2 & Hts2 & Hnt2 & Hnow2 & Hcl2 & Hinv2).
  pose proof (timers_clear w Hok) as Hclr.
  destruct (clear_connect_timer_fields w) as (Hh & Hs & Hl & Hct & Hnt & Hnow & Hcl & Htr).
  exists w2, snap. rewrite Hts2, Hclr, Hnow2, Hnow, Hnt2, Hnt, Hl2, Htr2, Hl, Htr.
  split_and!; try done.
  destruct Hok as [Hn _]. split; [by rewrite Hnt2, Hnt|].
  rewrite Hts2, Hclr. intros t Ht. by apply elem_of_nil in Ht.
Qed.

End Connect.

Lemma readonly_onlookers {C} : readonly (@onlookers C).
Proof. by intros l s v c. Qed.

Lemma run_S {C} (B : behaviour C) n (w : World C) k stk :
  run B (S n) w (k :: stk) = step B w k ≫= λ '(w', ks), run B n w' (ks ++ stk).
Proof. reflexivity. Qed.

(** C3. When the state is "connected", [connect(params)] returns at once:
    the whole world (state object, heap, listener set, timers, history) is
    what it was, so no snapshot is built and no listener is called. *)
Theorem connect_when_connected {C} (B : behaviour C) (w : World C) p v :
  contents w = Some v → connState v = connected →
  step B w (KOp (Connect p)) = Some (w, []) ∧
  (∀ n, run B (S n) w [KOp (Connect p)] = Some (w, [])) ∧
  completes B w [KOp (Connect p)] w.
Proof.
  intros Hv Hc. pose proof (step_connect_connected B w p v Hv Hc) as Hs.
  split; [done|]. split.
  - intros n. rewrite run_S, Hs. simpl. apply run_nil.
  - exists 1. by rewrite run_S, Hs.
Qed.


Lemma upd_self_id f u : (∀ x, u_id (f x) = u_id x) → u_id (upd_self f u) = u_id u.
Proof. intros Hf. unfold upd_self. by destruct (decide _). Qed.

Lemma join_v_self c v u :
  u ∈ users (join_v c v) → u_id u = 1%Z → u_channelId u = c.
Proof.
  simpl. intros (u0 & -> & _)%list_elem_of_fmap. unfold upd_self.
  destruct (decide (u_id u0 = 1%Z)); [done|]. intros. done.
Qed.

Lemma join_v_ids c v : u_id <$> users (join_v c v) = u_id <$> users v.
Proof.
  simpl. rewrite <- list_fmap_compose. apply list_fmap_ext.
  intros i u _. simpl. by apply upd_self_id.
Qed.

(** C4. [joinChannel(c)] runs to completion for every [c], whether or not a
    channel with that id exists; it builds exactly one snapshot, in which
    [currentChannelId] is [c] and every user entry with id 1 has
    [channelId = c]; each listener in the set is called once, with that
    snapshot; [getState()] afterwards returns the same contents, and the ids
    of the user entries are what they were. *)
Theorem joinChannel_atomic {C} (B : behaviour C) (w : World C) (c : Z) v :
  readonly B → inv w → contents w = Some v →
  ∃ w' snap v',
    completes B w [KOp (JoinChannel c)] w' ∧
    trace w' = reverse ((λ l, EvCall l snap v') <$> live_from 0 (listeners w))
               ++ EvSnapshot FromUpdate snap v' :: trace w ∧
    currentChannelId v' = Some c ∧
    (∀ u, u ∈ users v' → u_id u = 1%Z → u_channelId u = c) ∧
    u_id <$> users v' = u_id <$> users v ∧
    getState w' = Some v'.
Proof.
  intros Hro Hinv Hv.
  destruct (run_join B w c v Hro Hinv Hv) as (w' & snap & Hr & Hset).
  destruct Hset as (Hc' & _ & Htr & _).
  exists w', snap, (join_v c v). split_and!.
  - by apply reaches_completes.
  - done.
  - done.
  - apply join_v_self.
  - apply join_v_ids.
  - by apply contents_getState.
Qed.

(** X21. Supersession with listeners that only look.  When no listener
    calls a method from its callback, and a connect attempt is pending (the
    state is "connecting" and its timer has not fired): [disconnect()]
    leaves the state "disconnected" and no timer pending, so that however
    much time passes afterwards nothing is emitted and the state stays
    "disconnected"; and a second [connect] replaces the pending timer by one
    of its own, so that nothing is emitted at the first attempt's due time,
    and at the second attempt's due time the state becomes "connected" to
    the second attempt's server.  (A callback that itself calls
    [disconnect()] during [connect]'s delivery is outside this statement.) *)
Theorem pending_connect_superseded {C} (B : behaviour C) (w : World C) p v :
  readonly B → inv w → timers_ok w → contents w = Some v →
  connState v ≠ connected →
  ∃ w1,
    completes B w [KOp (Connect p)] w1 ∧
    (∃ v1, getState w1 = Some v1 ∧ connState v1 = connecting) ∧
    timers w1 = [(next_timer w, now w + latency)] ∧
    (∀ d, d < latency →
       ∃ w2 v2,
         completes B w1 [KAdvance (now w + d); KOp Disconnect] w2 ∧
         getState w2 = Some v2 ∧ connState v2 = disconnected ∧
         timers w2 = [] ∧
         ∀ t, ∃ w3, completes B w2 [KAdvance t] w3 ∧
                    trace w3 = trace w2 ∧ getState w3 = Some v2) ∧
    (∀ d p', d < latency →
       ∃ w2 v2,
         completes B w1 [KAdvance (now w + d); KOp (Connect p')] w2 ∧
         getState w2 = Some v2 ∧ connState v2 = connecting ∧
         timers w2 = [(S (next_timer w), now w + d + latency)] ∧
         (∀ t, t < now w + d + latency →
            ∃ w3, completes B w2 [KAdvance t] w3 ∧
                  trace w3 = trace w2 ∧ getState w3 = Some v2) ∧
         (∀ t, now w + d + latency ≤ t →
            ∃ w3 v3 snap,
              completes B w2 [KAdvance t] w3 ∧
              trace w3 = reverse ((λ l, EvCall l snap v3) <$> live_from 0 (listeners w2))
                         ++ EvSnapshot FromUpdate snap v3 :: trace w2 ∧
              getState w3 = Some v3 ∧ connState v3 = connected ∧
              currentServer v3 = Some (server p'))).
Proof.
  intros Hro Hinv Hok Hv Hc.
  destruct (connect_pending B w p v Hro Hinv Hok Hv Hc)
    as (w1 & snap & Hr & Hinv1 & Hok1 & Hc1 & Hts1 & Hct1 & Hnt1 & Hnow1 & Hl1 & Htr1).
  exists w1. split_and!.
  - by apply reaches_completes.
  - eexists. split; [by apply contents_getState|done].
  - done.
  - (* disconnect while pending *)
    intros d Hd.
    destruct (advance_idle B w1 (now w + d))
      as (wa & Hra & Hha & Hsa & Hla & Hcta & Htsa & Hnta & Hnowa & Hcla & Htra).
    { rewrite Hts1. intros x ->%list_elem_of_singleton. simpl. lia. }
    assert (inv wa) as Hinva by (eapply (inv_same w1); [done..|by rewrite Htra|done]).
    assert (timers_ok wa) as Hoka by by eapply (timers_ok_same w1).
    assert (contents wa = Some (connecting_v (server p) v)) as Hca
      by by rewrite (contents_same _ _ Hha Hsa).
    destruct (disconnect_settled B wa _ Hro Hinva Hoka Hca)
      as (w2 & snap2 & Hr2 & Hinv2 & Hok2 & Hc2 & Hts2 & _).
    exists w2, (with_conn disconnected (connecting_v (server p) v)).
    split_and!; try done.
    + apply reaches_completes. by eapply (reaches_seq B w1 [KAdvance _] wa [KOp Disconnect]).
    + by apply contents_getState.
    + intros t. destruct (advance_idle B w2 t)
        as (w3 & Hr3 & Hh3 & Hs3 & _ & _ & _ & _ & _ & _ & Htr3).
      { rewrite Hts2. intros x Hx. by apply elem_of_nil in Hx. }
      exists w3. split_and!; [by apply reaches_completes|done|].
      rewrite (getState_same _ _ Hh3 Hs3). by apply contents_getState.
  - (* a second connect while connecting *)
    intros d p' Hd.
    destruct (advance_idle B w1 (now w + d))
      as (wa & Hra & Hha & Hsa & Hla & Hcta & Htsa & Hnta & Hnowa & Hcla & Htra).
    { rewrite Hts1. intros x ->%list_elem_of_singleton. simpl. lia. }
    assert (inv wa) as Hinva by (eapply (inv_same w1); [done..|by rewrite Htra|done]).
    assert (timers_ok wa) as Hoka by by eapply (timers_ok_same w1).
    assert (contents wa = Some (connecting_v (server p) v)) as Hca
      by by rewrite (contents_same _ _ Hha Hsa).
    destruct (connect_pending B wa p' _ Hro Hinva Hoka Hca)
      as (w2 & snap2 & Hr2 & Hinv2 & Hok2 & Hc2 & Hts2 & Hct2 & Hnt2 & Hnow2 & Hl2 & Htr2);
      [done|].
    assert (now wa = now w + d) as Hnow by (rewrite Hnowa, Hnow1; lia).
    rewrite Hnta, Hnt1, Hnow in Hts2.
    exists w2, (connecting_v (server p') (connecting_v (server p) v)).
    split_and!; try done.
    + apply reaches_completes. by eapply (reaches_seq B w1 [KAdvance _] wa [KOp (Connect p')]).
    + by apply contents_getState.
    + intros t Ht. destruct (advance_idle B w2 t)
        as (w3 & Hr3 & Hh3 & Hs3 & _ & _ & _ & _ & _ & _ & Htr3).
      { rewrite Hts2. intros x ->%list_elem_of_singleton. simpl. lia. }
      exists w3. split_and!; [by apply reaches_completes|done|].
      rewrite (getState_same _ _ Hh3 Hs3). by apply contents_getState.
    + intros t Ht.
      destruct (run_advance_fire B w2 _ _ t _ Hro Hinv2 Hc2 Hts2 Ht)
        as (w3 & snap3 & Hr3 & Hc3 & _ & Htr3 & _).
      exists w3, (with_conn connected (connecting_v (server p') (connecting_v (server p) v))), snap3.
      split_and!; try done.
      * by apply reaches_completes.
      * by apply contents_getState.
Qed.

Section Effects.
Context {C : Type} (B : behaviour C).
Implicit Types w : World C.

Lemma emitted_effect k w0 w w' ch v snap :
  heap_of w0 = heap_of w → state w0 = state w → trace w0 = trace w →
  contents w = Some v → emitted w0 w' (apply_change ch v) snap → effect k w w'.
Proof.
  intros Hh Hs Ht Hv (Hv' & Hsnap & Htr & Hpre & _).
  eapply (eff_update k w w' ch snap v); try done.
  - by rewrite Htr, Ht.
  - by rewrite <- Hh.
Qed.

Lemma step_effect w k stk w' ks :
  cinv w (k :: stk) → step B w k = Some (w', ks) → effect k w w'.
Proof.
  intros [Hinv Hstk] Hstep. apply Forall_cons in Hstk as [Hk Hstk].
  pose proof Hinv as ([v Hv] & Hsnap & _).
  destruct k as [[|l|l|p| |c|b|b]|i snap|l snap| |t m|until].
  - destruct (take_snapshot_ok FromGetState w v Hinv Hv)
      as (w1 & r & Ht & Hh & _ & Hvr & Hvs & Htr & Hst & _).
    simpl in Hstep. rewrite Ht in Hstep. simpl in Hstep. injection Hstep as <- <-.
    eapply (eff_snapshot _ w w1 FromGetState r v); try done.
    rewrite Hh. by eexists.
  - set (w0 := mkWorld (heap_of w) (state w) (set_add l (listeners w)) (connectTimer w)
                 (timers w) (next_timer w) (now w) (client w) (trace w)).
    destruct (take_snapshot_ok (FromSubscribe l) w0 v Hinv Hv)
      as (w1 & r & Ht & Hh & _ & Hvr & Hvs & Htr & Hst & _).
    simpl in Hstep. fold w0 in Hstep. rewrite Ht in Hstep. simpl in Hstep.
    injection Hstep as <- <-.
    eapply (eff_snapshot _ w w1 (FromSubscribe l) r v); try done.
    rewrite Hh. by eexists.
  - simpl in Hstep. injection Hstep as <- <-. by apply eff_none.
  - destruct (decide (connState v = connected)) as [Hc|Hc].
    + rewrite (step_connect_connected B w p v Hv Hc) in Hstep.
      injection Hstep as <- <-. by apply eff_none.
    + destruct (step_connect B w p v Hinv Hv Hc) as (w1 & snap & Hs1 & He).
      rewrite Hs1 in Hstep. injection Hstep as <- <-.
      by eapply (emitted_effect _ w w w1 (ChConnecting (server p))).
  - destruct (step_disconnect B w v Hinv Hv) as (w1 & snap & Hs1 & He).
    rewrite Hs1 in Hstep. injection Hstep as <- <-.
    destruct (clear_connect_timer_fields w) as (Hh & Hs & _ & _ & _ & _ & _ & Htr).
    by eapply (emitted_effect _ (clear_connect_timer w) w w1 (ChConn disconnected)).
  - destruct (step_join B w c v Hinv Hv) as (w1 & snap & Hs1 & He).
    rewrite Hs1 in Hstep. injection Hstep as <- <-.
    by eapply (emitted_effect _ w w w1 (ChJoin c)).
  - destruct (step_setMute B w b v Hinv Hv) as (w1 & snap & Hs1 & He).
    rewrite Hs1 in Hstep. injection Hstep as <- <-.
    by eapply (emitted_effect _ w w w1 (ChMe (Some b) None)).
  - destruct (step_setDeafen B w b v Hinv Hv) as (w1 & snap & Hs1 & He).
    rewrite Hs1 in Hstep. injection Hstep as <- <-.
    by eapply (emitted_effect _ w w w1 (ChMe None (Some b))).
  - simpl in Hstep. destruct (listeners w !! i) as [[l|]|];
      injection Hstep as <- <-; by apply eff_none.
  - simpl in Hk. destruct (Hsnap snap Hk) as [[vs Hvs] _].
    simpl in Hstep. rewrite Hvs in Hstep. simpl in Hstep.
    destruct (B l snap vs (client w)) as [c' acts].
    injection Hstep as <- <-. by eapply (eff_call _ w _ l snap vs).
  - simpl in Hstep. injection Hstep as <- <-.
    destruct (clear_connect_timer_fields w) as (Hh & Hs & _ & _ & _ & _ & _ & Htr).
    by apply eff_none.
  - simpl in Hstep. case_bool_decide as Ht; injection Hstep as <- <-.
    + by eapply (eff_mutate _ w _ t m).
    + by apply eff_none.
  - simpl in Hstep. destruct (earliest (timers w)) as [[id due]|].
    + destruct (due <=? until).
      * set (w0 := mkWorld _ _ _ _ _ _ _ _ _) in Hstep.
        destruct (update_prim w0 (Some connected) None None v Hinv Hv)
          as (w1 & snap & Hs1 & He).
        rewrite Hs1 in Hstep. simpl in Hstep. injection Hstep as <- <-.
        by eapply (emitted_effect _ w0 w w1 (ChConn connected)).
      * injection Hstep as <- <-. by apply eff_none.
    + injection Hstep as <- <-. by apply eff_none.
Qed.

(** An invariant of configurations that every step from a good
    configuration preserves holds along every run. *)
Lemma run_invariant (I : World C → list frame → Prop) n w stk w' stk' :
  (∀ w k stk w' ks,
     cinv w (k :: stk) → I w (k :: stk) → step B w k = Some (w', ks) →
     I w' (ks ++ stk)) →
  cinv w stk → I w stk → run B n w stk = Some (w', stk') → I w' stk'.
Proof.
  intros HI. revert w stk. induction n as [|n IH]; intros w stk Hc Hi; simpl.
  - by intros [= <- <-].
  - destruct stk as [|k stk]; [by intros [= <- <-]|].
    destruct (step B w k) as [[w1 ks]|] eqn:Hs; [|done]. simpl.
    destruct (step_cinv B w k stk Hc) as (w1' & ks' & Hs' & Hc1 & _).
    rewrite Hs in Hs'. injection Hs' as <- <-.
    apply IH; [done|]. by eapply HI.
Qed.

Lemma cinv_create (c : C) script :
  Forall client_frame script → cinv (createMockTransport c) script.
Proof.
  intros Hs. split; [apply inv_create|].
  eapply Forall_impl; [done|]. by intros [].
Qed.

End Effects.

Section ContentsInv.
Context {C : Type} (B : behaviour C).
Implicit Types w : World C.

(** A property of the contents of the state that every change preserves is
    preserved by every step, whatever the listeners do. *)
Lemma step_contents_inv (P : TransportState → Prop) w k stk w' ks :
  (∀ ch v, P v → P (apply_change ch v)) →
  cinv w (k :: stk) → (∃ v, contents w = Some v ∧ P v) →
  step B w k = Some (w', ks) → ∃ v', contents w' = Some v' ∧ P v'.
Proof.
  intros HP Hc (v & Hv & Hp) Hs.
  destruct (step_effect B w k stk w' ks Hc Hs)
    as [Hh Hst Ht|src r v0 Hv0 Hv' Hr Ht Hpre|ch snap v0 Hv0 Hv' Hr Ht Hpre
       |l snap vs _ Hvs Hh Hst Ht|t m _ Hin Hh Hst Ht].
  - exists v. by rewrite (contents_same _ _ Hh Hst).
  - rewrite Hv in Hv0. injection Hv0 as <-. by exists v.
  - rewrite Hv in Hv0. injection Hv0 as <-. exists (apply_change ch v). auto.
  - exists v. by rewrite (contents_same _ _ Hh Hst).
  - exists v. split; [|done]. unfold contents. rewrite Hh, Hst.
    destruct Hc as [Hinv _]. by eapply hinv_mutate_state.
Qed.

End ContentsInv.

(** C10. Right after [createMockTransport()], [getState()] returns
    "disconnected", no current server, [me = {muted: false, deafened: false}],
    the three seeded channels (ids 1, 2, 3) and the three seeded users with
    the self user (id 1) in channel 1, and [currentChannelId] is already
    present and equal to 1; no listener is registered and no timer pending.
    Along every run of a client script, whatever the listeners do,
    [currentChannelId] stays present. *)
Theorem initial_state {C} (c : C) :
  getState (createMockTransport c) = Some initialState ∧
  connState initialState = disconnected ∧
  currentServer initialState = None ∧
  currentChannelId initialState = Some 1%Z ∧
  me initialState = mkMe false false ∧
  ch_id <$> channels initialState = [1; 2; 3]%Z ∧
  channels initialState = defaultChannels ∧
  users initialState = defaultUsers ∧
  u_id <$> users initialState = [1; 2; 3]%Z ∧
  (∀ u, u ∈ users initialState → u_id u = 1%Z → u_channelId u = 1%Z) ∧
  listeners (createMockTransport c) = [] ∧
  timers (createMockTransport c) = [] ∧
  (∀ (B : behaviour C) script n w stk,
     Forall client_frame script →
     run B n (createMockTransport c) script = Some (w, stk) →
     ∃ v ch, getState w = Some v ∧ currentChannelId v = Some ch).
Proof.
  split_and!; try reflexivity.
  - intros u Hu Hid. unfold initialState, defaultUsers in Hu. simpl in Hu.
    rewrite !elem_of_cons in Hu.
    destruct Hu as [->|[->|[->|Hu]]]; try done. by apply elem_of_nil in Hu.
  - intros B script n w stk Hscript Hrun.
    pose proof (cinv_create c script Hscript) as Hc0.
    assert (∃ v, contents w = Some v ∧ is_Some (currentChannelId v))
      as (v & Hv & [ch Hch]).
    { eapply (run_invariant B
                (λ w _, ∃ v, contents w = Some v ∧ is_Some (currentChannelId v)));
        [|done| |done].
      - intros w0 k stk0 w' ks Hc Hi Hs.
        eapply (step_contents_inv B (λ v, is_Some (currentChannelId v))); [|done..].
        intros [srv|cs|ch|pm pd] v0; simpl; eauto.
      - exists initialState. split; [done|]. by eexists. }
    exists v, ch. split; [by apply contents_getState|done].
Qed.

Lemma initial_state_witness :
  Forall client_frame sessionScript ∧
  run onlookers 20 (createMockTransport tt) sessionScript = Some (sessionWorld, []) ∧
  ∃ v ch, getState sessionWorld = Some v ∧ currentChannelId v = Some ch.
Proof.
  assert (Forall client_frame sessionScript) as Hs by repeat constructor.
  assert (run onlookers 20 (createMockTransport tt) sessionScript
          = Some (sessionWorld, [])) as Hr by (vm_compute; reflexivity).
  split; [assumption|]. split; [assumption|].
  destruct (initial_state tt) as (_ & _ & _ & _ & _ & _ & _ & _ & _ & _ & _ & _ & H).
  exact (H onlookers sessionScript 20 sessionWorld [] Hs Hr).
Defined.

Lemma mirror_initial : mirror initialState.
Proof.
  intros u Hu Hid. unfold initialState, defaultUsers in Hu. simpl in Hu.
  rewrite !elem_of_cons in Hu.
  destruct Hu as [->|[->|[->|Hu]]]; try done. by apply elem_of_nil in Hu.
Qed.

Lemma mirror_change ch v : mirror v → mirror (apply_change ch v).
Proof.
  intros Hm. destruct ch as [srv|cs|c|pm pd]; simpl; try done.
  - intros u (u0 & -> & Hu0)%list_elem_of_fmap. unfold upd_self.
    destruct (decide (u_id u0 = 1%Z)) as [Hid|Hid]; simpl; intros Hid'; [|done].
    by apply Hm.
  - intros u (u0 & -> & Hu0)%list_elem_of_fmap. unfold upd_self.
    destruct (decide (u_id u0 = 1%Z)) as [Hid|Hid]; simpl; intros Hid'; done.
Qed.

Lemma elem_of_snapshot_roots r tr :
  r ∈ snapshot_roots tr ↔ ∃ src v, EvSnapshot src r v ∈ tr.
Proof.
  unfold snapshot_roots. rewrite list_elem_of_omap. split.
  - intros ([src r' v|] & Hin & Heq); [|done]. injection Heq as ->. eauto.
  - intros (src & v & Hin). by exists (EvSnapshot src r v).
Qed.

Lemma update_frames {C} p (w w' : World C) ks :
  update p w = Some (w', ks) → ∃ snap, ks = [KDeliver 0 snap].
Proof.
  unfold update. destruct (heap_of w !! state w); [|done]. simpl.
  destruct (take_snapshot _ _) as [[w2 snap]|]; [|done]. simpl.
  intros [= <- <-]. eauto.
Qed.

Section Mirror.
Context {C : Type} (B : behaviour C).
Implicit Types w : World C.

Lemma step_frames_nomut w k w' ks :
  nomut B → ¬ is_mutate k → step B w k = Some (w', ks) →
  Forall (λ k', ¬ is_mutate k') ks.
Proof.
  intros Hnm Hk.
  destruct k as [[|l|l|p| |c|b|b]|i snap|l snap| |t m|until]; simpl.
  - destruct (take_snapshot _ _) as [[w2 snap]|]; [|done]. intros [= <- <-]. done.
  - destruct (take_snapshot _ _) as [[w2 snap]|]; [|done]. intros [= <- <-].
    repeat constructor. by intros [].
  - intros [= <- <-]. done.
  - destruct (heap_of w !! state w) as [[cs ? ? ? ? ?| | | |]|]; try done.
    destruct (decide (cs = connected)); [intros [= <- <-]; done|].
    destruct (update _ _) as [[w2 ks2]|] eqn:Hu; [|done].
    apply update_frames in Hu as [snap ->]. intros [= <- <-].
    repeat constructor; by intros [].
  - intros Hu. apply update_frames in Hu as [snap ->]. repeat constructor; by intros [].
  - destruct (heap_of w !! state w) as [[cs ? ? ? ? ?| | | |]|]; try done.
    destruct (get_arr _ _); [|done]. simpl.
    destruct (map_self _ _ _) as [[? ?]|]; [|done]. simpl.
    intros Hu. apply update_frames in Hu as [snap ->]. repeat constructor; by intros [].
  - unfold updateMe.
    destruct (heap_of w !! state w) as [[cs ? ? ? ? ?| | | |]|]; try done.
    destruct (get_me _ _); [|done]. simpl.
    destruct (get_arr _ _); [|done]. simpl.
    destruct (map_self _ _ _) as [[? ?]|]; [|done]. simpl.
    intros Hu. apply update_frames in Hu as [snap ->]. repeat constructor; by intros [].
  - unfold updateMe.
    destruct (heap_of w !! state w) as [[cs ? ? ? ? ?| | | |]|]; try done.
    destruct (get_me _ _); [|done]. simpl.
    destruct (get_arr _ _); [|done]. simpl.
    destruct (map_self _ _ _) as [[? ?]|]; [|done]. simpl.
    intros Hu. apply update_frames in Hu as [snap ->]. repeat constructor; by intros [].
  - destruct (listeners w !! i) as [[l|]|]; intros [= <- <-];
      repeat constructor; by intros [].
  - destruct (view _ _) as [vs|]; [|done]. simpl.
    destruct (B l snap vs (client w)) as [c' acts] eqn:HB. intros [= <- <-].
    apply Forall_fmap, Forall_forall. intros a Ha. simpl.
    destruct (Hnm l snap vs (client w) a) as [o ->]; [by rewrite HB|]. by intros [].
  - intros [= <- <-]. done.
  - by destruct Hk.
  - destruct (earliest (timers w)) as [[id due]|].
    + destruct (due <=? until).
      * destruct (update _ _) as [[w2 ks2]|] eqn:Hu; [|done].
        apply update_frames in Hu as [snap ->]. intros [= <- <-].
        repeat constructor; by intros [].
      * intros [= <- <-]. done.
    + intros [= <- <-]. done.
Qed.


Lemma step_mirror_inv w k stk w' ks :
  cinv w (k :: stk) → mirror_inv w → step B w k = Some (w', ks) → mirror_inv w'.
Proof.
  intros Hc [(v & Hv & Hm) Htr] Hs.
  destruct (step_effect B w k stk w' ks Hc Hs)
    as [Hh Hst Ht|src r v0 Hv0 Hv' Hr Ht Hpre|ch snap v0 Hv0 Hv' Hr Ht Hpre
       |l snap vs _ Hvs Hh Hst Ht|t m _ Hin Hh Hst Ht].
  - split; [exists v; split; [|done]|by rewrite Ht].
    by rewrite (contents_same _ _ Hh Hst).
  - rewrite Hv in Hv0. injection Hv0 as <-.
    split; [by exists v|]. rewrite Ht. intros src' r' v'.
    rewrite elem_of_cons. intros [[= -> -> ->]|?]; eauto.
  - rewrite Hv in Hv0. injection Hv0 as <-.
    split; [exists (apply_change ch v); split; [done|by apply mirror_change]|].
    rewrite Ht. intros src' r' v'.
    rewrite elem_of_cons. intros [[= -> -> ->]|?]; eauto using mirror_change.
  - split; [exists v; split; [|done]|].
    + by rewrite (contents_same _ _ Hh Hst).
    + rewrite Ht. intros src' r' v'. rewrite elem_of_cons. intros [[=]|?]; eauto.
  - split; [exists v; split; [|done]|by rewrite Ht].
    unfold contents. rewrite Hh, Hst. destruct Hc as [Hinv _].
    by eapply hinv_mutate_state.
Qed.


Lemma step_pristine_inv w k stk w' ks :
  nomut B → cinv w (k :: stk) → pristine_inv w (k :: stk) →
  step B w k = Some (w', ks) → pristine_inv w' (ks ++ stk).
Proof.
  intros Hnm Hc (Hstk & Hsn & Hcl) Hs.
  apply Forall_cons in Hstk as [Hk Hstk].
  split; [apply Forall_app; split; [by eapply step_frames_nomut|done]|].
  destruct (step_effect B w k stk w' ks Hc Hs)
    as [Hh Hst Ht|src r v0 Hv0 Hv' Hr Ht [ext Hpre]|ch snap v0 Hv0 Hv' Hr Ht [ext Hpre]
       |l snap vs Hkeq Hvs Hh Hst Ht|t m Hkeq Hin Hh Hst Ht].
  - rewrite Ht, Hh. by split.
  - rewrite Ht, Hpre. split.
    + intros src' r' v'. rewrite elem_of_cons. intros [[= -> -> ->]|Hin].
      * by rewrite <- Hpre.
      * by apply view_ext, (Hsn src').
    + intros l r' v' [[=]|Hin]%elem_of_cons.
      destruct (Hcl l r' v' Hin) as [src' ?]. exists src'. by right.
  - rewrite Ht, Hpre. split.
    + intros src' r' v'. rewrite elem_of_cons. intros [[= -> -> ->]|Hin].
      * by rewrite <- Hpre.
      * by apply view_ext, (Hsn src').
    + intros l r' v' [[=]|Hin]%elem_of_cons.
      destruct (Hcl l r' v' Hin) as [src' ?]. exists src'. by right.
  - rewrite Ht, Hh. split.
    + intros src' r' v' [[=]|Hin]%elem_of_cons. by apply (Hsn src').
    + intros l' r' v' [[= -> -> ->]|Hin]%elem_of_cons.
      * destruct Hc as [_ Hfr]. apply Forall_cons in Hfr as [Hfr _].
        subst k. simpl in Hfr.
        apply elem_of_snapshot_roots in Hfr as (src' & v0 & Hin).
        pose proof (Hsn _ _ _ Hin) as Hv0. rewrite Hvs in Hv0. injection Hv0 as ->.
        exists src'. by right.
      * destruct (Hcl l' r' v' Hin) as [src' ?]. exists src'. by right.
  - subst k. by destruct Hk.
Qed.

End Mirror.

Lemma client_frame_ok rs k : client_frame k → frame_ok rs k.
Proof. by destruct k. Qed.

(** C5, as amended. Along every run of a client script on a fresh transport,
    whatever the listeners do: in every snapshot the transport builds (for
    [getState], for the immediate call of [subscribe], and for every
    emission) each user entry with id 1 has its [muted] and [deafened] flags,
    read with an absent flag as [false], equal to [me.muted] and
    [me.deafened]; the state [getState()] would return satisfies the same;
    and when nobody writes to snapshots, every listener invocation sees such
    a snapshot. *)
Theorem self_user_mirror {C} (B : behaviour C) (c : C) script n w stk :
  Forall client_frame script →
  run B n (createMockTransport c) script = Some (w, stk) →
  (∀ src r v, EvSnapshot src r v ∈ trace w → mirror v) ∧
  (∃ v, getState w = Some v ∧ mirror v) ∧
  (nomut B → Forall (λ k, ¬ is_mutate k) script →
   ∀ l r v, EvCall l r v ∈ trace w → mirror v).
Proof.
  intros Hscript Hrun.
  pose proof (cinv_create c script Hscript) as Hc0.
  assert (mirror_inv w) as [(v & Hv & Hm) Hsn].
  { eapply (run_invariant B (λ w _, mirror_inv w)); [|done| |done].
    - intros. by eapply step_mirror_inv.
    - split; [exists initialState; split; [done|apply mirror_initial]|].
      intros src r v Hin. by apply elem_of_nil in Hin. }
  split_and!; [done| |].
  - exists v. split; [by apply contents_getState|done].
  - intros Hnm Hpure l r v' Hin.
    assert (pristine_inv w stk) as (_ & _ & Hcl).
    { eapply (run_invariant B pristine_inv); [|done| |done].
      - intros. by eapply step_pristine_inv.
      - split_and!; [done| |].
        + intros src r0 v0 Hin0. by apply elem_of_nil in Hin0.
        + intros l0 r0 v0 Hin0. by apply elem_of_nil in Hin0. }
    destruct (Hcl l r v' Hin) as [src Hin']. by eapply Hsn.
Qed.

(** C5 as stated fails: the snapshot a listener is called with when it
    subscribes to a fresh transport has a self user without a [muted] flag,
    while [me.muted] is [false]. *)
Lemma absent_flags_at_subscription :
  ∃ w r v,
    run (@onlookers unit) 2 (createMockTransport tt) [KOp (Subscribe 0)] = Some (w, []) ∧
    trace w = [EvCall 0 r v; EvSnapshot (FromSubscribe 0) r v] ∧
    ¬ strict_mirror v.
Proof.
  eexists _, _, _. split; [vm_compute; reflexivity|]. split; [reflexivity|].
  intros H. destruct (H (mkUser 1 "You" 1 None None None)) as [Hm _].
  - apply list_elem_of_here.
  - reflexivity.
  - discriminate Hm.
Qed.

Section Copy.
Context {C : Type} (B : behaviour C).
Implicit Types w : World C.

Lemma reachable_cinv (c : C) script n w stk :
  Forall client_frame script →
  run B n (createMockTransport c) script = Some (w, stk) → cinv w stk.
Proof.
  intros Hs Hr. apply run_reaches in Hr.
  by eapply reaches_cinv; [|apply cinv_create].
Qed.

(** [getState()] on a well-formed world. *)
Lemma step_getState w v :
  inv w → contents w = Some v →
  ∃ w' r, step B w (KOp GetState) = Some (w', []) ∧
    trace w' = EvSnapshot FromGetState r v :: trace w ∧
    view (heap_of w') r = Some v ∧
    (∀ l, l ∈ reach (heap_of w') r → length (heap_of w) ≤ l) ∧
    heap_of w `prefix_of` heap_of w' ∧
    state w' = state w ∧ listeners w' = listeners w ∧
    connectTimer w' = connectTimer w ∧ timers w' = timers w ∧
    next_timer w' = next_timer w ∧ now w' = now w ∧ client w' = client w ∧
    contents w' = Some v.
Proof.
  intros Hinv Hv.
  destruct (take_snapshot_ok FromGetState w v Hinv Hv)
    as (w' & r & Ht & Hh & Hr & Hvr & Hvs & Htr & Hst & Hl & Hct & Hts & Hnt & Hnow & Hcl & Hinv').
  exists w', r. simpl. rewrite Ht. simpl. split_and!; try done.
  - rewrite Hh, Hr. intros l Hl'.
    pose proof (reach_block (heap_of w) v [] l) as Hb. rewrite app_nil_r in Hb.
    apply Hb in Hl'. lia.
  - rewrite Hh. by eexists.
Qed.

End Copy.

(** C8, as amended. Along every run of a client script on a fresh transport,
    whatever the listeners do: every snapshot built so far reaches no cell
    that the transport's state object reaches, and two different snapshots
    reach no common cell; so a write through one snapshot changes neither
    what [getState()] returns nor the contents of any other snapshot.
    Listeners are called with the snapshots the transport built, not with
    copies of their own.  [getState()] builds its snapshot from cells that
    did not exist before, leaves every existing cell as it was, and changes
    nothing else in the transport. *)
Theorem defensive_copy {C} (B : behaviour C) (c : C) script n w stk :
  Forall client_frame script →
  run B n (createMockTransport c) script = Some (w, stk) →
  (∀ r, r ∈ snapshot_roots (trace w) →
        reach (heap_of w) r ## reach (heap_of w) (state w)) ∧
  (∀ r1 r2, r1 ∈ snapshot_roots (trace w) → r2 ∈ snapshot_roots (trace w) →
            r1 ≠ r2 → reach (heap_of w) r1 ## reach (heap_of w) r2) ∧
  (∀ t m, t ∈ snapshot_roots (trace w) →
     step B w (KMutate t m) = Some (with_heap w (apply_mutation (heap_of w) t m), []) ∧
     getState (with_heap w (apply_mutation (heap_of w) t m)) = getState w ∧
     ∀ r, r ∈ snapshot_roots (trace w) → r ≠ t →
          view (apply_mutation (heap_of w) t m) r = view (heap_of w) r) ∧
  (∀ l r v, EvCall l r v ∈ trace w → r ∈ snapshot_roots (trace w)) ∧
  (∃ w' r v,
     step B w (KOp GetState) = Some (w', []) ∧ getState w = Some v ∧
     trace w' = EvSnapshot FromGetState r v :: trace w ∧
     view (heap_of w') r = Some v ∧
     (∀ l, l ∈ reach (heap_of w') r → length (heap_of w) ≤ l) ∧
     heap_of w `prefix_of` heap_of w' ∧
     state w' = state w ∧ listeners w' = listeners w ∧
     connectTimer w' = connectTimer w ∧ timers w' = timers w ∧
     next_timer w' = next_timer w ∧ now w' = now w ∧ client w' = client w ∧
     getState w' = Some v).
Proof.
  intros Hscript Hrun.
  destruct (reachable_cinv B c script n w stk Hscript Hrun) as [Hinv _].
  pose proof Hinv as ([v Hv] & Hsnap & Hdis).
  split_and!.
  - intros r Hr. by apply Hsnap.
  - done.
  - intros t m Ht. split_and!.
    + simpl. by rewrite bool_decide_eq_true_2.
    + assert (inv (with_heap w (apply_mutation (heap_of w) t m))) as Hinv'
        by by apply hinv_mutate.
      rewrite (getState_contents _ Hinv'), (getState_contents _ Hinv).
      unfold contents. simpl. rewrite Hv.
      by eapply hinv_mutate_state.
    + intros r Hr Hne. destruct (Hsnap r Hr) as [[vr Hvr] _]. rewrite Hvr.
      by eapply hinv_mutate_other.
  - eapply (run_invariant B (λ w _, ∀ l r v, EvCall l r v ∈ trace w →
                                       r ∈ snapshot_roots (trace w)));
      [|by apply cinv_create| |done].
    + intros w0 k stk0 w' ks Hc Hi Hs.
      destruct (step_cinv B w0 k stk0 Hc) as (w1 & ks1 & Hs1 & _ & Hsub).
      rewrite Hs in Hs1. injection Hs1 as <- <-.
      destruct (step_effect B w0 k stk0 w' ks Hc Hs)
        as [Hh Hst Ht|src r0 v0 Hv0 Hv' Hr Ht Hpre|ch snap v0 Hv0 Hv' Hr Ht Hpre
           |l0 snap vs Hk Hvs Hh Hst Ht|t m Hk Hin Hh Hst Ht];
        intros l r v'; rewrite Ht.
      * apply Hi.
      * intros [[=]|Hin]%elem_of_cons. simpl. right. by eapply Hi.
      * intros [[=]|Hin]%elem_of_cons. simpl. right. by eapply Hi.
      * intros [[= -> -> ->]|Hin]%elem_of_cons; simpl; [|by eapply Hi].
        destruct Hc as [_ Hfr]. apply Forall_cons in Hfr as [Hfr _].
        subst k. exact Hfr.
      * apply Hi.
    + intros l r v' Hin. by apply elem_of_nil in Hin.
  - destruct (step_getState B w v Hinv Hv)
      as (w' & r & Hs & Htr & Hvr & Hfresh & Hpre & Hst & Hl & Hct & Hts & Hnt & Hnow & Hcl & Hc').
    exists w', r, v. split_and!; try done; by apply contents_getState.
Qed.

(** C8 as stated fails: one delivery pass hands the same snapshot object to
    every listener.  With listeners 0, 1 and 2 subscribed in that order and
    listener 1 writing to what it is given, [setMute(true)] calls listener 0
    with a snapshot [v]; listener 1 then flips [me.muted] in it; listener 2
    is called with contents [v'] that the transport never had, and the
    snapshot listener 0 retained now reads [v'] as well, while [getState()]
    returns [v]. *)
Lemma shared_snapshot_within_a_pass :
  ∃ w r v v',
    run meddler 30 (createMockTransport tt)
        [KOp (Subscribe 0); KOp (Subscribe 1); KOp (Subscribe 2); KOp (SetMute true)]
      = Some (w, []) ∧
    EvSnapshot FromUpdate r v ∈ trace w ∧
    EvCall 0 r v ∈ trace w ∧ EvCall 2 r v' ∈ trace w ∧
    muted (me v) = true ∧ muted (me v') = false ∧
    view (heap_of w) r = Some v' ∧ getState w = Some v.
Proof.
  eexists _, _, _, _. split; [vm_compute; reflexivity|].
  split_and!.
  - do 3 apply list_elem_of_further. apply list_elem_of_here.
  - do 2 apply list_elem_of_further. apply list_elem_of_here.
  - apply list_elem_of_here.
  - reflexivity.
  - reflexivity.
  - vm_compute. reflexivity.
  - vm_compute. reflexivity.
Qed.

Section Shape.
Context {C : Type} (B : behaviour C).
Implicit Types w : World C.

Lemma take_snapshot_shape src w w' r :
  take_snapshot src w = Some (w', r) →
  listeners w' = listeners w ∧ ∃ v, trace w' = EvSnapshot src r v :: trace w.
Proof.
  unfold take_snapshot. destruct (snapshot _ _) as [[h' r']|]; [|done]. simpl.
  destruct (view h' r') as [v|]; [|done]. simpl. intros [= <- <-]. eauto.
Qed.

Lemma update_shape p w w' ks :
  update p w = Some (w', ks) →
  listeners w' = listeners w ∧
  ∃ snap v, ks = [KDeliver 0 snap] ∧ trace w' = EvSnapshot FromUpdate snap v :: trace w.
Proof.
  unfold update. destruct (heap_of w !! state w); [|done]. simpl.
  destruct (take_snapshot _ _) as [[w2 snap]|] eqn:Ht; [|done]. simpl.
  intros [= <- <-]. apply take_snapshot_shape in Ht as [Hl [v Htr]]. eauto.
Qed.

Lemma updateMe_shape pm pd w w' ks :
  updateMe pm pd w = Some (w', ks) →
  listeners w' = listeners w ∧
  ∃ snap v, ks = [KDeliver 0 snap] ∧ trace w' = EvSnapshot FromUpdate snap v :: trace w.
Proof.
  unfold updateMe.
  destruct (heap_of w !! state w) as [[cs ? ? ? ? ?| | | |]|]; try done.
  destruct (get_me _ _); [|done]. simpl.
  destruct (get_arr _ _); [|done]. simpl.
  destruct (map_self _ _ _) as [[? ?]|]; [|done]. simpl.
  intros Hu. by apply update_shape in Hu.
Qed.


Lemma step_shape w k w' ks : step B w k = Some (w', ks) → frame_shape B w k w' ks.
Proof.
  destruct k as [[|l|l|p| |c|b|b]|i snap|l snap| |t m|until]; simpl.
  - destruct (take_snapshot _ _) as [[w2 snap]|] eqn:Ht; [|done]. intros [= <- <-].
    apply take_snapshot_shape in Ht as [Hl [v Htr]]. eauto.
  - destruct (take_snapshot _ _) as [[w2 snap]|] eqn:Ht; [|done]. intros [= <- <-].
    apply take_snapshot_shape in Ht as [Hl [v Htr]]. eauto.
  - by intros [= <- <-].
  - destruct (heap_of w !! state w) as [[cs ? ? ? ? ?| | | |]|]; try done.
    destruct (decide (cs = connected)); [intros [= <- <-]; eauto|].
    destruct (update _ _) as [[w2 ks2]|] eqn:Hu; [|done].
    apply update_shape in Hu as (Hl & snap & v & -> & Htr). intros [= <- <-].
    split; [done|]. right. eauto.
  - intros Hu. apply update_shape in Hu as (Hl & snap & v & -> & Htr).
    destruct (clear_connect_timer_fields w) as (_ & _ & Hl' & _ & _ & _ & _ & Htr').
    rewrite Hl, Hl', Htr, Htr'. eauto.
  - destruct (heap_of w !! state w) as [[cs ? ? ? ? ?| | | |]|]; try done.
    destruct (get_arr _ _); [|done]. simpl.
    destruct (map_self _ _ _) as [[? ?]|]; [|done]. simpl.
    intros Hu. by apply update_shape in Hu.
  - apply updateMe_shape.
  - apply updateMe_shape.
  - destruct (listeners w !! i) as [[l|]|]; by intros [= <- <-].
  - destruct (view _ _) as [vs|]; [|done]. simpl.
    destruct (B l snap vs (client w)) as [c' acts] eqn:HB. intros [= <- <-].
    simpl. split; [done|]. exists vs. by rewrite HB.
  - intros [= <- <-]. simpl.
    destruct (clear_connect_timer_fields w) as (_ & _ & Hl' & _ & _ & _ & _ & Htr').
    done.
  - case_bool_decide; by intros [= <- <-].
  - destruct (earliest (timers w)) as [[id due]|].
    + destruct (due <=? until).
      * destruct (update _ _) as [[w2 ks2]|] eqn:Hu; [|done].
        apply update_shape in Hu as (Hl & snap & v & -> & Htr). intros [= <- <-].
        split; [done|]. right. eauto.
      * intros [= <- <-]. split; [done|]. by left.
    + intros [= <- <-]. split; [done|]. by left.
Qed.

End Shape.

(** ** The listener set *)

Lemma not_elem_of_set_add (l l' : lid) ls :
  l' ≠ l → Some l ∉ ls → Some l ∉ set_add l' ls.
Proof.
  intros Hne Hl. unfold set_add. case_bool_decide; [done|].
  rewrite elem_of_app, list_elem_of_singleton. intros [?|[= ->]]; done.
Qed.

Lemma elem_of_set_add (l : lid) ls : Some l ∈ set_add l ls.
Proof.
  unfold set_add. case_bool_decide; [done|].
  rewrite elem_of_app, list_elem_of_singleton. by right.
Qed.

Lemma not_elem_of_set_delete (l : lid) ls : Some l ∉ set_delete l ls.
Proof.
  unfold set_delete. intros (e & He & _)%list_elem_of_fmap.
  case_bool_decide; [done|]. by subst.
Qed.

Lemma not_elem_of_set_delete_other (l l' : lid) ls :
  Some l ∉ ls → Some l ∉ set_delete l' ls.
Proof.
  unfold set_delete. intros Hl (e & He & Hin)%list_elem_of_fmap.
  case_bool_decide; [done|]. by subst.
Qed.

Lemma set_delete_absent (l : lid) ls : Some l ∉ ls → set_delete l ls = ls.
Proof.
  unfold set_delete. induction ls as [|e ls IH]; [done|].
  rewrite not_elem_of_cons. intros [Hne Hl]. rewrite fmap_cons, IH by done.
  by case_bool_decide.
Qed.

Lemma calls_of_snapshot l src r v tr :
  calls_of l (EvSnapshot src r v :: tr) = calls_of l tr.
Proof. done. Qed.

Lemma calls_of_call_ne l l' r v tr :
  l' ≠ l → calls_of l (EvCall l' r v :: tr) = calls_of l tr.
Proof. intros. unfold calls_of. simpl. by rewrite decide_False. Qed.

Lemma calls_of_call l r v tr :
  calls_of l (EvCall l r v :: tr) = calls_of l tr ++ [(r, v)].
Proof.
  unfold calls_of. simpl. rewrite decide_True; [|done]. by rewrite reverse_cons.
Qed.

Section Unsubscribe.
Context {C : Type} (B : behaviour C).
Implicit Types w : World C.


Lemma step_avoided l w k stk w' ks :
  never_subscribes B l → avoided l w (k :: stk) → step B w k = Some (w', ks) →
  avoided l w' (ks ++ stk) ∧ calls_of l (trace w') = calls_of l (trace w).
Proof.
  intros Hns [Hl Hstk] Hs. apply Forall_cons in Hstk as [[Hk1 Hk2] Hstk].
  apply step_shape in Hs.
  assert (∀ i s, frame_avoids l (KDeliver i s)) as Hd by (by split).
  assert (frame_avoids l KArm) as Ha by (by split).
  assert (∀ t, frame_avoids l (KAdvance t)) as Hadv by (by split).
  destruct k as [[|l'|l'|p| |c|b|b]|i snap|l' snap| |t m|until]; simpl in Hs.
  - destruct Hs as (-> & Hl' & r & v & ->). rewrite calls_of_snapshot.
    split; [split; [by rewrite Hl'|done]|done].
  - destruct Hs as (Hl' & r & v & -> & ->). rewrite calls_of_snapshot.
    assert (l' ≠ l) as Hne by (intros ->; done).
    split; [split|done].
    + rewrite Hl'. by apply not_elem_of_set_add.
    + constructor; [|done]. split; [done|]. intros s [= ? ?]. done.
  - destruct Hs as (-> & ->). split; [split; [|done]|done].
    simpl. by apply not_elem_of_set_delete_other.
  - destruct Hs as (Hl' & [(-> & ->)|(r & v & -> & ->)]).
    + by split.
    + rewrite calls_of_snapshot. split; [split; [by rewrite Hl'|]|done].
      simpl. auto.
  - destruct Hs as (Hl' & r & v & -> & ->). rewrite calls_of_snapshot.
    split; [split; [by rewrite Hl'|]|done]. simpl. auto.
  - destruct Hs as (Hl' & r & v & -> & ->). rewrite calls_of_snapshot.
    split; [split; [by rewrite Hl'|]|done]. simpl. auto.
  - destruct Hs as (Hl' & r & v & -> & ->). rewrite calls_of_snapshot.
    split; [split; [by rewrite Hl'|]|done]. simpl. auto.
  - destruct Hs as (Hl' & r & v & -> & ->). rewrite calls_of_snapshot.
    split; [split; [by rewrite Hl'|]|done]. simpl. auto.
  - destruct Hs as (-> & ->). split; [split; [done|]|done].
    destruct (listeners w !! i) as [[l'|]|] eqn:Hi; simpl; auto.
    constructor; [|auto]. split; [done|]. intros s [= -> ->].
    apply Hl. by eapply list_elem_of_lookup_2.
  - destruct Hs as (Hl' & v & -> & ->).
    assert (l' ≠ l) as Hne by (intros ->; by eapply Hk2).
    rewrite calls_of_call_ne by done. split; [split; [by rewrite Hl'|]|done].
    apply Forall_app. split; [|done].
    apply Forall_fmap, Forall_forall. intros a Hin. simpl.
    destruct a as [o|m]; simpl; [|by split].
    split; [|done]. intros [= ->]. by eapply Hns.
  - destruct Hs as (-> & Hl' & ->). split; [split; [by rewrite Hl'|done]|done].
  - destruct Hs as (-> & Hl' & ->). split; [split; [by rewrite Hl'|done]|done].
  - destruct Hs as (Hl' & [(-> & ->)|(r & v & -> & ->)]).
    + split; [split; [by rewrite Hl'|done]|done].
    + rewrite calls_of_snapshot. split; [split; [by rewrite Hl'|]|done].
      simpl. auto.
Qed.

Lemma run_avoided l n w stk w' stk' :
  never_subscribes B l → avoided l w stk → run B n w stk = Some (w', stk') →
  avoided l w' stk' ∧ calls_of l (trace w') = calls_of l (trace w).
Proof.
  intros Hns. revert w stk. induction n as [|n IH]; intros w stk Ha; simpl.
  - by intros [= <- <-].
  - destruct stk as [|k stk]; [by intros [= <- <-]|].
    destruct (step B w k) as [[w1 ks]|] eqn:Hs; [|done]. simpl. intros Hr.
    destruct (step_avoided l w k stk w1 ks Hns Ha Hs) as [Ha1 Hc1].
    destruct (IH w1 (ks ++ stk) Ha1 Hr) as [Ha' Hc']. split; [done|congruence].
Qed.

End Unsubscribe.

(** C6. [subscribe(l)] adds [l] to the set and calls it at once, exactly
    once, with a snapshot whose contents are what [getState()] returns at
    that moment.  Calling the function it returned removes [l] from the set;
    from then on, whatever is still on the stack or is called later (as long
    as nothing subscribes [l] again), [l] is never invoked; and calling that
    function again changes nothing. *)
Theorem subscribe_contract {C} (B : behaviour C) (w : World C) l v :
  inv w → contents w = Some v →
  (∃ w1 snap,
     run B 2 w [KOp (Subscribe l)]
       = Some (w1, frame_of_action snap <$> (B l snap v (client w)).2) ∧
     getState w = Some v ∧
     trace w1 = EvCall l snap v :: EvSnapshot (FromSubscribe l) snap v :: trace w ∧
     calls_of l (trace w1) = calls_of l (trace w) ++ [(snap, v)] ∧
     Some l ∈ listeners w1 ∧
     ((B l snap v (client w)).2 = [] → completes B w [KOp (Subscribe l)] w1)) ∧
  step B w (KOp (Unsubscribe l)) = Some (unsubscribed w l, []) ∧
  (Some l ∉ listeners (unsubscribed w l)) ∧
  step B (unsubscribed w l) (KOp (Unsubscribe l)) = Some (unsubscribed w l, []) ∧
  (never_subscribes B l →
   ∀ stk n w' stk',
     Forall (frame_avoids l) stk →
     run B n (unsubscribed w l) stk = Some (w', stk') →
     calls_of l (trace w') = calls_of l (trace w)).
Proof.
  intros Hinv Hv. split_and!.
  - set (w0 := mkWorld (heap_of w) (state w) (set_add l (listeners w)) (connectTimer w)
                 (timers w) (next_timer w) (now w) (client w) (trace w)).
    destruct (take_snapshot_ok (FromSubscribe l) w0 v Hinv Hv)
      as (w1 & r & Ht & Hh & Hr & Hvr & Hvs & Htr & Hst & Hl & Hct & Hts & Hnt & Hnow & Hcl & Hinv').
    destruct (B l r v (client w)) as [c' acts] eqn:HB.
    exists (mkWorld (heap_of w1) (state w1) (listeners w1) (connectTimer w1)
                    (timers w1) (next_timer w1) (now w1) c'
                    (EvCall l r v :: trace w1)), r.
    assert (run B 2 w [KOp (Subscribe l)] =
            Some (mkWorld (heap_of w1) (state w1) (listeners w1) (connectTimer w1)
                    (timers w1) (next_timer w1) (now w1) c'
                    (EvCall l r v :: trace w1), frame_of_action r <$> acts)) as Hrun.
    { rewrite run_S. simpl. fold w0. rewrite Ht. simpl. rewrite Hvr. simpl.
      rewrite Hcl. simpl. rewrite HB. simpl. by rewrite ?app_nil_r. }
    rewrite HB. split; [exact Hrun|]. simpl. rewrite Htr in Hrun |- *.
    split_and!; try done.
    + by apply contents_getState.
    + by rewrite calls_of_call, calls_of_snapshot.
    + rewrite Hl. apply elem_of_set_add.
    + intros ->. exists 2. exact Hrun.
  - done.
  - apply not_elem_of_set_delete.
  - simpl. unfold unsubscribed. simpl.
    by rewrite (set_delete_absent l (set_delete l (listeners w)))
      by apply not_elem_of_set_delete.
  - intros Hns stk n w' stk' Hstk Hrun.
    eapply (run_avoided B l) in Hrun as [_ Hc]; [done|done|].
    split; [apply not_elem_of_set_delete|done].
Qed.

Section Segments.
Context {C : Type} (B : behaviour C).
Implicit Types w : World C.

(** A delivery pass across a stretch of the entry list whose listeners only
    look. *)
Lemma deliver_segment w (before seg rest : list (option lid)) snap vs stk :
  listeners w = before ++ seg ++ rest →
  (∀ l, Some l ∈ seg → looks_only B l) →
  view (heap_of w) snap = Some vs →
  ∃ w', reaches B w (KDeliver (length before) snap :: stk)
                  w' (KDeliver (length (before ++ seg)) snap :: stk) ∧
    heap_of w' = heap_of w ∧ state w' = state w ∧ listeners w' = listeners w ∧
    connectTimer w' = connectTimer w ∧ timers w' = timers w ∧
    next_timer w' = next_timer w ∧ now w' = now w ∧
    trace w' = reverse ((λ l, EvCall l snap vs) <$> omap id seg) ++ trace w.
Proof.
  revert w before. induction seg as [|e seg IH]; intros w before Hl Hlook Hvs.
  - exists w. rewrite app_nil_r. split; [constructor|done].
  - assert (listeners w !! length before = Some e) as Hi.
    { rewrite Hl. by apply list_lookup_middle. }
    assert (listeners w = (before ++ [e]) ++ seg ++ rest) as Hl'
      by (by rewrite Hl, <- app_assoc).
    assert (length (before ++ [e]) = S (length before)) as Hlen
      by (rewrite length_app; simpl; lia).
    assert (before ++ e :: seg = (before ++ [e]) ++ seg) as Happ
      by (by rewrite <- app_assoc).
    destruct e as [l|].
    + destruct (B l snap vs (client w)) as [c' acts] eqn:HB.
      pose proof (Hlook l ltac:(by left) snap vs (client w)) as Hacts.
      rewrite HB in Hacts. simpl in Hacts. subst acts.
      set (w1 := mkWorld (heap_of w) (state w) (listeners w) (connectTimer w)
                   (timers w) (next_timer w) (now w) c' (EvCall l snap vs :: trace w)).
      destruct (IH w1 (before ++ [Some l]))
        as (w' & Hr & Hh & Hs & Hls & Hct & Hts & Hnt & Hnow & Htr);
        [done|intros l' Hl''; apply Hlook; by right|done|].
      exists w'. split; [|split_and!; try done].
      * eapply reaches_step; [simpl; by rewrite Hi|]. simpl.
        eapply reaches_step; [simpl; rewrite Hvs; simpl; by rewrite HB|]. simpl.
        rewrite Happ. by rewrite Hlen in Hr.
      * rewrite Htr. simpl. by rewrite reverse_cons, <- app_assoc.
    + destruct (IH w (before ++ [None]))
        as (w' & Hr & Hrest); [done|intros l' Hl''; apply Hlook; by right|done|].
      exists w'. split; [|done].
      eapply reaches_step; [simpl; by rewrite Hi|]. simpl.
      rewrite Happ. by rewrite Hlen in Hr.
Qed.

Lemma deliver_end w snap stk :
  reaches B w (KDeliver (length (listeners w)) snap :: stk) w stk.
Proof.
  apply (reaches_one _ _ _ stk _ []). simpl.
  by rewrite (proj2 (lookup_ge_None (listeners w) (length (listeners w)))).
Qed.

End Segments.

Lemma set_delete_app (l : lid) ls1 ls2 :
  set_delete l (ls1 ++ ls2) = set_delete l ls1 ++ set_delete l ls2.
Proof. unfold set_delete. apply fmap_app. Qed.

Lemma set_delete_here (l : lid) ls :
  set_delete l (Some l :: ls) = None :: set_delete l ls.
Proof. unfold set_delete. rewrite fmap_cons. by rewrite bool_decide_eq_true_2. Qed.

Lemma set_delete_other (l l' : lid) ls :
  l' ≠ l → set_delete l (Some l' :: ls) = Some l' :: set_delete l ls.
Proof.
  intros. unfold set_delete. rewrite fmap_cons.
  rewrite bool_decide_eq_false_2; [done|congruence].
Qed.

Lemma set_add_absent (l : lid) ls : Some l ∉ ls → set_add l ls = ls ++ [Some l].
Proof. intros. unfold set_add. by rewrite bool_decide_eq_false_2. Qed.

Lemma calls_app (f : lid → event) (xs ys : list (option lid)) :
  reverse (f <$> omap id (xs ++ ys))
  = reverse (f <$> omap id ys) ++ reverse (f <$> omap id xs).
Proof. by rewrite omap_app, fmap_app, reverse_app. Qed.

Lemma not_elem_of_app3 (x : option lid) xs ys zs :
  (x ∉ xs ++ ys ++ zs) → (x ∉ xs) ∧ (x ∉ ys) ∧ (x ∉ zs).
Proof. rewrite !not_elem_of_app. tauto. Qed.

Section LiveSet.
Context {C : Type} (B : behaviour C).
Implicit Types w : World C.

(** A callback that unsubscribes a listener further down the entry list. *)
Lemma deliver_with_unsubscribe w a b pre mid post snap vs stk :
  listeners w = pre ++ Some a :: mid ++ Some b :: post →
  a ≠ b → (Some b ∉ pre ++ mid ++ post) →
  (∀ l, Some l ∈ pre ++ mid ++ post → looks_only B l) →
  (∀ s v c, (B a s v c).2 = [ACall (Unsubscribe b)]) →
  view (heap_of w) snap = Some vs →
  ∃ w', reaches B w (KDeliver 0 snap :: stk) w' stk ∧
    listeners w' = pre ++ Some a :: mid ++ None :: post ∧
    trace w' = reverse ((λ l, EvCall l snap vs)
                          <$> omap id (pre ++ Some a :: mid ++ post)) ++ trace w.
Proof.
  intros Hl Hne Hb Hlook Ha Hvs.
  apply not_elem_of_app3 in Hb as (Hb1 & Hb2 & Hb3).
  destruct (deliver_segment B w [] pre (Some a :: mid ++ Some b :: post) snap vs stk)
    as (w1 & Hr1 & Hh1 & Hs1 & Hl1 & _ & _ & _ & _ & Htr1);
    [done|intros l Hin; apply Hlook; rewrite elem_of_app; by left|done|].
  simpl in Hr1.
  assert (view (heap_of w1) snap = Some vs) as Hvs1 by by rewrite Hh1.
  destruct (B a snap vs (client w1)) as [c2 acts] eqn:HB.
  pose proof (Ha snap vs (client w1)) as Hacts. rewrite HB in Hacts. simpl in Hacts.
  subst acts.
  set (w2 := mkWorld (heap_of w1) (state w1) (listeners w1) (connectTimer w1)
               (timers w1) (next_timer w1) (now w1) c2 (EvCall a snap vs :: trace w1)).
  assert (listeners (unsubscribed w2 b) = (pre ++ [Some a]) ++ (mid ++ None :: post) ++ [])
    as Hl3.
  { simpl. rewrite Hl1, Hl. rewrite set_delete_app, set_delete_other by done.
    rewrite set_delete_app, set_delete_here.
    rewrite !set_delete_absent by done. by rewrite app_nil_r, <- app_assoc. }
  destruct (deliver_segment B (unsubscribed w2 b) (pre ++ [Some a]) (mid ++ None :: post)
              [] snap vs stk)
    as (w4 & Hr4 & Hh4 & Hs4 & Hl4 & _ & _ & _ & _ & Htr4).
  { done. }
  { intros l Hin. apply Hlook. rewrite !elem_of_app.
    apply elem_of_app in Hin as [?|Hin]; [tauto|].
    apply elem_of_cons in Hin as [?|?]; [done|tauto]. }
  { simpl. by rewrite Hh1. }
  exists w4. split_and!.
  - eapply reaches_trans; [exact Hr1|].
    eapply (reaches_step B w1 _ _ w1 [KInvoke a snap; KDeliver (S (length pre)) snap]).
    { simpl. rewrite Hl1, Hl. by rewrite list_lookup_middle. }
    eapply (reaches_step B w1 _ _ w2 [KOp (Unsubscribe b)]).
    { simpl. rewrite Hvs1. simpl. by rewrite HB. }
    eapply (reaches_step B w2 _ _ (unsubscribed w2 b) []); [done|].
    cbn [app].
    replace (S (length pre)) with (length (pre ++ [Some a])) by solve_len.
    eapply reaches_trans; [exact Hr4|].
    replace (length ((pre ++ [Some a]) ++ mid ++ None :: post))
      with (length (listeners w4)) by (by rewrite Hl4, Hl3, app_nil_r).
    apply deliver_end.
  - rewrite Hl4, Hl3, app_nil_r. by rewrite <- app_assoc.
  - rewrite Htr4. simpl. rewrite Htr1.
    rewrite (calls_app _ pre), (calls_app _ mid (None :: post)). simpl.
    rewrite reverse_cons, (calls_app _ mid post). by rewrite <- !app_assoc.
Qed.

(** A callback that subscribes a listener that is not in the set. *)
Lemma deliver_with_subscribe w a b pre post snap vs v stk :
  listeners w = pre ++ Some a :: post → (Some b ∉ listeners w) →
  inv w → contents w = Some v →
  (∀ l, Some l ∈ pre ++ post → looks_only B l) → looks_only B b →
  (∀ s v c, (B a s v c).2 = [ACall (Subscribe b)]) →
  view (heap_of w) snap = Some vs →
  ∃ w' r, reaches B w (KDeliver 0 snap :: stk) w' stk ∧
    listeners w' = pre ++ Some a :: post ++ [Some b] ∧
    trace w' = EvCall b snap vs ::
               reverse ((λ l, EvCall l snap vs) <$> omap id post) ++
               EvCall b r v :: EvSnapshot (FromSubscribe b) r v ::
               EvCall a snap vs ::
               reverse ((λ l, EvCall l snap vs) <$> omap id pre) ++ trace w.
Proof.
  intros Hl Hb Hinv Hv Hlook Hlb Ha Hvs.
  destruct (deliver_segment B w [] pre (Some a :: post) snap vs stk)
    as (w1 & Hr1 & Hh1 & Hs1 & Hl1 & _ & _ & _ & _ & Htr1);
    [done|intros l Hin; apply Hlook; rewrite elem_of_app; by left|done|].
  simpl in Hr1.
  assert (view (heap_of w1) snap = Some vs) as Hvs1 by by rewrite Hh1.
  destruct (B a snap vs (client w1)) as [c2 acts] eqn:HB.
  pose proof (Ha snap vs (client w1)) as Hacts. rewrite HB in Hacts. simpl in Hacts.
  subst acts.
  set (w2 := mkWorld (heap_of w1) (state w1) (set_add b (listeners w1)) (connectTimer w1)
               (timers w1) (next_timer w1) (now w1) c2 (EvCall a snap vs :: trace w1)).
  assert (inv w2) as Hinv2.
  { eapply (inv_same w); [by rewrite <- Hh1|by rewrite <- Hs1| |done].
    simpl. by rewrite Htr1, snapshot_roots_app, snapshot_roots_calls. }
  assert (contents w2 = Some v) as Hv2.
  { unfold contents. simpl. by rewrite Hh1, Hs1. }
  destruct (take_snapshot_ok (FromSubscribe b) w2 v Hinv2 Hv2)
    as (w3 & r & Ht & Hh3 & _ & Hvr & _ & Htr3 & Hst3 & Hl3 & _ & _ & _ & _ & Hcl3 & _).
  destruct (B b r v (client w3)) as [c4 acts] eqn:HBb.
  pose proof (Hlb r v (client w3)) as Hacts. rewrite HBb in Hacts. simpl in Hacts.
  subst acts.
  set (w4 := mkWorld (heap_of w3) (state w3) (listeners w3) (connectTimer w3)
               (timers w3) (next_timer w3) (now w3) c4 (EvCall b r v :: trace w3)).
  assert (listeners w4 = (pre ++ [Some a]) ++ (post ++ [Some b]) ++ []) as Hl4.
  { simpl. rewrite Hl3. simpl. rewrite Hl1, set_add_absent by done.
    rewrite Hl. by rewrite app_nil_r, <- !app_assoc. }
  destruct (deliver_segment B w4 (pre ++ [Some a]) (post ++ [Some b]) [] snap vs stk)
    as (w5 & Hr5 & Hh5 & Hs5 & Hl5 & _ & _ & _ & _ & Htr5).
  { done. }
  { intros l Hin. apply elem_of_app in Hin as [?|Hin].
    - apply Hlook. rewrite elem_of_app. by right.
    - apply list_elem_of_singleton in Hin as [= ->]. done. }
  { simpl. rewrite Hh3. apply view_ext. simpl. by rewrite Hh1. }
  exists w5, r. split_and!.
  - eapply reaches_trans; [exact Hr1|].
    eapply (reaches_step B w1 _ _ w1 [KInvoke a snap; KDeliver (S (length pre)) snap]).
    { simpl. rewrite Hl1, Hl. by rewrite list_lookup_middle. }
    eapply (reaches_step B w1 _ _
              (mkWorld (heap_of w1) (state w1) (listeners w1) (connectTimer w1)
                 (timers w1) (next_timer w1) (now w1) c2 (EvCall a snap vs :: trace w1))
              [KOp (Subscribe b)]).
    { simpl. rewrite Hvs1. simpl. by rewrite HB. }
    eapply (reaches_step B _ _ _ w3 [KInvoke b r]).
    { simpl. fold w2. by rewrite Ht. }
    eapply (reaches_step B w3 _ _ w4 []).
    { simpl. rewrite Hvr. simpl. by rewrite HBb. }
    cbn [app].
    replace (S (length pre)) with (length (pre ++ [Some a])) by solve_len.
    eapply reaches_trans; [exact Hr5|].
    replace (length ((pre ++ [Some a]) ++ post ++ [Some b]))
      with (length (listeners w5)) by (by rewrite Hl5, Hl4, app_nil_r).
    apply deliver_end.
  - rewrite Hl5, Hl4, app_nil_r. by rewrite <- !app_assoc.
  - rewrite Htr5. simpl. rewrite Htr3. simpl. rewrite Htr1.
    rewrite (calls_app _ post [Some b]). simpl. by rewrite <- ?app_assoc.
Qed.

End LiveSet.

(** C7, as amended. A delivery pass walks the live listener set in insertion
    order.  When no callback changes the set, every listener in it is called
    once, in that order.  A listener that an earlier callback of the same
    pass unsubscribes is not called in that pass, although it was in the set
    when the snapshot was emitted; a listener that a callback subscribes
    during the pass is appended to the set and is called twice: at once with
    the snapshot [subscribe] builds for it, and at the end of the same pass
    with the snapshot being delivered. *)
Theorem delivery_walks_live_set {C} (B : behaviour C) :
  (∀ (w : World C) snap vs stk,
     readonly B → view (heap_of w) snap = Some vs →
     ∃ n w', run B n w (KDeliver 0 snap :: stk) = Some (w', stk) ∧
       listeners w' = listeners w ∧
       trace w' = reverse ((λ l, EvCall l snap vs) <$> omap id (listeners w))
                  ++ trace w) ∧
  (∀ (w : World C) a b pre mid post snap vs stk,
     listeners w = pre ++ Some a :: mid ++ Some b :: post →
     a ≠ b → (Some b ∉ pre ++ mid ++ post) →
     (∀ l, Some l ∈ pre ++ mid ++ post → looks_only B l) →
     (∀ s v c, (B a s v c).2 = [ACall (Unsubscribe b)]) →
     view (heap_of w) snap = Some vs →
     ∃ n w', run B n w (KDeliver 0 snap :: stk) = Some (w', stk) ∧
       listeners w' = pre ++ Some a :: mid ++ None :: post ∧
       trace w' = reverse ((λ l, EvCall l snap vs)
                             <$> omap id (pre ++ Some a :: mid ++ post)) ++ trace w) ∧
  (∀ (w : World C) a b pre post snap vs v stk,
     listeners w = pre ++ Some a :: post → (Some b ∉ listeners w) →
     inv w → contents w = Some v →
     (∀ l, Some l ∈ pre ++ post → looks_only B l) → looks_only B b →
     (∀ s v c, (B a s v c).2 = [ACall (Subscribe b)]) →
     view (heap_of w) snap = Some vs →
     ∃ n w' r, run B n w (KDeliver 0 snap :: stk) = Some (w', stk) ∧
       listeners w' = pre ++ Some a :: post ++ [Some b] ∧
       trace w' = EvCall b snap vs ::
                  reverse ((λ l, EvCall l snap vs) <$> omap id post) ++
                  EvCall b r v :: EvSnapshot (FromSubscribe b) r v ::
                  EvCall a snap vs ::
                  reverse ((λ l, EvCall l snap vs) <$> omap id pre) ++ trace w).
Proof.
  split_and!.
  - intros w snap vs stk Hro Hvs.
    destruct (deliver_readonly B w 0 snap vs stk Hro Hvs)
      as (w' & Hr & _ & _ & Hl & _ & _ & _ & _ & Htr & _).
    apply reaches_run in Hr as [n Hn]. exists n, w'.
    unfold live_from in Htr. by rewrite drop_0 in Htr.
  - intros w a b pre mid post snap vs stk Hl Hne Hb Hlook Ha Hvs.
    destruct (deliver_with_unsubscribe B w a b pre mid post snap vs stk)
      as (w' & Hr & Hl' & Htr); [done..|].
    apply reaches_run in Hr as [n Hn]. by exists n, w'.
  - intros w a b pre post snap vs v stk Hl Hb Hinv Hv Hlook Hlb Ha Hvs.
    destruct (deliver_with_subscribe B w a b pre post snap vs v stk)
      as (w' & r & Hr & Hl' & Htr); [done..|].
    apply reaches_run in Hr as [n Hn]. by exists n, w', r.
Qed.

(** C7 as stated fails.  First run: listeners 0 and 1 are both in the set
    when [setMute(true)] emits, listener 0's callback unsubscribes listener 1,
    and listener 1 is not called with that snapshot.  Second run: only
    listener 2 is in the set when [setMute(true)] emits, its callback
    subscribes listener 3, and listener 3 is called with that snapshot. *)
Lemma listener_set_is_live :
  (∃ w1 w r v,
     run rearranger 10 (createMockTransport tt) [KOp (Subscribe 0); KOp (Subscribe 1)]
       = Some (w1, []) ∧
     listeners w1 = [Some 0; Some 1] ∧
     run rearranger 10 w1 [KOp (SetMute true)] = Some (w, []) ∧
     trace w = EvCall 0 r v :: EvSnapshot FromUpdate r v :: trace w1 ∧
     calls_of 1 (trace w) = calls_of 1 (trace w1)) ∧
  (∃ w1 w r r' v,
     run rearranger 10 (createMockTransport tt) [KOp (Subscribe 2)] = Some (w1, []) ∧
     listeners w1 = [Some 2] ∧
     run rearranger 10 w1 [KOp (SetMute true)] = Some (w, []) ∧
     trace w = EvCall 3 r v :: EvCall 3 r' v :: EvSnapshot (FromSubscribe 3) r' v ::
               EvCall 2 r v :: EvSnapshot FromUpdate r v :: trace w1).
Proof.
  split.
  - eexists _, _, _, _. split; [vm_compute; reflexivity|].
    split; [reflexivity|]. split; [vm_compute; reflexivity|].
    split; reflexivity.
  - eexists _, _, _, _, _. split; [vm_compute; reflexivity|].
    split; [reflexivity|]. split; [vm_compute; reflexivity|].
    reflexivity.
Qed.

(** ** The store *)

Lemma readonly_app_store : readonly app_store.
Proof. intros l s v c. unfold app_store. by destruct (decide _). Qed.

Lemma app_store_set snap v (ls : list lid) c :
  store_listener ∈ ls →
  foldl (λ c l, (app_store l snap v c).1) c ls
  = Some (mkApp (connState v) (currentServer v) (currentChannelId v) snap).
Proof.
  assert (∀ ls, foldl (λ c l, (app_store l snap v c).1)
                  (Some (mkApp (connState v) (currentServer v) (currentChannelId v) snap)) ls
                = Some (mkApp (connState v) (currentServer v) (currentChannelId v) snap))
    as Hfix.
  { clear. intros ls. induction ls as [|l ls IH]; [done|]. simpl.
    unfold app_store at 2. by destruct (decide _). }
  revert c. induction ls as [|l ls IH]; intros c Hin; [by apply elem_of_nil in Hin|].
  simpl. unfold app_store at 2. destruct (decide (l = store_listener)) as [->|Hne]; simpl.
  - apply Hfix.
  - apply IH. apply elem_of_cons in Hin as [?|?]; [congruence|done].
Qed.

Lemma live_from_0_elem (l : lid) ls : Some l ∈ ls → l ∈ live_from 0 ls.
Proof.
  intros Hin. unfold live_from. rewrite drop_0. apply list_elem_of_omap.
  by exists (Some l).
Qed.

(** One toggle: [setMute(b)] reaches the store, whose [me.muted] is then [b]. *)
Lemma store_after_setMute (w : World (option AppState)) b :
  inv w → Some store_listener ∈ listeners w →
  ∃ w' m', completes app_store w [KOp (SetMute b)] w' ∧
    inv w' ∧ Some store_listener ∈ listeners w' ∧
    get_me_of_store w' = Some m' ∧ muted m' = b.
Proof.
  intros Hinv Hl. pose proof Hinv as ([v Hv] & _).
  destruct (run_setMute app_store w b v readonly_app_store Hinv Hv)
    as (w' & snap & Hr & Hset).
  destruct Hset as (Hc' & Hs' & Htr & Hpre & Hl' & Hct & Hts & Hnt & Hnow & Hcl & Hinv').
  exists w', (me (updateMe_v (Some b) None v)).
  split_and!; [by apply reaches_completes|done|by rewrite Hl'| |done].
  unfold get_me_of_store. rewrite Hcl.
  rewrite app_store_set by by apply live_from_0_elem. simpl.
  apply view_Some in Hs' as (ml & cl & ul & -> & Hm & _). done.
Qed.

(** C9. Whatever the store shows, [toggleMute()] run to completion shows the
    negation of the [me.muted] it showed, and a second [toggleMute()] run to
    completion shows the original value again. *)
Theorem toggleMute_twice (w : World (option AppState)) m :
  inv w → Some store_listener ∈ listeners w → get_me_of_store w = Some m →
  ∃ k1 w1 m1 k2 w2 m2,
    toggleMute w = Some k1 ∧ k1 = KOp (SetMute (negb (muted m))) ∧
    completes app_store w [k1] w1 ∧
    get_me_of_store w1 = Some m1 ∧ muted m1 = negb (muted m) ∧
    toggleMute w1 = Some k2 ∧ k2 = KOp (SetMute (negb (muted m1))) ∧
    completes app_store w1 [k2] w2 ∧
    get_me_of_store w2 = Some m2 ∧ muted m2 = muted m.
Proof.
  intros Hinv Hl Hm.
  destruct (store_after_setMute w (negb (muted m)) Hinv Hl)
    as (w1 & m1 & Hc1 & Hinv1 & Hl1 & Hm1 & Hmu1).
  destruct (store_after_setMute w1 (negb (muted m1)) Hinv1 Hl1)
    as (w2 & m2 & Hc2 & Hinv2 & Hl2 & Hm2 & Hmu2).
  exists (KOp (SetMute (negb (muted m)))), w1, m1,
         (KOp (SetMute (negb (muted m1)))), w2, m2.
  unfold toggleMute. rewrite Hm, Hm1. simpl. split_and!; try done.
  rewrite Hmu2, Hmu1. apply negb_involutive.
Qed.

Section TimersInv.
Context {C : Type} (B : behaviour C).
Implicit Types w : World C.

Lemma take_snapshot_host src w w' r :
  take_snapshot src w = Some (w', r) →
  connectTimer w' = connectTimer w ∧ timers w' = timers w ∧
  next_timer w' = next_timer w.
Proof.
  unfold take_snapshot. destruct (snapshot _ _) as [[h' r']|]; [|done]. simpl.
  destruct (view h' r') as [v|]; [|done]. simpl. by intros [= <- <-].
Qed.

Lemma update_host p w w' ks :
  update p w = Some (w', ks) →
  connectTimer w' = connectTimer w ∧ timers w' = timers w ∧
  next_timer w' = next_timer w.
Proof.
  unfold update. destruct (heap_of w !! state w); [|done]. simpl.
  destruct (take_snapshot _ _) as [[w2 snap]|] eqn:Ht; [|done]. simpl.
  intros [= <- <-]. by apply take_snapshot_host in Ht.
Qed.

Lemma updateMe_host pm pd w w' ks :
  updateMe pm pd w = Some (w', ks) →
  connectTimer w' = connectTimer w ∧ timers w' = timers w ∧
  next_timer w' = next_timer w.
Proof.
  unfold updateMe.
  destruct (heap_of w !! state w) as [[cs ? ? ? ? ?| | | |]|]; try done.
  destruct (get_me _ _); [|done]. simpl.
  destruct (get_arr _ _); [|done]. simpl.
  destruct (map_self _ _ _) as [[? ?]|]; [|done]. simpl.
  intros Hu. by apply update_host in Hu.
Qed.

Lemma earliest_elem (ts : list (nat * nat)) t : earliest ts = Some t → t ∈ ts.
Proof.
  revert t. induction ts as [|x ts IH]; [done|].
  intros t. simpl. destruct (earliest ts) as [x'|].
  - destruct (x'.2 <? x.2); intros [= ->]; [right; by apply IH|by left].
  - intros [= ->]. by left.
Qed.

Lemma timers_ok_cleared w : timers_ok w → timers_ok (clear_connect_timer w).
Proof.
  intros Hok. pose proof (timers_clear w Hok) as Hclr.
  destruct (clear_connect_timer_fields w) as (_ & _ & _ & _ & Hnt & _).
  destruct Hok as [Hn _]. split; [by rewrite Hnt|].
  rewrite Hclr. intros t Ht. by apply elem_of_nil in Ht.
Qed.

(** Whatever the listeners do, every pending timer is the one
    [this.connectTimer] names. *)
Lemma step_timers_ok w k w' ks :
  timers_ok w → step B w k = Some (w', ks) → timers_ok w'.
Proof.
  intros Hok.
  destruct k as [[|l|l|p| |c|b|b]|i snap|l snap| |t m|until]; simpl.
  - destruct (take_snapshot _ _) as [[w2 snap]|] eqn:Ht; [|done]. intros [= <- <-].
    apply take_snapshot_host in Ht as (? & ? & ?). by eapply (timers_ok_same w).
  - destruct (take_snapshot _ _) as [[w2 snap]|] eqn:Ht; [|done]. intros [= <- <-].
    apply take_snapshot_host in Ht as (? & ? & ?). by eapply (timers_ok_same w).
  - by intros [= <- <-].
  - destruct (heap_of w !! state w) as [[cs ? ? ? ? ?| | | |]|]; try done.
    destruct (decide (cs = connected)); [by intros [= <- <-]|].
    destruct (update _ _) as [[w2 ks2]|] eqn:Hu; [|done]. intros [= <- <-].
    apply update_host in Hu as (? & ? & ?). by eapply (timers_ok_same w).
  - intros Hu. apply update_host in Hu as (? & ? & ?).
    eapply (timers_ok_same (clear_connect_timer w)); [done..|].
    by apply timers_ok_cleared.
  - destruct (heap_of w !! state w) as [[cs ? ? ? ? ?| | | |]|]; try done.
    destruct (get_arr _ _); [|done]. simpl.
    destruct (map_self _ _ _) as [[? ?]|]; [|done]. simpl.
    intros Hu. apply update_host in Hu as (? & ? & ?). by eapply (timers_ok_same w).
  - intros Hu. apply updateMe_host in Hu as (? & ? & ?). by eapply (timers_ok_same w).
  - intros Hu. apply updateMe_host in Hu as (? & ? & ?). by eapply (timers_ok_same w).
  - destruct (listeners w !! i) as [[l|]|]; by intros [= <- <-].
  - destruct (view _ _) as [vs|]; [|done]. simpl.
    destruct (B l snap vs (client w)) as [c' acts]. by intros [= <- <-].
  - intros [= <- <-]. pose proof (timers_clear w Hok) as Hclr.
    destruct (clear_connect_timer_fields w) as (_ & _ & _ & _ & Hnt & _).
    destruct Hok as [Hn _]. unfold arm_connect_timer. split; simpl.
    + rewrite Hnt. lia.
    + rewrite Hclr, Hnt. intros x ->%list_elem_of_singleton. simpl. split; [done|lia].
  - case_bool_decide; by intros [= <- <-].
  - destruct (earliest (timers w)) as [[id due]|] eqn:He.
    + destruct (due <=? until).
      * destruct (update _ _) as [[w2 ks2]|] eqn:Hu; [|done]. intros [= <- <-].
        apply update_host in Hu as (Hct & Hts & Hnt). simpl in *.
        destruct Hok as [Hn Hok]. split; [by rewrite Hnt|].
        rewrite Hts, Hct. intros x Hx. apply Hok.
        unfold clearTimeout in Hx. by apply list_elem_of_filter in Hx as [_ ?].
      * by intros [= <- <-].
    + by intros [= <- <-].
Qed.

Lemma run_timers_ok n w stk w' stk' :
  timers_ok w → run B n w stk = Some (w', stk') → timers_ok w'.
Proof.
  revert w stk. induction n as [|n IH]; intros w stk Hok; simpl.
  - by intros [= <- <-].
  - destruct stk as [|k stk]; [by intros [= <- <-]|].
    destruct (step B w k) as [[w1 ks]|] eqn:Hs; [|done]. simpl.
    apply IH. by eapply step_timers_ok.
Qed.

(** The worlds a client script can reach satisfy the invariants the
    theorems above assume. *)
Lemma reachable_invariants (c : C) script n w stk :
  Forall client_frame script →
  run B n (createMockTransport c) script = Some (w, stk) →
  inv w ∧ timers_ok w ∧ ∃ v, contents w = Some v.
Proof.
  intros Hs Hr.
  destruct (reachable_cinv B c script n w stk Hs Hr) as [Hinv _].
  split; [done|]. split.
  - eapply run_timers_ok; [|done]. apply timers_ok_create.
  - by destruct Hinv as [[v Hv] _]; exists v.
Qed.

End TimersInv.

(** ** The theorems at concrete inputs *)

Lemma connect_when_connected_witness :
  contents connectedWorld
    = Some (mkState connected (Some "localhost") (Some 1%Z) (mkMe false false)
                    defaultChannels defaultUsers) ∧
  step onlookers connectedWorld (KOp (Connect (mkParams "elsewhere" None)))
    = Some (connectedWorld, []).
Proof.
  split; [reflexivity|].
  apply (connect_when_connected onlookers connectedWorld (mkParams "elsewhere" None)
           (mkState connected (Some "localhost") (Some 1%Z) (mkMe false false)
                    defaultChannels defaultUsers)); reflexivity.
Defined.


Lemma pending_connect_superseded_witness :
  readonly (@onlookers unit) ∧ inv (createMockTransport tt) ∧
  timers_ok (createMockTransport tt) ∧
  contents (createMockTransport tt) = Some initialState ∧
  connState initialState ≠ connected ∧
  ∃ w1,
    completes onlookers (createMockTransport tt) [KOp (Connect (mkParams "s" None))] w1 ∧
    timers w1 = [(1, 400)] ∧
    ∃ w2 v2,
      completes onlookers w1 [KAdvance 100; KOp Disconnect] w2 ∧
      getState w2 = Some v2 ∧ connState v2 = disconnected ∧ timers w2 = [].
Proof.
  split_and!; [apply readonly_onlookers|apply inv_create|apply timers_ok_create
              |reflexivity|discriminate|].
  destruct (pending_connect_superseded onlookers (createMockTransport tt)
              (mkParams "s" None) initialState)
    as (w1 & H1 & _ & H3 & H4 & _);
    [apply readonly_onlookers|apply inv_create|apply timers_ok_create
    |reflexivity|discriminate|].
  exists w1. split_and!; [assumption..|].
  destruct (H4 100) as (w2 & v2 & Ha & Hb & Hc & Hd & _); [unfold latency; lia|].
  exists w2, v2. split_and!; assumption.
Defined.

Lemma joinChannel_atomic_witness :
  readonly (@onlookers unit) ∧ inv (createMockTransport tt) ∧
  contents (createMockTransport tt) = Some initialState ∧
  ∃ w' snap v',
    completes onlookers (createMockTransport tt) [KOp (JoinChannel 99)] w' ∧
    trace w' = [EvSnapshot FromUpdate snap v'] ∧
    currentChannelId v' = Some 99%Z ∧
    (∀ u, u ∈ users v' → u_id u = 1%Z → u_channelId u = 99%Z) ∧
    getState w' = Some v'.
Proof.
  split_and!; [apply readonly_onlookers|apply inv_create|reflexivity|].
  destruct (joinChannel_atomic onlookers (createMockTransport tt) 99 initialState)
    as (w' & snap & v' & H1 & H2 & H3 & H4 & _ & H6);
    [apply readonly_onlookers|apply inv_create|reflexivity|].
  exists w', snap, v'. split_and!; assumption.
Defined.

Lemma self_user_mirror_witness :
  Forall client_frame sessionScript ∧
  run onlookers 20 (createMockTransport tt) sessionScript = Some (sessionWorld, []) ∧
  (∀ src r v, EvSnapshot src r v ∈ trace sessionWorld → mirror v) ∧
  (∃ v, getState sessionWorld = Some v ∧ mirror v).
Proof.
  assert (Forall client_frame sessionScript) as Hs by repeat constructor.
  assert (run onlookers 20 (createMockTransport tt) sessionScript
          = Some (sessionWorld, [])) as Hr by (vm_compute; reflexivity).
  destruct (self_user_mirror onlookers tt sessionScript 20 sessionWorld [] Hs Hr)
    as (H1 & H2 & _).
  split_and!; assumption.
Defined.

Lemma defensive_copy_witness :
  Forall client_frame meddledScript ∧
  run meddler 20 (createMockTransport tt) meddledScript = Some (meddledWorld, []) ∧
  (∀ r, r ∈ snapshot_roots (trace meddledWorld) →
        reach (heap_of meddledWorld) r ## reach (heap_of meddledWorld) (state meddledWorld)) ∧
  (∀ t m, t ∈ snapshot_roots (trace meddledWorld) →
          getState (with_heap meddledWorld (apply_mutation (heap_of meddledWorld) t m))
          = getState meddledWorld).
Proof.
  assert (Forall client_frame meddledScript) as Hs by repeat constructor.
  assert (run meddler 20 (createMockTransport tt) meddledScript
          = Some (meddledWorld, [])) as Hr by (vm_compute; reflexivity).
  destruct (defensive_copy meddler tt meddledScript 20 meddledWorld [] Hs Hr)
    as (H1 & _ & H3 & _ & _).
  split_and!; [assumption..|].
  intros t m Ht. by destruct (H3 t m Ht) as (_ & ? & _).
Defined.

Lemma subscribe_contract_witness :
  inv (createMockTransport tt) ∧
  contents (createMockTransport tt) = Some initialState ∧
  (∃ w1 snap,
     run onlookers 2 (createMockTransport tt) [KOp (Subscribe 7)] = Some (w1, []) ∧
     calls_of 7 (trace w1) = [(snap, initialState)]) ∧
  step onlookers (unsubscribed (createMockTransport tt) 7) (KOp (Unsubscribe 7))
    = Some (unsubscribed (createMockTransport tt) 7, []).
Proof.
  split; [apply inv_create|]. split; [reflexivity|].
  destruct (subscribe_contract onlookers (createMockTransport tt) 7 initialState)
    as ((w1 & snap & H1 & _ & _ & H4 & _) & _ & _ & H8 & _);
    [apply inv_create|reflexivity|].
  split; [|assumption]. exists w1, snap. split; assumption.
Defined.

Lemma inv_snapshotWorld ls : inv (snapshotWorld ls).
Proof.
  assert (run onlookers 1 (createMockTransport tt) [KOp GetState]
          = Some (snapshotWorld [], [])) as Hr by (vm_compute; reflexivity).
  destruct (reachable_cinv onlookers tt [KOp GetState] 1 (snapshotWorld []) [])
    as [Hinv _]; [repeat constructor|done|].
  by eapply (inv_same (snapshotWorld [])).
Qed.

Lemma delivery_walks_live_set_witness :
  (∃ n w', run onlookers n (snapshotWorld [Some 0; Some 1]) [KDeliver 0 19] = Some (w', []) ∧
           trace w' = [EvCall 1 19 initialState; EvCall 0 19 initialState]
                      ++ trace (snapshotWorld [Some 0; Some 1])) ∧
  (∃ n w', run rearranger n (snapshotWorld [Some 0; Some 1]) [KDeliver 0 19] = Some (w', []) ∧
           trace w' = EvCall 0 19 initialState :: trace (snapshotWorld [Some 0; Some 1]) ∧
           listeners w' = [Some 0; None]) ∧
  (∃ n w' r, run recruiter n (snapshotWorld [Some 0]) [KDeliver 0 19] = Some (w', []) ∧
             trace w' = EvCall 1 19 initialState :: EvCall 1 r initialState ::
                        EvSnapshot (FromSubscribe 1) r initialState ::
                        EvCall 0 19 initialState :: trace (snapshotWorld [Some 0]) ∧
             listeners w' = [Some 0; Some 1]).
Proof.
  split_and!.
  - destruct (delivery_walks_live_set (@onlookers unit)) as (H & _ & _).
    destruct (H (snapshotWorld [Some 0; Some 1]) 19 initialState [])
      as (n & w' & Hr & _ & Htr); [apply readonly_onlookers|reflexivity|].
    exists n, w'. split; assumption.
  - destruct (delivery_walks_live_set rearranger) as (_ & H & _).
    destruct (H (snapshotWorld [Some 0; Some 1]) 0 1 [] [] [] 19 initialState [])
      as (n & w' & Hr & Hl & Htr).
    + reflexivity.
    + lia.
    + apply not_elem_of_nil.
    + intros l Hin. by apply elem_of_nil in Hin.
    + reflexivity.
    + reflexivity.
    + exists n, w'. split_and!; assumption.
  - destruct (delivery_walks_live_set recruiter) as (_ & _ & H).
    destruct (H (snapshotWorld [Some 0]) 0 1 [] [] 19 initialState initialState [])
      as (n & w' & r & Hr & Hl & Htr).
    + reflexivity.
    + intros Hin. apply list_elem_of_singleton in Hin. discriminate Hin.
    + apply inv_snapshotWorld.
    + reflexivity.
    + intros l Hin. by apply elem_of_nil in Hin.
    + intros s v c. reflexivity.
    + intros s v c. reflexivity.
    + reflexivity.
    + exists n, w', r. split_and!; assumption.
Defined.

Lemma inv_appWorld : inv appWorld.
Proof.
  set (w := match run app_store 3 (createMockTransport None)
                      [KOp GetState; KOp (Subscribe store_listener)] with
            | Some (w, _) => w
            | None => createMockTransport None
            end).
  assert (run app_store 3 (createMockTransport None)
              [KOp GetState; KOp (Subscribe store_listener)] = Some (w, []))
    as Hr by (vm_compute; reflexivity).
  destruct (reachable_cinv app_store None
              [KOp GetState; KOp (Subscribe store_listener)] 3 w [])
    as [Hinv _]; [repeat constructor|done|].
  by eapply (inv_same w).
Qed.

Lemma toggleMute_twice_witness :
  inv appWorld ∧ Some store_listener ∈ listeners appWorld ∧
  get_me_of_store appWorld = Some (mkMe false false) ∧
  ∃ w1 m1 w2 m2,
    completes app_store appWorld [KOp (SetMute true)] w1 ∧
    get_me_of_store w1 = Some m1 ∧ muted m1 = true ∧
    completes app_store w1 [KOp (SetMute false)] w2 ∧
    get_me_of_store w2 = Some m2 ∧ muted m2 = false.
Proof.
  assert (Some store_listener ∈ listeners appWorld) as Hl by apply list_elem_of_here.
  split_and!; [apply inv_appWorld|assumption|reflexivity|].
  destruct (toggleMute_twice appWorld (mkMe false false) inv_appWorld Hl eq_refl)
    as (k1 & w1 & m1 & k2 & w2 & m2 & _ & -> & H1 & H2 & H3 & _ & -> & H4 & H5 & H6).
  exists w1, m1, w2, m2. simpl in *. rewrite H3 in H4. simpl in H4.
  split_and!; assumption.
Defined.

(** C1, where the code departs from it.  [connect] delivers its
    "connecting" snapshot (line 47) before it clears and arms its timer
    (lines 48-51).  A listener that calls [disconnect()] as soon as it is
    shown "connecting" runs [disconnect] to its end inside that delivery:
    there is no timer yet for line 55 to clear, and line 56 makes the state
    "disconnected".  [connect] then goes on and arms its timer all the same:
    when [connect] has returned the state is "disconnected" with the
    completion pending, and 400 ms later the completion makes the state
    "connected", though [disconnect()] was the last call made. *)
Example reentrant_disconnect_is_overtaken :
  ∃ w1 w2 v1 v2,
    run hasty 20 (createMockTransport tt)
        [KOp (Subscribe 0); KOp (Connect (mkParams "s" None))] = Some (w1, []) ∧
    getState w1 = Some v1 ∧ connState v1 = disconnected ∧ timers w1 = [(1, 400)] ∧
    run hasty 10 w1 [KAdvance 400] = Some (w2, []) ∧
    getState w2 = Some v2 ∧ connState v2 = connected.
Proof.
  eexists _, _, _, _. split; [vm_compute; reflexivity|].
  split; [vm_compute; reflexivity|]. split; [reflexivity|]. split; [reflexivity|].
  split; [vm_compute; reflexivity|]. split; [vm_compute; reflexivity|]. reflexivity.
Qed.

(** * Further properties of the code *)

(** ** What every step does *)

Section StepSpec.
Context {C : Type} (B : behaviour C).
Implicit Types w : World C.

Lemma take_snapshot_snapped src w v :
  inv w → contents w = Some v →
  ∃ w' r, take_snapshot src w = Some (w', r) ∧ snapped src w w' v r.
Proof.
  intros Hinv Hv.
  destruct (take_snapshot_ok src w v Hinv Hv)
    as (w' & r & Ht & Hh & Hr & Hvr & Hvs & Htr & Hst & Hl & Hct & Hts & Hnt & Hnow & Hcl & Hinv').
  exists w', r. split; [done|]. unfold snapped, contents.
  split_and!; try done. rewrite Hh. by eexists.
Qed.

Lemma step_spec_ok w k stk v w' ks :
  cinv w (k :: stk) → contents w = Some v → step B w k = Some (w', ks) →
  step_spec B v w k w' ks.
Proof.
  intros [Hinv Hstk] Hv Hstep. apply Forall_cons in Hstk as [Hk Hstk].
  pose proof Hinv as (_ & Hsnap & _).
  destruct k as [[|l|l|p| |c|b|b]|i snap|l snap| |t m|until]; simpl.
  - destruct (take_snapshot_snapped FromGetState w v Hinv Hv) as (w1 & r & Ht & Hsn).
    simpl in Hstep. rewrite Ht in Hstep. simpl in Hstep. injection Hstep as <- <-.
    eauto.
  - destruct (take_snapshot_snapped (FromSubscribe l)
                (with_listeners w (set_add l (listeners w))) v Hinv Hv)
      as (w1 & r & Ht & Hsn).
    simpl in Hstep. unfold with_listeners in Ht. rewrite Ht in Hstep.
    simpl in Hstep. injection Hstep as <- <-. eauto.
  - simpl in Hstep. by injection Hstep as <- <-.
  - destruct (decide (connState v = connected)) as [Hc|Hc].
    + rewrite (step_connect_connected B w p v Hv Hc) in Hstep.
      by injection Hstep as <- <-.
    + destruct (step_connect B w p v Hinv Hv Hc) as (w1 & snap & Hs1 & He).
      rewrite Hs1 in Hstep. injection Hstep as <- <-. eauto.
  - destruct (step_disconnect B w v Hinv Hv) as (w1 & snap & Hs1 & He).
    rewrite Hs1 in Hstep. injection Hstep as <- <-. eauto.
  - destruct (step_join B w c v Hinv Hv) as (w1 & snap & Hs1 & He).
    rewrite Hs1 in Hstep. injection Hstep as <- <-. eauto.
  - destruct (step_setMute B w b v Hinv Hv) as (w1 & snap & Hs1 & He).
    rewrite Hs1 in Hstep. injection Hstep as <- <-. eauto.
  - destruct (step_setDeafen B w b v Hinv Hv) as (w1 & snap & Hs1 & He).
    rewrite Hs1 in Hstep. injection Hstep as <- <-. eauto.
  - simpl in Hstep. destruct (listeners w !! i) as [[l|]|];
      by injection Hstep as <- <-.
  - simpl in Hk. destruct (Hsnap snap Hk) as [[vs Hvs] _].
    simpl in Hstep. rewrite Hvs in Hstep. simpl in Hstep.
    destruct (B l snap vs (client w)) as [c' acts] eqn:HB.
    injection Hstep as <- <-. exists vs. by rewrite HB.
  - simpl in Hstep. by injection Hstep as <- <-.
  - simpl in Hstep. case_bool_decide as Ht; injection Hstep as <- <-.
    + split_and!; [done| |done]. unfold contents. simpl.
      by eapply hinv_mutate_state.
    + done.
  - simpl in Hstep. destruct (earliest (timers w)) as [[id due]|].
    + destruct (due <=? until).
      * set (w0 := mkWorld _ _ _ _ _ _ _ _ _) in Hstep.
        destruct (update_prim w0 (Some connected) None None v Hinv Hv)
          as (w1 & snap & Hs1 & He).
        rewrite Hs1 in Hstep. simpl in Hstep. injection Hstep as <- <-. eauto.
      * by injection Hstep as <- <-.
    + by injection Hstep as <- <-.
Qed.

(** ** Properties of the state that every change preserves *)

Lemma step_since (P : TransportState → Prop) tr0 w k stk w' ks :
  (∀ ch v, P v → P (apply_change ch v)) →
  cinv w (k :: stk) → since tr0 P w → step B w k = Some (w', ks) →
  since tr0 P w'.
Proof.
  intros HP Hc [(v & Hv & Hp) (new & Htr & Hnew)] Hs.
  destruct (step_effect B w k stk w' ks Hc Hs)
    as [Hh Hst Ht|src r v0 Hv0 Hv' Hr Ht Hpre|ch snap v0 Hv0 Hv' Hr Ht Hpre
       |l snap vs _ Hvs Hh Hst Ht|t m _ Hin Hh Hst Ht].
  - split; [exists v; by rewrite (contents_same _ _ Hh Hst)|].
    exists new. by rewrite Ht.
  - rewrite Hv in Hv0. injection Hv0 as <-. split; [by exists v|].
    exists (EvSnapshot src r v :: new). rewrite Ht, Htr. split; [done|].
    intros src' r' v'. rewrite elem_of_cons. intros [[= -> -> ->]|?]; eauto.
  - rewrite Hv in Hv0. injection Hv0 as <-.
    split; [exists (apply_change ch v); auto|].
    exists (EvSnapshot FromUpdate snap (apply_change ch v) :: new).
    rewrite Ht, Htr. split; [done|].
    intros src' r' v'. rewrite elem_of_cons. intros [[= -> -> ->]|?]; eauto.
  - split; [exists v; by rewrite (contents_same _ _ Hh Hst)|].
    exists (EvCall l snap vs :: new). rewrite Ht, Htr. split; [done|].
    intros src' r' v'. rewrite elem_of_cons. intros [[=]|?]; eauto.
  - split; [|exists new; by rewrite Ht].
    exists v. split; [|done]. unfold contents. rewrite Hh, Hst.
    destruct Hc as [Hinv _]. by eapply hinv_mutate_state.
Qed.

Lemma run_since (P : TransportState → Prop) tr0 n w stk w' stk' :
  (∀ ch v, P v → P (apply_change ch v)) →
  cinv w stk → since tr0 P w → run B n w stk = Some (w', stk') →
  since tr0 P w'.
Proof.
  intros HP Hc Hi Hr.
  eapply (run_invariant B (λ w _, since tr0 P w)); [|done|done|done].
  intros. by eapply step_since.
Qed.

Lemma since_start (P : TransportState → Prop) w v :
  contents w = Some v → P v → since (trace w) P w.
Proof.
  intros Hv Hp. split; [by exists v|]. exists []. split; [done|].
  intros src r v' Hin. by apply elem_of_nil in Hin.
Qed.

End StepSpec.

(** ** The directory *)

Lemma same_person_refl u : same_person u u.
Proof. by repeat split. Qed.

Lemma same_directory_refl v : same_directory v v.
Proof.
  split; [done|]. apply Forall2_same_length_lookup_2; [done|].
  intros i u u' Hu Hu'. rewrite Hu in Hu'. injection Hu' as <-.
  apply same_person_refl.
Qed.

Lemma same_person_upd_self f u u1 :
  (∀ x, u_id (f x) = u_id x ∧ u_name (f x) = u_name x ∧ u_talking (f x) = u_talking x) →
  same_person u u1 → same_person u (upd_self f u1).
Proof.
  intros Hf (Hid & Hname & Htalk & Hother). unfold upd_self.
  destruct (decide (u_id u1 = 1%Z)) as [H1|H1]; [|by repeat split].
  destruct (Hf u1) as (Hfi & Hfn & Hft). split_and!; congruence.
Qed.

Lemma same_directory_change v ch v1 :
  same_directory v v1 → same_directory v (apply_change ch v1).
Proof.
  intros [Hch Hus]. destruct ch as [srv|cs|c|pm pd]; simpl; split; try done.
  - simpl. apply Forall2_fmap_r. eapply Forall2_impl; [done|].
    intros u u1 Hp. by apply same_person_upd_self.
  - simpl. apply Forall2_fmap_r. eapply Forall2_impl; [done|].
    intros u u1 Hp. by apply same_person_upd_self.
Qed.

(** ** The self user's channel *)

Lemma self_in_current_change ch v :
  self_in_current v → self_in_current (apply_change ch v).
Proof.
  intros Hs. destruct ch as [srv|cs|c|pm pd]; simpl; try done.
  - intros u (u0 & -> & Hu0)%list_elem_of_fmap. unfold upd_self.
    destruct (decide (u_id u0 = 1%Z)) as [Hid|Hid]; simpl; intros Hid'; done.
  - intros u (u0 & -> & Hu0)%list_elem_of_fmap. unfold upd_self.
    destruct (decide (u_id u0 = 1%Z)) as [Hid|Hid]; simpl; intros Hid'; [|done].
    by apply (Hs u0).
Qed.

Lemma self_in_current_initial : self_in_current initialState.
Proof.
  intros u Hu Hid. unfold initialState, defaultUsers in Hu. simpl in Hu.
  rewrite !elem_of_cons in Hu.
  destruct Hu as [->|[->|[->|Hu]]]; try done. by apply elem_of_nil in Hu.
Qed.

(** ** The self user's flags *)

Lemma strict_mirror_change ch v :
  strict_mirror v → strict_mirror (apply_change ch v).
Proof.
  intros Hm. destruct ch as [srv|cs|c|pm pd]; simpl; try done.
  - intros u (u0 & -> & Hu0)%list_elem_of_fmap. unfold upd_self.
    destruct (decide (u_id u0 = 1%Z)) as [Hid|Hid]; simpl; intros Hid'; [|done].
    by apply Hm.
  - intros u (u0 & -> & Hu0)%list_elem_of_fmap. unfold upd_self.
    destruct (decide (u_id u0 = 1%Z)) as [Hid|Hid]; simpl; intros Hid'; done.
Qed.

Lemma strict_mirror_updateMe pm pd v : strict_mirror (updateMe_v pm pd v).
Proof.
  intros u (u0 & -> & Hu0)%list_elem_of_fmap. unfold upd_self.
  destruct (decide (u_id u0 = 1%Z)) as [Hid|Hid]; simpl; intros Hid'; done.
Qed.

(** ** The connection state and the pending completion *)

Section Lifecycle.
Context {C : Type} (B : behaviour C).
Implicit Types w : World C.

Lemma timers_cleared_nonempty w :
  timers (clear_connect_timer w) ≠ [] → timers w ≠ [].
Proof.
  unfold clear_connect_timer. destruct (connectTimer w) as [id|]; [|done].
  destruct (0 <? id); [|done]. simpl. intros Hne Hnil. apply Hne.
  by rewrite Hnil.
Qed.

Lemma KArm_not_action snap (acts : list action) :
  KArm ∉ frame_of_action snap <$> acts.
Proof. intros (a & Ha & _)%list_elem_of_fmap. by destruct a. Qed.

Lemma step_conn_inv w k stk w' ks :
  cinv w (k :: stk) → conn_inv w (k :: stk) → step B w k = Some (w', ks) →
  conn_inv w' (ks ++ stk).
Proof.
  intros Hc [(v & Hv & Hne & Hsrv) Htr] Hs.
  pose proof (step_spec_ok B w k stk v w' ks Hc Hv Hs) as Hspec.
  assert (∀ x, KArm ∈ x :: stk → x ≠ KArm → KArm ∈ stk) as Htail.
  { intros x [->|?]%elem_of_cons Hx; done. }
  assert (∀ v0 src r, conn_ok v0 → ∀ src' r' v',
            EvSnapshot src' r' v' ∈ EvSnapshot src r v0 :: trace w → conn_ok v')
    as Hpush.
  { intros v0 src r Hok src' r' v'. rewrite elem_of_cons.
    intros [[= -> -> ->]|?]; eauto. }
  destruct k as [[|l|l|p| |c|b|b]|i snap|l snap| |t m|until]; simpl in Hspec.
  - destruct Hspec as (-> & r & Hc' & _ & Ht & _ & _ & _ & _ & Hts & _).
    assert (is_Some (currentServer v) ∨ ¬ (connState v ≠ disconnected)) as Hd.
    { destruct (decide (connState v = disconnected)); [right; auto|left; auto]. }
    split.
    + exists v. split_and!; [done..|]. rewrite Hts, app_nil_l.
      intros [?|[?|?]]; apply Hsrv; auto. right. right. by right.
    + rewrite Ht. apply Hpush. split; [done|]. intros. apply Hsrv. by left.
  - destruct Hspec as (r & -> & Hc' & _ & Ht & _ & _ & _ & _ & Hts & _).
    simpl in Ht, Hts. split.
    + exists v. split_and!; [done..|]. rewrite Hts. simpl.
      intros [?|[?|Hk]]; apply Hsrv; auto.
      apply elem_of_cons in Hk as [?|?]; [done|]. right. right. by right.
    + rewrite Ht. apply Hpush. split; [done|]. intros. apply Hsrv. by left.
  - destruct Hspec as (-> & ->). split; [|done]. exists v. split_and!; [done..|].
    simpl. intros [?|[?|?]]; apply Hsrv; auto. right. right. by right.
  - destruct (decide (connState v = connected)) as [Hcn|Hcn].
    + destruct Hspec as (-> & ->). split; [|done]. exists v.
      split_and!; [done..|]. simpl.
      intros [?|[?|?]]; apply Hsrv; auto. right. right. by right.
    + destruct Hspec as (snap & -> & Hc' & _ & Ht & _).
      split.
      * exists (connecting_v (server p) v). split_and!; [done|done|].
        intros _. by eexists.
      * rewrite Ht. apply Hpush. split; [done|]. intros _. by eexists.
  - destruct Hspec as (snap & -> & Hc' & _ & Ht & _ & _ & _ & Hts & _).
    destruct (clear_connect_timer_fields w) as (_ & _ & _ & _ & _ & _ & _ & Htr').
    split.
    + exists (with_conn disconnected v). split_and!; [done|done|]. simpl.
      rewrite Hts. intros [?|[Hn|Hk]]; [done| |].
      * apply Hsrv. right. left. by apply timers_cleared_nonempty.
      * apply elem_of_cons in Hk as [?|?]; [done|]. apply Hsrv. right. right. by right.
    + rewrite Ht, Htr'. apply Hpush. split; [done|]. done.
  - destruct Hspec as (snap & -> & Hc' & _ & Ht & _ & _ & _ & Hts & _).
    split.
    + exists (join_v c v). split_and!; [done|done|]. simpl.
      rewrite Hts. intros [?|[?|Hk]]; apply Hsrv; auto.
      apply elem_of_cons in Hk as [?|?]; [done|]. right. right. by right.
    + rewrite Ht. apply Hpush. split; [done|]. simpl. intros. apply Hsrv. by left.
  - destruct Hspec as (snap & -> & Hc' & _ & Ht & _ & _ & _ & Hts & _).
    split.
    + exists (updateMe_v (Some b) None v). split_and!; [done|done|]. simpl.
      rewrite Hts. intros [?|[?|Hk]]; apply Hsrv; auto.
      apply elem_of_cons in Hk as [?|?]; [done|]. right. right. by right.
    + rewrite Ht. apply Hpush. split; [done|]. simpl. intros. apply Hsrv. by left.
  - destruct Hspec as (snap & -> & Hc' & _ & Ht & _ & _ & _ & Hts & _).
    split.
    + exists (updateMe_v None (Some b) v). split_and!; [done|done|]. simpl.
      rewrite Hts. intros [?|[?|Hk]]; apply Hsrv; auto.
      apply elem_of_cons in Hk as [?|?]; [done|]. right. right. by right.
    + rewrite Ht. apply Hpush. split; [done|]. simpl. intros. apply Hsrv. by left.
  - destruct Hspec as (-> & ->). split; [|done]. exists v. split_and!; [done..|].
    intros [?|[?|Hk]]; apply Hsrv; auto. right. right.
    destruct (listeners w !! i) as [[l|]|]; simpl in Hk.
    + apply elem_of_cons in Hk as [?|Hk]; [done|].
      apply elem_of_cons in Hk as [?|Hk]; [done|]. by right.
    + apply elem_of_cons in Hk as [?|Hk]; [done|]. by right.
    + by right.
  - destruct Hspec as (vs & Hvs & -> & ->). split.
    + exists v. split_and!; [done..|]. simpl.
      intros [?|[?|Hk]]; apply Hsrv; auto. right. right.
      apply elem_of_app in Hk as [Hk|Hk]; [by apply KArm_not_action in Hk|by right].
    + simpl. intros src r v'. rewrite elem_of_cons. intros [[=]|?]; eauto.
  - destruct Hspec as (-> & ->).
    destruct (clear_connect_timer_fields w) as (Hh & Hst & _ & _ & _ & _ & _ & Htr').
    split.
    + exists v. split_and!; [|done|].
      * unfold contents, arm_connect_timer. simpl. by rewrite Hh, Hst.
      * intros _. apply Hsrv. right. right. by left.
    + unfold arm_connect_timer. simpl. by rewrite Htr'.
  - destruct Hspec as (-> & Hc' & Hw'). split.
    + exists v. split_and!; [done..|].
      assert (timers w' = timers w) as -> by (rewrite Hw'; by case_bool_decide).
      simpl. intros [?|[?|?]]; apply Hsrv; auto. right. right. by right.
    + assert (trace w' = trace w) as -> by (rewrite Hw'; by case_bool_decide).
      done.
  - destruct (earliest (timers w)) as [[id due]|] eqn:He.
    + destruct (due <=? until).
      * destruct Hspec as (snap & -> & Hc' & _ & Ht & _).
        assert (is_Some (currentServer v)) as Hsome.
        { apply Hsrv. right. left. intros Hnil. by rewrite Hnil in He. }
        split.
        -- exists (with_conn connected v). split_and!; [done|done|]. done.
        -- rewrite Ht. simpl. apply Hpush. split; [done|]. done.
      * destruct Hspec as (-> & ->). split; [|done]. exists v.
        split_and!; [done..|]. simpl.
        intros [?|[?|?]]; apply Hsrv; auto. right. right. by right.
    + destruct Hspec as (-> & ->). split; [|done]. exists v.
      split_and!; [done..|]. simpl.
      intros [?|[?|?]]; apply Hsrv; auto. right. right. by right.
Qed.

Lemma conn_inv_create (c : C) script :
  Forall client_frame script → conn_inv (createMockTransport c) script.
Proof.
  intros Hs. split.
  - exists initialState. split_and!; [done..|].
    intros [?|[?|Hk]]; [done..|].
    eapply Forall_forall in Hs; [|done]. done.
  - intros src r v Hin. by apply elem_of_nil in Hin.
Qed.

(** ** At most one completion is pending *)

Lemma earliest_singleton (t : nat * nat) : earliest [t] = Some t.
Proof. done. Qed.

Lemma step_one_pending w k stk w' ks :
  cinv w (k :: stk) → timers_ok w ∧ one_pending w →
  step B w k = Some (w', ks) → timers_ok w' ∧ one_pending w'.
Proof.
  intros Hc [Hok Hone] Hs. split; [by eapply step_timers_ok|].
  destruct Hc as [Hinv Hstk]. pose proof Hinv as ([v Hv] & _).
  pose proof (step_spec_ok B w k stk v w' ks (conj Hinv Hstk) Hv Hs) as Hspec.
  assert (∀ w1, timers w1 = timers w → connectTimer w1 = connectTimer w →
                now w1 = now w → one_pending w1) as Hsame.
  { intros w1 Hts Hct Hnow. unfold one_pending. by rewrite Hts, Hct, Hnow. }
  destruct k as [[|l|l|p| |c|b|b]|i snap|l snap| |t m|until]; simpl in Hspec.
  - destruct Hspec as (-> & r & _ & _ & _ & _ & _ & _ & Hct & Hts & _ & Hnow & _).
    by apply Hsame.
  - destruct Hspec as (r & -> & _ & _ & _ & _ & _ & _ & Hct & Hts & _ & Hnow & _).
    by apply Hsame.
  - destruct Hspec as (-> & ->). by apply Hsame.
  - destruct (decide (connState v = connected)).
    + by destruct Hspec as (-> & ->).
    + destruct Hspec as (snap & -> & _ & _ & _ & _ & _ & Hct & Hts & _ & Hnow & _).
      by apply Hsame.
  - destruct Hspec as (snap & -> & _ & _ & _ & _ & _ & Hct & Hts & _ & Hnow & _).
    left. rewrite Hts. by apply timers_clear.
  - destruct Hspec as (snap & -> & _ & _ & _ & _ & _ & Hct & Hts & _ & Hnow & _).
    by apply Hsame.
  - destruct Hspec as (snap & -> & _ & _ & _ & _ & _ & Hct & Hts & _ & Hnow & _).
    by apply Hsame.
  - destruct Hspec as (snap & -> & _ & _ & _ & _ & _ & Hct & Hts & _ & Hnow & _).
    by apply Hsame.
  - by destruct Hspec as (-> & ->).
  - destruct Hspec as (vs & _ & -> & ->). by apply Hsame.
  - destruct Hspec as (-> & ->). right.
    destruct (clear_connect_timer_fields w) as (_ & _ & _ & _ & Hnt & Hnow & _).
    exists (next_timer w), (now w + latency).
    unfold arm_connect_timer. simpl. rewrite (timers_clear w Hok), Hnt, Hnow.
    split_and!; [done|done| |lia]. unfold latency. lia.
  - destruct Hspec as (-> & _ & ->). case_bool_decide; by apply Hsame.
  - destruct Hone as [Hnil|(id & due & Hts & Hct & Hdue)].
    + rewrite Hnil in Hspec. simpl in Hspec. destruct Hspec as (-> & ->).
      left. done.
    + rewrite Hts, earliest_singleton in Hspec.
      destruct (due <=? until) eqn:E.
      * destruct Hspec as (snap & -> & _ & _ & _ & _ & _ & _ & Hts' & _).
        left. rewrite Hts'. simpl. apply clearTimeout_all.
        by intros x ->%list_elem_of_singleton.
      * destruct Hspec as (-> & ->). apply Nat.leb_gt in E. right.
        exists id, due. simpl. split_and!; [done|done|lia|lia].
Qed.

Lemma one_pending_create (c : C) : one_pending (createMockTransport c).
Proof. by left. Qed.

End Lifecycle.

(** ** The listener set holds no listener twice *)

Lemma live_from_0 (ls : list (option lid)) : live_from 0 ls = omap id ls.
Proof. unfold live_from. by rewrite drop_0. Qed.

Lemma elem_of_live (l : lid) ls : l ∈ live_from 0 ls ↔ Some l ∈ ls.
Proof.
  rewrite live_from_0, list_elem_of_omap. split.
  - intros ([x|] & Hin & Heq); [|done]. simpl in Heq. by injection Heq as ->.
  - intros Hin. by exists (Some l).
Qed.

Lemma live_set_add (l : lid) ls :
  live_from 0 (set_add l ls)
  = if bool_decide (Some l ∈ ls) then live_from 0 ls else live_from 0 ls ++ [l].
Proof.
  unfold set_add. case_bool_decide; [done|].
  by rewrite !live_from_0, omap_app.
Qed.

Lemma live_set_delete (l : lid) ls :
  live_from 0 (set_delete l ls) = filter (λ x, x ≠ l) (live_from 0 ls).
Proof.
  rewrite !live_from_0. unfold set_delete, omap.
  induction ls as [|e ls IH]; [done|]. rewrite fmap_cons.
  destruct e as [x|].
  - case_bool_decide as He.
    + injection He as ->. simpl. rewrite filter_cons_False by (intros ?; done).
      done.
    + simpl. rewrite filter_cons_True by congruence. by rewrite IH.
  - case_bool_decide; [done|]. simpl. done.
Qed.

Lemma NoDup_set_add (l : lid) ls :
  NoDup (live_from 0 ls) → NoDup (live_from 0 (set_add l ls)).
Proof.
  intros Hnd. rewrite live_set_add. case_bool_decide as Hin; [done|].
  apply NoDup_app. split_and!; [done| |apply NoDup_singleton].
  intros x Hx ->%list_elem_of_singleton. by apply Hin, elem_of_live.
Qed.

Lemma NoDup_set_delete (l : lid) ls :
  NoDup (live_from 0 ls) → NoDup (live_from 0 (set_delete l ls)).
Proof. intros Hnd. rewrite live_set_delete. by apply NoDup_filter. Qed.

Lemma step_listeners {C} (B : behaviour C) (w : World C) k w' ks :
  step B w k = Some (w', ks) →
  listeners w' = listeners w ∨
  (∃ l, listeners w' = set_add l (listeners w)) ∨
  (∃ l, listeners w' = set_delete l (listeners w)).
Proof.
  intros Hs. apply step_shape in Hs.
  destruct k as [[|l|l|p| |c|b|b]|i snap|l snap| |t m|until]; simpl in Hs.
  - destruct Hs as (_ & -> & _). by left.
  - destruct Hs as (-> & _). right. left. eauto.
  - destruct Hs as (-> & _). right. right. eauto.
  - destruct Hs as (-> & _). by left.
  - destruct Hs as (-> & _). by left.
  - destruct Hs as (-> & _). by left.
  - destruct Hs as (-> & _). by left.
  - destruct Hs as (-> & _). by left.
  - destruct Hs as (-> & _). by left.
  - destruct Hs as (-> & _). by left.
  - destruct Hs as (_ & -> & _). by left.
  - destruct Hs as (_ & -> & _). by left.
  - destruct Hs as (-> & _). by left.
Qed.

Lemma run_listeners_NoDup {C} (B : behaviour C) n (w : World C) stk w' stk' :
  NoDup (live_from 0 (listeners w)) → run B n w stk = Some (w', stk') →
  NoDup (live_from 0 (listeners w')).
Proof.
  revert w stk. induction n as [|n IH]; intros w stk Hnd; simpl.
  - by intros [= <- <-].
  - destruct stk as [|k stk]; [by intros [= <- <-]|].
    destruct (step B w k) as [[w1 ks]|] eqn:Hs; [|done]. simpl.
    apply IH. destruct (step_listeners B w k w1 ks Hs) as [->|[[l ->]|[l ->]]];
      auto using NoDup_set_add, NoDup_set_delete.
Qed.

(** The calls a delivery pass makes to one listener. *)
Lemma calls_of_pass (l : lid) (ls : list lid) snap v tr :
  NoDup ls →
  calls_of l (reverse ((λ l', EvCall l' snap v) <$> ls) ++ tr)
  = calls_of l tr ++ (if bool_decide (l ∈ ls) then [(snap, v)] else []).
Proof.
  revert tr. induction ls as [|x ls IH]; intros tr Hnd.
  - simpl. by rewrite app_nil_r.
  - apply NoDup_cons in Hnd as [Hx Hnd].
    rewrite fmap_cons, reverse_cons, <- app_assoc. simpl.
    rewrite IH by done.
    destruct (decide (x = l)) as [->|Hne].
    + rewrite calls_of_call. rewrite bool_decide_eq_false_2 by done.
      rewrite bool_decide_eq_true_2 by by left. by rewrite app_nil_r.
    + rewrite calls_of_call_ne by done.
      f_equal. rewrite (bool_decide_ext (l ∈ x :: ls) (l ∈ ls)); [done|].
      rewrite elem_of_cons. split; [intros [?|?]; [congruence|done]|by right].
Qed.

(** ** A method call run to completion *)

Section RunOp.
Context {C : Type} (B : behaviour C).
Implicit Types w : World C.

Lemma clear_timers_same w w1 :
  connectTimer w1 = connectTimer w → timers w1 = timers w →
  next_timer w1 = next_timer w → now w1 = now w →
  timers (clear_connect_timer w1) = timers (clear_connect_timer w) ∧
  next_timer (clear_connect_timer w1) = next_timer w ∧
  now (clear_connect_timer w1) = now w.
Proof.
  intros Hct Hts Hnt Hnow. unfold clear_connect_timer. rewrite Hct.
  destruct (connectTimer w) as [id|]; [|done].
  destruct (0 <? id); simpl; by rewrite ?Hts.
Qed.

(** What is left of [settled] when the timers are not looked at. *)
Lemma settled_weaken w0 w w' v' snap :
  heap_of w0 = heap_of w → listeners w0 = listeners w → now w0 = now w →
  client w0 = client w → trace w0 = trace w →
  settled B w0 w' v' snap →
  inv w' ∧ contents w' = Some v' ∧ view (heap_of w') snap = Some v' ∧
  listeners w' = listeners w ∧ now w' = now w ∧
  heap_of w `prefix_of` heap_of w' ∧
  trace w' = reverse ((λ l, EvCall l snap v') <$> live_from 0 (listeners w))
             ++ EvSnapshot FromUpdate snap v' :: trace w ∧
  client w' = foldl (λ c l, (B l snap v' c).1) (client w) (live_from 0 (listeners w)).
Proof.
  intros Hh Hl Hnow Hcl Htr
    (Hc' & Hs' & Htr' & Hpre & Hl' & _ & _ & _ & Hnow' & Hcl' & Hinv').
  rewrite Hh in Hpre. rewrite Hl in Htr', Hl', Hcl'. rewrite Htr in Htr'.
  rewrite Hnow in Hnow'. rewrite Hcl in Hcl'. done.
Qed.

Lemma run_op w o v :
  readonly B → inv w → contents w = Some v → updates o →
  ∃ w', reaches B w [KOp o] w' [] ∧
    inv w' ∧ contents w' = Some (op_result o v) ∧
    listeners w' = listeners w ∧ now w' = now w ∧
    heap_of w `prefix_of` heap_of w' ∧
    timers w' = op_timers o v w ∧
    match op_change o v with
    | None => w' = w
    | Some _ =>
        ∃ snap,
          view (heap_of w') snap = Some (op_result o v) ∧
          trace w' = reverse ((λ l, EvCall l snap (op_result o v))
                                <$> live_from 0 (listeners w))
                     ++ EvSnapshot FromUpdate snap (op_result o v) :: trace w ∧
          client w' = foldl (λ c l, (B l snap (op_result o v) c).1) (client w)
                            (live_from 0 (listeners w))
    end.
Proof.
  intros Hro Hinv Hv Hup.
  destruct o as [|l|l|p| |c|b|b]; try done; unfold op_result; simpl.
  - destruct (decide (connState v = connected)) as [Hc|Hc].
    + exists w. split_and!; try done.
      apply (reaches_one B w _ [] w []). by eapply step_connect_connected.
    + destruct (run_connect B w p v Hro Hinv Hv Hc) as (w1 & snap & Hr & Hset).
      destruct (settled_weaken w w w1 _ snap eq_refl eq_refl eq_refl eq_refl eq_refl Hset)
        as (Hinv1 & Hc1 & Hs1 & Hl1 & Hnow1 & Hpre1 & Htr1 & Hcl1).
      destruct (clear_connect_timer_fields w1)
        as (Hh & Hst & Hl & _ & _ & Hnow & Hcl & Htr).
      destruct Hset as (_ & _ & _ & _ & _ & Hct0 & Hts0 & Hnt0 & Hnow0 & _).
      destruct (clear_timers_same w w1 Hct0 Hts0 Hnt0 Hnow0) as (Hts' & Hnt' & Hnow').
      exists (arm_connect_timer (clear_connect_timer w1)). split; [done|].
      unfold arm_connect_timer, contents, inv. simpl.
      rewrite Hh, Hst, Hl, Htr, Hcl, Hts', Hnt', Hnow'. split_and!; try done.
      by exists snap.
  - destruct (run_disconnect B w v Hro Hinv Hv) as (w1 & snap & Hr & Hset).
    destruct (clear_connect_timer_fields w)
      as (Hh & Hst & Hl & _ & _ & Hnow & Hcl & Htr).
    destruct (settled_weaken _ w w1 _ snap Hh Hl Hnow Hcl Htr Hset)
      as (Hinv1 & Hc1 & Hs1 & Hl1 & Hnow1 & Hpre1 & Htr1 & Hcl1).
    destruct Hset as (_ & _ & _ & _ & _ & _ & Hts0 & _).
    exists w1. split_and!; try done. by exists snap.
  - destruct (run_join B w c v Hro Hinv Hv) as (w1 & snap & Hr & Hset).
    destruct (settled_weaken w w w1 _ snap eq_refl eq_refl eq_refl eq_refl eq_refl Hset)
      as (Hinv1 & Hc1 & Hs1 & Hl1 & Hnow1 & Hpre1 & Htr1 & Hcl1).
    destruct Hset as (_ & _ & _ & _ & _ & _ & Hts0 & _).
    exists w1. split_and!; try done. by exists snap.
  - destruct (run_setMute B w b v Hro Hinv Hv) as (w1 & snap & Hr & Hset).
    destruct (settled_weaken w w w1 _ snap eq_refl eq_refl eq_refl eq_refl eq_refl Hset)
      as (Hinv1 & Hc1 & Hs1 & Hl1 & Hnow1 & Hpre1 & Htr1 & Hcl1).
    destruct Hset as (_ & _ & _ & _ & _ & _ & Hts0 & _).
    exists w1. split_and!; try done. by exists snap.
  - destruct (run_setDeafen B w b v Hro Hinv Hv) as (w1 & snap & Hr & Hset).
    destruct (settled_weaken w w w1 _ snap eq_refl eq_refl eq_refl eq_refl eq_refl Hset)
      as (Hinv1 & Hc1 & Hs1 & Hl1 & Hnow1 & Hpre1 & Htr1 & Hcl1).
    destruct Hset as (_ & _ & _ & _ & _ & _ & Hts0 & _).
    exists w1. split_and!; try done. by exists snap.
Qed.

(** Time passing, with at most one completion pending. *)
Lemma run_wait w t v :
  readonly B → inv w → one_pending w → contents w = Some v →
  ∃ w', reaches B w [KAdvance t] w' [] ∧ inv w' ∧
    listeners w' = listeners w ∧ connectTimer w' = connectTimer w ∧
    next_timer w' = next_timer w ∧
    heap_of w `prefix_of` heap_of w' ∧
    ((Forall (λ x, t < x.2) (timers w) ∧
      heap_of w' = heap_of w ∧ state w' = state w ∧ timers w' = timers w ∧
      now w' = now w `max` t ∧ client w' = client w ∧ trace w' = trace w) ∨
     (∃ id due snap,
        timers w = [(id, due)] ∧ due ≤ t ∧ timers w' = [] ∧
        now w' = (now w `max` due) `max` t ∧
        contents w' = Some (with_conn connected v) ∧
        view (heap_of w') snap = Some (with_conn connected v) ∧
        trace w' = reverse ((λ l, EvCall l snap (with_conn connected v))
                              <$> live_from 0 (listeners w))
                   ++ EvSnapshot FromUpdate snap (with_conn connected v) :: trace w ∧
        client w' = foldl (λ c l, (B l snap (with_conn connected v) c).1)
                          (client w) (live_from 0 (listeners w)))).
Proof.
  intros Hro Hinv Hone Hv.
  assert ((∀ x, x ∈ timers w → t < x.2) → ∃ w',
            reaches B w [KAdvance t] w' [] ∧ inv w' ∧
            listeners w' = listeners w ∧ connectTimer w' = connectTimer w ∧
            next_timer w' = next_timer w ∧ heap_of w `prefix_of` heap_of w' ∧
            Forall (λ x, t < x.2) (timers w) ∧
            heap_of w' = heap_of w ∧ state w' = state w ∧ timers w' = timers w ∧
            now w' = now w `max` t ∧ client w' = client w ∧ trace w' = trace w)
    as Hidle.
  { intros Hts.
    destruct (advance_idle B w t Hts)
      as (w' & Hr & Hh & Hst & Hl & Hct & Hts' & Hnt & Hnow & Hcl & Htr).
    exists w'. split_and!; try done.
    - eapply (inv_same w); [done..|by rewrite Htr|done].
    - by rewrite Hh.
    - by apply Forall_forall. }
  destruct Hone as [Hnil|(id & due & Hts & Hct & Hdue)].
  { destruct Hidle as (w' & Hr & Hinv' & Hl & Hct & Hnt & Hpre & Hrest).
    { rewrite Hnil. intros x Hx. by apply elem_of_nil in Hx. }
    exists w'. split_and!; try done. by left. }
  destruct (decide (due ≤ t)) as [Hle|Hgt].
  - clear Hidle.
    set (w1 := mkWorld (heap_of w) (state w) (listeners w) (connectTimer w) []
                 (next_timer w) (now w `max` due) (client w) (trace w)).
    destruct (update_prim w1 (Some connected) None None v Hinv Hv)
      as (w2 & snap & Hup & He).
    destruct (emit_readonly B w1 w2 _ snap [KAdvance t] Hro He) as (w3 & Hr & Hset).
    destruct Hset as (Hc3 & Hs3 & Htr3 & Hpre3 & Hl3 & Hct3 & Hts3 & Hnt3 & Hnow3 & Hcl3 & Hinv3).
    simpl in *.
    eexists. split.
    { eapply reaches_step.
      { simpl. rewrite Hts. simpl.
        rewrite (clearTimeout_all id [(id, due)])
          by (by intros x ->%list_elem_of_singleton).
        destruct (due <=? t) eqn:E; [|apply Nat.leb_gt in E; lia].
        fold w1. rewrite Hup. simpl. done. }
      simpl. eapply reaches_trans; [done|].
      apply (reaches_one _ _ _ [] _ []). apply step_advance_idle.
      intros x Hx. rewrite Hts3 in Hx. by apply elem_of_nil in Hx. }
    simpl. split_and!; try done.
    right. exists id, due, snap. unfold contents in *. simpl.
    rewrite Hnow3. split_and!; try done.
  - destruct Hidle as (w' & Hr & Hinv' & Hl & Hct' & Hnt & Hpre & Hrest).
    { rewrite Hts. intros x ->%list_elem_of_singleton. simpl. lia. }
    exists w'. split_and!; try done. by left.
Qed.

(** Two calls, one after the other. *)
Lemma run_two_ops w o1 o2 v :
  readonly B → inv w → contents w = Some v → updates o1 → updates o2 →
  ∃ w', completes B w [KOp o1; KOp o2] w' ∧ inv w' ∧
        contents w' = Some (op_result o2 (op_result o1 v)).
Proof.
  intros Hro Hinv Hv H1 H2.
  destruct (run_op w o1 v Hro Hinv Hv H1) as (w1 & Hr1 & Hinv1 & Hc1 & _).
  destruct (run_op w1 o2 _ Hro Hinv1 Hc1 H2) as (w2 & Hr2 & Hinv2 & Hc2 & _).
  exists w2. split_and!; [|done|done].
  apply reaches_completes. by apply (reaches_seq B w [KOp o1] w1 [KOp o2] w2).
Qed.

Lemma run_one_op w o v :
  readonly B → inv w → contents w = Some v → updates o →
  ∃ w', completes B w [KOp o] w' ∧ inv w' ∧ contents w' = Some (op_result o v).
Proof.
  intros Hro Hinv Hv H1.
  destruct (run_op w o v Hro Hinv Hv H1) as (w1 & Hr1 & Hinv1 & Hc1 & _).
  exists w1. split_and!; [|done|done]. by apply reaches_completes.
Qed.

End RunOp.

(** ** How the changes compose *)

Lemma upd_self_compose (f g : User → User) u :
  (∀ x, u_id (g x) = u_id x) →
  upd_self f (upd_self g u) = upd_self (f ∘ g) u.
Proof.
  intros Hg. unfold upd_self.
  destruct (decide (u_id u = 1%Z)) as [Hid|Hid].
  - by rewrite decide_True by by rewrite Hg.
  - by rewrite decide_False.
Qed.

Lemma upd_self_ext (f g : User → User) u :
  (∀ x, f x = g x) → upd_self f u = upd_self g u.
Proof. intros H. unfold upd_self. by destruct (decide _). Qed.

Lemma upd_self_twice (f g h : User → User) (us : list User) :
  (∀ x, u_id (g x) = u_id x) → (∀ x, f (g x) = h x) →
  upd_self f <$> (upd_self g <$> us) = upd_self h <$> us.
Proof.
  intros Hg Hh. rewrite <- list_fmap_compose. apply list_fmap_ext.
  intros i u _. simpl. rewrite upd_self_compose by done.
  by apply upd_self_ext.
Qed.

Lemma join_join c c' v : join_v c' (join_v c v) = join_v c' v.
Proof.
  unfold join_v. simpl. f_equal. by apply upd_self_twice.
Qed.

Lemma updateMe_updateMe pm pd pm' pd' v :
  updateMe_v pm' pd' (updateMe_v pm pd v)
  = updateMe_v (from_option Some pm pm') (from_option Some pd pd') v.
Proof.
  unfold updateMe_v. simpl.
  assert (merge_me pm' pd' (merge_me pm pd (me v))
          = merge_me (from_option Some pm pm') (from_option Some pd pd') (me v))
    as ->.
  { unfold merge_me. simpl. by destruct pm, pd, pm', pd'. }
  f_equal. by apply upd_self_twice.
Qed.

Lemma join_updateMe c pm pd v :
  updateMe_v pm pd (join_v c v) = join_v c (updateMe_v pm pd v).
Proof.
  unfold updateMe_v, join_v. simpl. f_equal.
  rewrite <- !list_fmap_compose. apply list_fmap_ext. intros i u _. simpl.
  rewrite !upd_self_compose by done. by apply upd_self_ext.
Qed.

(** ** Snapshots keep what they were built with *)

Section Intact.
Context {C : Type} (B : behaviour C).
Implicit Types w : World C.

Lemma step_intact w k stk w' ks tr :
  cinv w (k :: stk) → ¬ is_mutate k → intact w tr →
  step B w k = Some (w', ks) → intact w' tr.
Proof.
  intros Hc Hk Hi Hs.
  destruct (step_effect B w k stk w' ks Hc Hs)
    as [Hh Hst Ht|src r v0 Hv0 Hv' Hr Ht [ext Hpre]|ch snap v0 Hv0 Hv' Hr Ht [ext Hpre]
       |l snap vs Hkeq Hvs Hh Hst Ht|t m Hkeq Hin Hh Hst Ht].
  - intros src r v Hin. rewrite Hh. by eapply Hi.
  - intros src' r' v' Hin. rewrite Hpre. by eapply view_ext, Hi.
  - intros src' r' v' Hin. rewrite Hpre. by eapply view_ext, Hi.
  - intros src r v Hin. rewrite Hh. by eapply Hi.
  - subst k. by destruct Hk.
Qed.

End Intact.

(** ** Every snapshot is built from new cells *)

Lemma map_copy_shape (h : heap) es h' es' :
  map_copy h es = Some (h', es') →
  ∃ os, h' = h ++ os ∧ es' = seq (length h) (length os).
Proof.
  revert h h' es'. induction es as [|e es IH]; intros h h' es'; simpl.
  - intros [= <- <-]. exists []. by rewrite app_nil_r.
  - unfold copy, alloc. destruct (h !! e) as [o|]; [|done]. simpl.
    destruct (map_copy (h ++ [o]) es) as [[h2 r]|] eqn:E; [|done]. simpl.
    intros [= <- <-]. apply IH in E as (os & -> & ->).
    exists (o :: os). rewrite <- app_assoc. split; [done|].
    rewrite length_app. simpl.
    by replace (length h + 1) with (S (length h)) by lia.
Qed.

Lemma map_self_shape (f : User → User) (h : heap) es h' es' :
  map_self f h es = Some (h', es') → h `prefix_of` h'.
Proof.
  revert h h' es'. induction es as [|e es IH]; intros h h' es'; simpl.
  - by intros [= <- <-].
  - destruct (get_user h e) as [u|]; [|done]. simpl.
    destruct (decide (u_id u = 1%Z)).
    + unfold alloc. destruct (map_self f (h ++ [OUser (f u)]) es) as [[h2 r]|] eqn:E;
        [|done]. simpl. intros [= <- <-]. apply IH in E.
      etransitivity; [|done]. by apply prefix_app_r.
    + destruct (map_self f h es) as [[h2 r]|] eqn:E; [|done]. simpl.
      intros [= <- <-]. by eapply IH.
Qed.

Lemma elem_of_seq_ge (l a n : nat) : l ∈ seq a n → a ≤ l.
Proof. rewrite elem_of_seq. lia. Qed.

Lemma snapshot_fresh (h : heap) s h' r :
  snapshot h s = Some (h', r) →
  h `prefix_of` h' ∧ ∀ l, l ∈ reach h' r → length h ≤ l.
Proof.
  unfold snapshot.
  destruct (h !! s) as [[cs srv cur ml cl ul| | | |]|]; try done.
  unfold copy, alloc. destruct (h !! ml) as [o|]; [|done]. simpl.
  destruct (get_arr (h ++ [o]) cl) as [ces|]; [|done]. simpl.
  destruct (map_copy (h ++ [o]) ces) as [[h2 ces']|] eqn:E1; [|done]. simpl.
  apply map_copy_shape in E1 as (os1 & -> & ->).
  set (a1 := OArr (seq (length (h ++ [o])) (length os1))).
  destruct (get_arr (((h ++ [o]) ++ os1) ++ [a1]) ul) as [ues|]; [|done]. simpl.
  destruct (map_copy _ ues) as [[h4 ues']|] eqn:E2; [|done]. simpl.
  apply map_copy_shape in E2 as (os2 & -> & ->).
  set (a2 := OArr (seq (length (((h ++ [o]) ++ os1) ++ [a1])) (length os2))).
  intros [= <- <-]. split.
  - rewrite <- !app_assoc. by apply prefix_app_r.
  - intros l. unfold reach.
    rewrite list_lookup_middle by done.
    set (st := OState cs srv cur (length h) (length ((h ++ [o]) ++ os1))
                      (length ((((h ++ [o]) ++ os1) ++ [a1]) ++ os2))).
    rewrite (get_arr_at _ ((h ++ [o]) ++ os1) (os2 ++ [a2] ++ [st])
               (seq (length (h ++ [o])) (length os1)))
      by (done || (fold a1; solve_app)).
    rewrite (get_arr_at _ ((((h ++ [o]) ++ os1) ++ [a1]) ++ os2) [st]
               (seq (length (((h ++ [o]) ++ os1) ++ [a1])) (length os2)))
      by (done || (fold a2; solve_app)).
    simpl. rewrite !elem_of_cons, elem_of_app.
    intros [->|[->|[->|[->|[Hl|Hl]]]]];
      repeat (rewrite length_app; simpl); try lia.
    + apply elem_of_seq_ge in Hl. rewrite length_app in Hl. simpl in Hl. lia.
    + apply elem_of_seq_ge in Hl. rewrite !length_app in Hl. simpl in Hl. lia.
Qed.

Section Fresh.
Context {C : Type} (B : behaviour C).
Implicit Types w : World C.

Lemma take_snapshot_fresh src w w' r :
  take_snapshot src w = Some (w', r) →
  heap_of w `prefix_of` heap_of w' ∧
  snapshot_roots (trace w') = r :: snapshot_roots (trace w) ∧
  ∀ l, l ∈ reach (heap_of w') r → length (heap_of w) ≤ l.
Proof.
  unfold take_snapshot.
  destruct (snapshot (heap_of w) (state w)) as [[h' r']|] eqn:E; [|done]. simpl.
  destruct (view h' r') as [v|]; [|done]. simpl. intros [= <- <-]. simpl.
  apply snapshot_fresh in E as [Hpre Hfr]. done.
Qed.

Lemma update_fresh p w h w' ks :
  heap_of w `prefix_of` h →
  update p (with_heap w h) = Some (w', ks) →
  heap_of w `prefix_of` heap_of w' ∧
  ∃ r, snapshot_roots (trace w') = r :: snapshot_roots (trace w) ∧
       ∀ l, l ∈ reach (heap_of w') r → length (heap_of w) ≤ l.
Proof.
  intros Hpre. unfold update. simpl.
  destruct (h !! state w) as [o|]; [|done]. simpl.
  destruct (take_snapshot _ _) as [[w2 snap]|] eqn:Ht; [|done]. simpl.
  intros [= <- <-]. apply take_snapshot_fresh in Ht as (Hpre' & Hroots & Hfr).
  simpl in *. split.
  - etransitivity; [done|]. etransitivity; [|done]. by apply prefix_app_r.
  - exists snap. split; [done|]. intros l Hl. apply Hfr in Hl.
    rewrite length_app in Hl. apply prefix_length in Hpre. simpl in Hl. lia.
Qed.

Lemma fresh_roots_same w w' :
  heap_of w' = heap_of w →
  snapshot_roots (trace w') = snapshot_roots (trace w) → fresh_roots w w'.
Proof. intros Hh Hr. split; [by rewrite Hh|]. intros r. rewrite Hr. auto. Qed.

Lemma fresh_roots_new w w' r :
  heap_of w `prefix_of` heap_of w' →
  snapshot_roots (trace w') = r :: snapshot_roots (trace w) →
  (∀ l, l ∈ reach (heap_of w') r → length (heap_of w) ≤ l) →
  fresh_roots w w'.
Proof.
  intros Hpre Hr Hfr. split; [done|]. intros r'. rewrite Hr.
  intros [->|?]%elem_of_cons; auto.
Qed.

Lemma update_fresh_roots p w h w' ks :
  heap_of w `prefix_of` h →
  update p (with_heap w h) = Some (w', ks) → fresh_roots w w'.
Proof.
  intros Hpre Hu. destruct (update_fresh p w h w' ks Hpre Hu) as (Hp & r & Hr & Hfr).
  by eapply fresh_roots_new.
Qed.

Lemma updateMe_fresh_roots pm pd w w' ks :
  updateMe pm pd w = Some (w', ks) → fresh_roots w w'.
Proof.
  unfold updateMe.
  destruct (heap_of w !! state w) as [[cs ? ? ml ? ul| | | |]|]; try done.
  destruct (get_me _ _) as [m0|]; [|done]. simpl. unfold alloc.
  destruct (get_arr _ _) as [es|]; [|done]. simpl.
  destruct (map_self _ _ _) as [[h2 es']|] eqn:E; [|done]. simpl.
  apply map_self_shape in E. apply update_fresh_roots.
  etransitivity; [|by apply prefix_app_r]. etransitivity; [|done].
  by apply prefix_app_r.
Qed.

(** Methods and listener calls only add cells; a consumer's write changes no
    cell outside the snapshot it writes to. *)
Lemma step_fresh w k w' ks :
  ¬ is_mutate k → step B w k = Some (w', ks) → fresh_roots w w'.
Proof.
  intros Hk.
  destruct k as [[|l|l|p| |c|b|b]|i snap|l snap| |t m|until]; simpl.
  - destruct (take_snapshot _ _) as [[w2 snap]|] eqn:Ht; [|done]. intros [= <- <-].
    apply take_snapshot_fresh in Ht as (? & ? & ?). by eapply fresh_roots_new.
  - destruct (take_snapshot _ _) as [[w2 snap]|] eqn:Ht; [|done]. intros [= <- <-].
    apply take_snapshot_fresh in Ht as (? & ? & ?). by eapply fresh_roots_new.
  - intros [= <- <-]. by apply fresh_roots_same.
  - destruct (heap_of w !! state w) as [[cs ? ? ? ? ?| | | |]|]; try done.
    destruct (decide (cs = connected)); [intros [= <- <-]; by apply fresh_roots_same|].
    destruct (update _ _) as [[w2 ks2]|] eqn:Hu; [|done]. intros [= <- <-].
    rewrite <- (with_heap_id w) in Hu. by apply update_fresh_roots in Hu.
  - intros Hu.
    destruct (clear_connect_timer_fields w) as (Hh & _ & _ & _ & _ & _ & _ & Htr).
    rewrite <- (with_heap_id (clear_connect_timer w)) in Hu.
    apply update_fresh_roots in Hu; [|done].
    destruct Hu as [Hp Hr]. split; [by rewrite <- Hh|].
    intros r Hin. rewrite <- Htr, <- Hh. by apply Hr.
  - destruct (heap_of w !! state w) as [[cs ? ? ? ? ?| | | |]|]; try done.
    destruct (get_arr _ _); [|done]. simpl.
    destruct (map_self _ _ _) as [[h1 es']|] eqn:E; [|done]. simpl.
    apply map_self_shape in E. intros Hu. apply update_fresh_roots in Hu; [done|].
    etransitivity; [done|]. by apply prefix_app_r.
  - apply updateMe_fresh_roots.
  - apply updateMe_fresh_roots.
  - destruct (listeners w !! i) as [[l|]|]; intros [= <- <-];
      by apply fresh_roots_same.
  - destruct (view _ _) as [vs|]; [|done]. simpl.
    destruct (B l snap vs (client w)) as [c' acts]. intros [= <- <-].
    by apply fresh_roots_same.
  - intros [= <- <-].
    destruct (clear_connect_timer_fields w) as (Hh & _ & _ & _ & _ & _ & _ & Htr).
    apply fresh_roots_same; simpl; [exact Hh|by rewrite Htr].
  - by destruct Hk.
  - destruct (earliest (timers w)) as [[id due]|].
    + destruct (due <=? until).
      * destruct (update _ _) as [[w2 ks2]|] eqn:Hu; [|done]. intros [= <- <-].
        set (w0 := mkWorld _ _ _ _ _ _ _ _ _) in Hu.
        rewrite <- (with_heap_id w0) in Hu. by apply update_fresh_roots in Hu.
      * intros [= <- <-]. by apply fresh_roots_same.
    + intros [= <- <-]. by apply fresh_roots_same.
Qed.

Lemma step_kept h0 rs0 w k stk w' ks :
  cinv w (k :: stk) → kept h0 rs0 w → step B w k = Some (w', ks) →
  kept h0 rs0 w'.
Proof.
  intros Hc (Hlen & Hold & Hreach) Hs.
  pose proof Hc as [(_ & Hsnap & _) _].
  assert (is_mutate k ∨ ¬ is_mutate k) as [Hm|Hm]
    by (destruct k; simpl; auto).
  - destruct k as [| | | |t m|]; try done. simpl in Hs.
    case_bool_decide as Ht; injection Hs as <- <-; [|done].
    unfold kept, with_heap. cbn [heap_of trace].
    destruct (apply_mutation_cases (heap_of w) t m)
      as [->|(l0 & o & o' & Hl0 & Hk & Hin & Heq)]; [done|].
    split_and!.
    + by rewrite apply_mutation_length.
    + intros l Hl Hu. rewrite Heq.
      destruct (decide (l = l0)) as [->|Hne]; [|by rewrite list_lookup_insert_ne; auto].
      destruct (Hreach t l0 Ht Hin Hl) as (r0 & Hr0 & Hin0). by destruct (Hu r0 Hr0).
    + intros r l Hr Hl. destruct (Hsnap r Hr) as [Hv _].
      destruct (apply_mutation_self (heap_of w) t m r Hv) as [_ Heq'].
      rewrite Heq' in Hl. by eapply Hreach.
  - destruct (step_fresh w k w' ks Hm Hs) as [[ext Hext] Hfr]. split_and!.
    + rewrite Hext, length_app. lia.
    + intros l Hl Hu. rewrite Hext, lookup_app_l by lia. by apply Hold.
    + intros r l Hr Hl Hlt. destruct (Hfr r Hr) as [Hr'|Hnew].
      * destruct (Hsnap r Hr') as [[v Hv] _].
        rewrite Hext, (reach_ext _ _ _ _ Hv) in Hl. by eapply Hreach.
      * apply Hnew in Hl. lia.
Qed.

End Fresh.

(** ** The store follows the transport *)

Lemma reaches_one_pending {C} (B : behaviour C) (w : World C) stk w' stk' :
  cinv w stk → timers_ok w → one_pending w → reaches B w stk w' stk' →
  timers_ok w' ∧ one_pending w'.
Proof.
  intros Hc Hok Hone [n Hr]%reaches_run.
  eapply (run_invariant B (λ w _, timers_ok w ∧ one_pending w)); [|done| |done].
  - intros. by eapply step_one_pending.
  - done.
Qed.

Lemma store_state_me w v :
  store_state w = Some v → get_me_of_store w = Some (me v).
Proof.
  unfold store_state, get_me_of_store.
  destruct (client w) as [st|]; [|done]. simpl.
  destruct (view (heap_of w) (app_snapshot st)) as [v0|] eqn:Hv0; [|done]. simpl.
  intros [= <-]. simpl.
  by apply view_Some in Hv0 as (ml & cl & ul & -> & Hm & _).
Qed.

Lemma store_frame_call a w v :
  store_state w = Some v → store_frame a w = Some (KOp (call_op a v)).
Proof.
  intros Hst. apply store_state_me in Hst.
  destruct a; simpl; try done; unfold toggleMute, toggleDeafen; by rewrite Hst.
Qed.

Lemma updates_call_op a v : updates (call_op a v).
Proof. by destruct a. Qed.

Lemma store_state_set (w : World (option AppState)) snap v :
  client w = Some (mkApp (connState v) (currentServer v) (currentChannelId v) snap) →
  view (heap_of w) snap = Some v → store_state w = Some v.
Proof.
  intros Hcl Hv. unfold store_state. rewrite Hcl. simpl. rewrite Hv. simpl.
  by destruct v.
Qed.

Lemma store_state_ext (w w' : World (option AppState)) v :
  heap_of w `prefix_of` heap_of w' → client w' = client w →
  store_state w = Some v → store_state w' = Some v.
Proof.
  intros [k Hk] Hcl. unfold store_state. rewrite Hcl, Hk.
  destruct (client w) as [st|]; [|done]. simpl.
  destruct (view (heap_of w) (app_snapshot st)) as [v0|] eqn:Hv0; [|done]. simpl.
  by rewrite (view_ext _ _ _ _ Hv0).
Qed.

(** A call of a store method, run to completion. *)
Lemma in_sync_call a w v :
  in_sync w → store_state w = Some v →
  ∃ w', store_frame a w = Some (KOp (call_op a v)) ∧
        completes app_store w [KOp (call_op a v)] w' ∧ in_sync w' ∧
        store_state w' = Some (op_result (call_op a v) v) ∧
        now w' = now w ∧ timers w' = op_timers (call_op a v) v w.
Proof.
  intros (Hinv & Hok & Hone & Hl & v0 & Hv & Hst0) Hst.
  rewrite Hst in Hst0. injection Hst0 as <-.
  destruct (run_op app_store w (call_op a v) v readonly_app_store Hinv Hv
              (updates_call_op a v))
    as (w' & Hr & Hinv' & Hc' & Hl' & Hnow & Hpre & Hts & Hrest).
  destruct (reaches_one_pending app_store w [KOp (call_op a v)] w' [])
    as [Hok' Hone']; [|done..|].
  { split; [done|]. by repeat constructor. }
  assert (store_state w' = Some (op_result (call_op a v) v)) as Hst'.
  { unfold op_result in *. destruct (op_change (call_op a v) v) as [ch|].
    - destruct Hrest as (snap & Hs & _ & Hcl). apply (store_state_set w' snap); [|done].
      rewrite Hcl. apply app_store_set. by apply live_from_0_elem.
    - by subst w'. }
  exists w'. split_and!; try done.
  - by apply store_frame_call.
  - by apply reaches_completes.
  - split_and!; try done; [by rewrite Hl'|eauto].
Qed.

(** Time passing. *)
Lemma in_sync_wait t w v :
  in_sync w → store_state w = Some v →
  ∃ w', completes app_store w [KAdvance t] w' ∧ in_sync w' ∧
    ((Forall (λ x, t < x.2) (timers w) ∧ store_state w' = Some v ∧
      timers w' = timers w ∧ now w' = now w `max` t) ∨
     (∃ id due, timers w = [(id, due)] ∧ due ≤ t ∧
                store_state w' = Some (with_conn connected v) ∧
                timers w' = [] ∧ now w' = (now w `max` due) `max` t)).
Proof.
  intros (Hinv & Hok & Hone & Hl & v0 & Hv & Hst0) Hst.
  rewrite Hst in Hst0. injection Hst0 as <-.
  destruct (run_wait app_store w t v readonly_app_store Hinv Hone Hv)
    as (w' & Hr & Hinv' & Hl' & Hct & Hnt & Hpre & Hcases).
  destruct (reaches_one_pending app_store w [KAdvance t] w' [])
    as [Hok' Hone']; [|done..|].
  { split; [done|]. by repeat constructor. }
  exists w'. split; [by apply reaches_completes|].
  destruct Hcases as [(Hall & Hh & Hs & Hts & Hnow & Hcl & Htr)
                     |(id & due & snap & Hts & Hle & Hts' & Hnow & Hc' & Hsn & Htr & Hcl)].
  - assert (store_state w' = Some v) as Hst' by by apply (store_state_ext w).
    split.
    + split_and!; try done; [by rewrite Hl'|].
      exists v. split; [|done]. unfold contents. by rewrite Hh, Hs.
    + left. done.
  - assert (store_state w' = Some (with_conn connected v)) as Hst'.
    { apply (store_state_set w' snap); [|done].
      rewrite Hcl. apply app_store_set. by apply live_from_0_elem. }
    split.
    + split_and!; try done; [by rewrite Hl'|eauto].
    + right. exists id, due. done.
Qed.

Lemma play_cons n e es w k w' :
  happening_frame e w = Some k → run app_store n w [k] = Some (w', []) →
  play n (e :: es) w = play n es w'.
Proof. intros Hk Hr. simpl. rewrite Hk. simpl. by rewrite Hr. Qed.

(** One happening, with enough fuel. *)
Lemma play_one e w v :
  in_sync w → store_state w = Some v →
  ∃ n w' k, happening_frame e w = Some k ∧
            (∀ m, n ≤ m → run app_store m w [k] = Some (w', [])) ∧
            in_sync w' ∧
            store_state w' =
              Some (match e with
                    | Call a => op_result (call_op a v) v
                    | Wait t =>
                        match timers w with
                        | [(_, due)] => if due <=? t then with_conn connected v else v
                        | _ => v
                        end
                    end).
Proof.
  intros Hs Hst. destruct e as [a|t].
  - destruct (in_sync_call a w v Hs Hst) as (w' & Hk & [n Hr] & Hs' & Hst' & _).
    exists n, w', (KOp (call_op a v)). split_and!; try done.
    intros m Hm. by eapply run_done_mono.
  - destruct (in_sync_wait t w v Hs Hst) as (w' & [n Hr] & Hs' & Hcases).
    exists n, w', (KAdvance t). split_and!; try done.
    + intros m Hm. by eapply run_done_mono.
    + destruct Hcases as [(Hall & Hst' & _)|(id & due & Hts & Hle & Hst' & _)].
      * rewrite Hst'. f_equal.
        destruct (timers w) as [|[id due] [|x ts]]; try done.
        apply Forall_cons in Hall as [Hlt _]. simpl in Hlt.
        destruct (due <=? t) eqn:E; [apply Nat.leb_le in E; lia|done].
      * rewrite Hst', Hts. f_equal.
        destruct (due <=? t) eqn:E; [done|apply Nat.leb_gt in E; lia].
Qed.

Lemma in_sync_state w : in_sync w → ∃ v, store_state w = Some v ∧ getState w = Some v.
Proof.
  intros (_ & _ & _ & _ & v & Hv & Hst). exists v. split; [done|].
  by apply contents_getState.
Qed.

Lemma play_total es w :
  in_sync w → ∃ n w', (∀ m, n ≤ m → play m es w = Some w') ∧ in_sync w'.
Proof.
  revert w. induction es as [|e es IH]; intros w Hs.
  - exists 0, w. split; [done|done].
  - destruct (in_sync_state w Hs) as (v & Hst & _).
    destruct (play_one e w v Hs Hst) as (n1 & w1 & k & Hk & Hr & Hs1 & _).
    destruct (IH w1 Hs1) as (n2 & w' & Hp & Hs').
    exists (n1 `max` n2), w'. split; [|done]. intros m Hm.
    rewrite (play_cons m e es w k w1 Hk) by (apply Hr; lia).
    apply Hp. lia.
Qed.

(** The application's initial world. *)
Lemma in_sync_appWorld : in_sync appWorld.
Proof.
  split_and!.
  - apply inv_appWorld.
  - split; [vm_compute; lia|]. intros t Ht. vm_compute in Ht. by apply elem_of_nil in Ht.
  - by left.
  - apply list_elem_of_here.
  - exists initialState. split; vm_compute; reflexivity.
Qed.

Lemma store_state_appWorld : store_state appWorld = Some initialState.
Proof. vm_compute. reflexivity. Qed.

(** ** Sessions at the screen *)

Lemma play_single n e w k w' :
  happening_frame e w = Some k → run app_store n w [k] = Some (w', []) →
  play n [e] w = Some w'.
Proof. intros Hk Hr. by rewrite (play_cons n e [] w k w'). Qed.

Lemma use_cons n g gs w e w' :
  gesture_happening g w = Some e → play n [e] w = Some w' →
  use n (g :: gs) w = use n gs w'.
Proof.
  intros He Hp.
  change (use n (g :: gs) w)
    with (gesture_happening g w ≫= λ e, play n [e] w ≫= λ w', use n gs w').
  rewrite He. change (play n [e] w ≫= (λ w', use n gs w') = use n gs w').
  by rewrite Hp.
Qed.

(** A property of the shown state that every handler and the completion of
    a connect preserve holds after every session. *)
Lemma use_total (P : TransportState → Prop) gs w v :
  (∀ v c a, P v → on_click c v = Some a → P (op_result (call_op a v) v)) →
  (∀ v, P v → P (with_conn connected v)) →
  (∀ v g, P v → g ∈ gs → clickable v g) →
  in_sync w → store_state w = Some v → P v →
  ∃ n w' v', (∀ m, n ≤ m → use m gs w = Some w') ∧
             in_sync w' ∧ store_state w' = Some v' ∧ P v'.
Proof.
  intros Hcall Hconn. revert w v.
  induction gs as [|g gs IH]; intros w v Hclick Hs Hst Hp.
  - exists 0, w, v. done.
  - assert (∃ e, gesture_happening g w = Some e ∧
                 P (match e with
                    | Call a => op_result (call_op a v) v
                    | Wait t =>
                        match timers w with
                        | [(_, due)] => if due <=? t then with_conn connected v else v
                        | _ => v
                        end
                    end)) as (e & He & Hp').
    { destruct g as [c|t]; simpl.
      - destruct (Hclick v (Click c) Hp) as [a Ha]; [by left|].
        exists (Call a). rewrite Hst. simpl. rewrite Ha. simpl. split; [done|].
        by eapply Hcall.
      - exists (Wait t). split; [done|].
        destruct (timers w) as [|[id due] [|x ts]]; try done.
        destruct (due <=? t); auto. }
    destruct (play_one e w v Hs Hst) as (n1 & w1 & k & Hk & Hr & Hs1 & Hst1).
    edestruct (IH w1) as (n2 & w' & v' & Hu & Hs' & Hst' & Hp'');
      [|exact Hs1|exact Hst1|exact Hp'|].
    { intros v0 g0 Hp0 Hg0. apply Hclick; [done|by right]. }
    exists (n1 `max` n2), w', v'. split_and!; try done.
    intros m Hm. rewrite (use_cons m g gs w e w1 He).
    + apply Hu. lia.
    + apply (play_single m e w k w1 Hk). apply Hr. lia.
Qed.

(** ** What the handlers keep *)

Lemma op_result_cases o v :
  op_result o v = v ∨ ∃ ch, op_change o v = Some ch ∧ op_result o v = apply_change ch v.
Proof.
  unfold op_result. destruct (op_change o v) as [ch|]; [right; eauto|by left].
Qed.

Lemma elem_of_upd_self (f : User → User) u (us : list User) :
  (∀ x, u_id (f x) = u_id x) → u ∈ us → u_id u = 1%Z →
  ∃ u', u' ∈ upd_self f <$> us ∧ u_id u' = 1%Z.
Proof.
  intros Hf Hu Hid. exists (upd_self f u). split.
  - apply list_elem_of_fmap. by exists u.
  - unfold upd_self. rewrite decide_True by done. by rewrite Hf.
Qed.

Lemma room_ok_click v c a :
  room_ok v → on_click c v = Some a → room_ok (op_result (call_op a v) v).
Proof.
  intros (Hch & Hself & (ch & Hin & Hcur) & (u & Hu & Hid)) Hc.
  destruct c as [i| | |]; simpl in Hc.
  - destruct (channels v !! i) as [x|] eqn:Hx; [|done]. injection Hc as <-.
    unfold op_result. simpl. split_and!; try done.
    + by apply (self_in_current_change (ChJoin (ch_id x))).
    + exists x. split; [by eapply list_elem_of_lookup_2|done].
    + by apply (elem_of_upd_self _ u).
  - injection Hc as <-. unfold op_result. simpl. split_and!; try done.
    + by apply (self_in_current_change (ChMe (Some _) None)).
    + by exists ch.
    + by apply (elem_of_upd_self _ u).
  - injection Hc as <-. unfold op_result. simpl. split_and!; try done.
    + by apply (self_in_current_change (ChMe None (Some _))).
    + by exists ch.
    + by apply (elem_of_upd_self _ u).
  - injection Hc as <-. destruct (decide (connState v = connected)) as [Hcn|Hcn].
    + unfold op_result. simpl. split_and!; try done; eauto.
    + unfold op_result. simpl. rewrite decide_False by done. simpl.
      split_and!; try done; eauto.
Qed.

Lemma room_ok_connected v : room_ok v → room_ok (with_conn connected v).
Proof. done. Qed.

Lemma room_ok_initial : room_ok initialState.
Proof.
  split_and!; [done|apply self_in_current_initial| |].
  - exists (mkChannel 1 "Lobby" None). split; [apply list_elem_of_here|done].
  - exists (mkUser 1 "You" 1 None None None). split; [apply list_elem_of_here|done].
Qed.

Lemma clickable_room v g : room_ok v → clickable initialState g → clickable v g.
Proof.
  intros (Hch & _) Hg. destruct g as [[i| | |]|t]; simpl in *; try done.
  by rewrite Hch.
Qed.

Lemma clickable_same v g :
  channels v = defaultChannels → clickable initialState g → clickable v g.
Proof.
  intros Hch Hg. destruct g as [[i| | |]|t]; simpl in *; try done.
  by rewrite Hch.
Qed.

(** What the view draws in a room that makes sense. *)
Lemma room_ok_view v :
  room_ok v →
  currentChannelId v = Some (selectedChannelId v) ∧
  (∃ ch, ch ∈ channels v ∧ ch_id ch = selectedChannelId v ∧
         heading v = Some (ch_name ch)) ∧
  length (filter (λ c, active v c = true) (channels v)) = 1 ∧
  (∃ u, u ∈ usersHere v ∧ u_id u = 1%Z).
Proof.
  intros (Hch & Hself & (ch & Hin & Hcur) & (u & Hu & Hid)).
  assert (selectedChannelId v = ch_id ch) as Hsel
    by (unfold selectedChannelId; by rewrite Hcur).
  split_and!.
  - by rewrite Hsel.
  - unfold heading. rewrite Hsel.
    destruct (list_find (λ c, ch_id c = ch_id ch) (channels v)) as [[i x]|] eqn:Hf.
    + apply list_find_Some in Hf as (Hx & Hidx & _).
      exists x. split_and!; [by eapply list_elem_of_lookup_2|done|done].
    + apply list_find_None in Hf. eapply Forall_forall in Hf; [|done]. done.
  - unfold active. rewrite Hsel. rewrite Hch in Hin |- *.
    unfold defaultChannels in *. rewrite !elem_of_cons in Hin.
    destruct Hin as [->|[->|[->|Hin]]]; [done..|by apply elem_of_nil in Hin].
  - exists u. split; [|done]. unfold usersHere. apply list_elem_of_filter.
    split; [|done]. rewrite Hsel. specialize (Hself u Hu Hid).
    rewrite Hcur in Hself. by injection Hself as <-.
Qed.

(** ** The cards *)

Lemma pills_upd_self (f : User → User) u :
  u_id u ≠ 1%Z → upd_self f u = u.
Proof. intros Hid. unfold upd_self. by rewrite decide_False. Qed.

Lemma others_change ch v :
  (∀ u, u ∈ users v → u_id u ≠ 1%Z → pills u = []) →
  ∀ u, u ∈ users (apply_change ch v) → u_id u ≠ 1%Z → pills u = [].
Proof.
  intros Ho. destruct ch as [srv|cs|c|pm pd]; simpl; try done.
  - intros u (u0 & -> & Hu0)%list_elem_of_fmap. unfold upd_self.
    destruct (decide (u_id u0 = 1%Z)) as [Hid|Hid]; simpl; [done|].
    intros _. by apply Ho.
  - intros u (u0 & -> & Hu0)%list_elem_of_fmap. unfold upd_self.
    destruct (decide (u_id u0 = 1%Z)) as [Hid|Hid]; simpl; [done|].
    intros _. by apply Ho.
Qed.

Lemma cards_ok_change ch v : cards_ok v → cards_ok (apply_change ch v).
Proof.
  intros [Hm Ho]. split; [by apply mirror_change|by apply others_change].
Qed.

Lemma cards_ok_result o v : cards_ok v → cards_ok (op_result o v).
Proof.
  intros Hc. destruct (op_result_cases o v) as [->|(ch & _ & ->)]; [done|].
  by apply cards_ok_change.
Qed.

Lemma cards_ok_initial : cards_ok initialState.
Proof.
  split; [apply mirror_initial|].
  intros u Hu Hid. unfold initialState, defaultUsers in Hu. simpl in Hu.
  rewrite !elem_of_cons in Hu.
  destruct Hu as [->|[->|[->|Hu]]]; try done. by apply elem_of_nil in Hu.
Qed.

Lemma cards_ok_view v :
  cards_ok v →
  (∀ u, u ∈ users v → u_id u = 1%Z →
        pills u = (if muted (me v) then ["Muted"] else [])
                  ++ (if deafened (me v) then ["Deaf"] else [])) ∧
  (∀ u, u ∈ users v → u_id u ≠ 1%Z → pills u = []).
Proof.
  intros [Hm Ho]. split; [|done]. intros u Hu Hid.
  destruct (Hm u Hu Hid) as [H1 H2]. unfold pills. by rewrite H1, H2.
Qed.

(** ** The server the view names *)

Lemma localhost_only_click v c a :
  localhost_only v → on_click c v = Some a →
  localhost_only (op_result (call_op a v) v).
Proof.
  intros [Hne Hsrv] Hc. destruct c as [i| | |]; simpl in Hc.
  - destruct (channels v !! i) as [x|]; [|done]. by injection Hc as <-.
  - by injection Hc as <-.
  - by injection Hc as <-.
  - injection Hc as <-. destruct (decide (connState v = connected)) as [Hcn|Hcn].
    + unfold op_result. simpl. done.
    + unfold op_result. simpl. rewrite decide_False by done. simpl.
      split; [done|by right].
Qed.

Lemma localhost_only_connected v : localhost_only v → localhost_only (with_conn connected v).
Proof. intros [Hne Hsrv]. done. Qed.

(** ** Toggling twice *)

Lemma merge_me_same (m : MeState) pm pd :
  default (muted m) pm = muted m → default (deafened m) pd = deafened m →
  merge_me pm pd m = m.
Proof. unfold merge_me. intros -> ->. by destruct m. Qed.

Lemma updateMe_same pm pd v :
  strict_mirror v →
  default (muted (me v)) pm = muted (me v) →
  default (deafened (me v)) pd = deafened (me v) →
  updateMe_v pm pd v = v.
Proof.
  intros Hm H1 H2. unfold updateMe_v. rewrite merge_me_same by done.
  destruct v as [cs srv cur m chs us]. simpl in *. f_equal.
  rewrite <- (list_fmap_id us) at 2. apply list_fmap_ext. intros i u Hu. simpl.
  unfold upd_self. destruct (decide (u_id u = 1%Z)) as [Hid|Hid]; [|done].
  destruct (Hm u) as [Hmu Hde]; [by eapply list_elem_of_lookup_2|done|].
  destruct u. simpl in *. by subst.
Qed.

(** ** Invariants of the transport's state *)

(** X1. The mock never changes its directory.  Along every run from a
    well-formed configuration, whatever the listeners do, the state and
    every snapshot built during the run have the channels the state started
    with, and the same users in the same order: same ids, names and
    [talking] flags, and every entry other than the self user's (id 1)
    exactly as it was ([joinChannel] and [updateMe] map over [users] and
    replace only entries with id 1). *)
Theorem directory_is_fixed {C} (B : behaviour C) (w : World C) stk v n w' stk' :
  cinv w stk → contents w = Some v → run B n w stk = Some (w', stk') →
  since (trace w) (same_directory v) w'.
Proof.
  intros Hc Hv Hr.
  eapply (run_since B (same_directory v)); [|done| |done].
  - intros ch v1. apply same_directory_change.
  - apply (since_start (same_directory v) w v); [done|apply same_directory_refl].
Qed.

Lemma directory_is_fixed_witness :
  cinv (createMockTransport tt) sessionScript ∧
  run onlookers 20 (createMockTransport tt) sessionScript = Some (sessionWorld, []) ∧
  since [] (same_directory initialState) sessionWorld.
Proof.
  assert (cinv (createMockTransport tt) sessionScript) as Hc
    by (apply cinv_create; repeat constructor).
  assert (run onlookers 20 (createMockTransport tt) sessionScript
          = Some (sessionWorld, [])) as Hr by (vm_compute; reflexivity).
  split; [assumption|]. split; [assumption|].
  exact (directory_is_fixed onlookers (createMockTransport tt) sessionScript
           initialState 20 sessionWorld [] Hc eq_refl Hr).
Defined.

(** X2. The self user is always in the current channel.  A fresh transport
    has [currentChannelId] equal to the [channelId] of its user entry with
    id 1; and from any well-formed configuration in which that holds,
    along every run and whatever the listeners do, it holds of the state and
    of every snapshot built during the run. *)
Theorem self_stays_in_current_channel {C} (B : behaviour C) (w : World C)
    stk v n w' stk' :
  cinv w stk → contents w = Some v → self_in_current v →
  run B n w stk = Some (w', stk') →
  self_in_current initialState ∧ since (trace w) self_in_current w'.
Proof.
  intros Hc Hv Hs Hr. split; [apply self_in_current_initial|].
  eapply (run_since B self_in_current); [|done| |done].
  - apply self_in_current_change.
  - by apply (since_start self_in_current w v).
Qed.

Lemma self_stays_in_current_channel_witness :
  cinv (createMockTransport tt) sessionScript ∧
  self_in_current initialState ∧
  run onlookers 20 (createMockTransport tt) sessionScript = Some (sessionWorld, []) ∧
  since [] self_in_current sessionWorld.
Proof.
  assert (cinv (createMockTransport tt) sessionScript) as Hc
    by (apply cinv_create; repeat constructor).
  assert (run onlookers 20 (createMockTransport tt) sessionScript
          = Some (sessionWorld, [])) as Hr by (vm_compute; reflexivity).
  destruct (self_stays_in_current_channel onlookers (createMockTransport tt)
              sessionScript initialState 20 sessionWorld [] Hc eq_refl
              self_in_current_initial Hr) as [H1 H2].
  split_and!; assumption.
Defined.

(** X3. From the first [setMute] or [setDeafen] on, the self user's flags
    are present.  Once either method has run, in the state and in every
    snapshot built from that call on (its own included), every user entry
    with id 1 has [muted] and [deafened] present and equal to [me.muted]
    and [me.deafened], however the run goes on and whatever the listeners
    do. *)
Theorem flags_present_after_first_write {C} (B : behaviour C) (w : World C)
    o stk n w' stk' :
  cinv w (KOp o :: stk) → (∃ b, o = SetMute b ∨ o = SetDeafen b) →
  run B (S n) w (KOp o :: stk) = Some (w', stk') →
  since (trace w) strict_mirror w'.
Proof.
  intros Hc (b & Ho) Hr. pose proof Hc as [([v Hv] & _) _].
  rewrite run_S in Hr.
  destruct (step B w (KOp o)) as [[w1 ks]|] eqn:Hs; [|done]. simpl in Hr.
  pose proof (step_spec_ok B w (KOp o) stk v w1 ks Hc Hv Hs) as Hspec.
  destruct (step_cinv B w (KOp o) stk Hc) as (w1' & ks' & Hs' & Hc1 & _).
  rewrite Hs in Hs'. injection Hs' as <- <-.
  assert (∃ pm pd snap, emitted w w1 (updateMe_v pm pd v) snap)
    as (pm & pd & snap & Hv1 & _ & Ht1 & _).
  { destruct Ho as [->| ->]; simpl in Hspec;
      destruct Hspec as (snap & _ & He); eauto. }
  eapply (run_since B strict_mirror); [apply strict_mirror_change|done| |done].
  split.
  - eexists. split; [done|apply strict_mirror_updateMe].
  - exists [EvSnapshot FromUpdate snap (updateMe_v pm pd v)]. split; [done|].
    intros src r v' Hin. apply list_elem_of_singleton in Hin.
    injection Hin as _ _ ->. apply strict_mirror_updateMe.
Qed.

Lemma flags_present_after_first_write_witness :
  cinv (createMockTransport tt) [KOp (SetMute true); KOp (JoinChannel 2)] ∧
  run onlookers 6 (createMockTransport tt) [KOp (SetMute true); KOp (JoinChannel 2)]
    = Some (world_after onlookers tt 6 [KOp (SetMute true); KOp (JoinChannel 2)], []) ∧
  since [] strict_mirror
        (world_after onlookers tt 6 [KOp (SetMute true); KOp (JoinChannel 2)]).
Proof.
  assert (cinv (createMockTransport tt) [KOp (SetMute true); KOp (JoinChannel 2)])
    as Hc by (apply cinv_create; repeat constructor).
  assert (run onlookers 6 (createMockTransport tt)
              [KOp (SetMute true); KOp (JoinChannel 2)]
          = Some (world_after onlookers tt 6
                    [KOp (SetMute true); KOp (JoinChannel 2)], []))
    as Hr by (vm_compute; reflexivity).
  split; [assumption|]. split; [assumption|].
  apply (flags_present_after_first_write onlookers (createMockTransport tt)
           (SetMute true) [KOp (JoinChannel 2)] 5 _ [] Hc); [|exact Hr].
  exists true. by left.
Defined.

(** X4. The connection state of the mock.  Along every run of a client
    script on a fresh transport, whatever the listeners do: the state is
    never "error"; whenever it is "connecting" or "connected" a current
    server is set (the one named by a [connect]); the same holds in every
    snapshot built; and a server is set whenever a completion is pending. *)
Theorem connection_lifecycle {C} (B : behaviour C) (c : C) script n w stk :
  Forall client_frame script →
  run B n (createMockTransport c) script = Some (w, stk) →
  (∃ v, getState w = Some v ∧ conn_ok v ∧
        (timers w ≠ [] → is_Some (currentServer v))) ∧
  (∀ src r v, EvSnapshot src r v ∈ trace w → conn_ok v).
Proof.
  intros Hscript Hrun.
  assert (conn_inv w stk) as [(v & Hv & Hne & Hsrv) Htr].
  { eapply (run_invariant B conn_inv); [|by apply cinv_create| |done].
    - intros. by eapply step_conn_inv.
    - by apply conn_inv_create. }
  split; [|done]. exists v. split_and!.
  - by apply contents_getState.
  - split; [done|]. intros. apply Hsrv. by left.
  - intros. apply Hsrv. right. by left.
Qed.

Lemma connection_lifecycle_witness :
  Forall client_frame [KOp (Subscribe 0); KOp (Connect (mkParams "s" None)); KAdvance 400] ∧
  ∃ v, getState (world_after hasty tt 30
                   [KOp (Subscribe 0); KOp (Connect (mkParams "s" None)); KAdvance 400])
       = Some v ∧ conn_ok v.
Proof.
  assert (Forall client_frame
            [KOp (Subscribe 0); KOp (Connect (mkParams "s" None)); KAdvance 400])
    as Hs by repeat constructor.
  assert (run hasty 30 (createMockTransport tt)
              [KOp (Subscribe 0); KOp (Connect (mkParams "s" None)); KAdvance 400]
          = Some (world_after hasty tt 30
                    [KOp (Subscribe 0); KOp (Connect (mkParams "s" None)); KAdvance 400], []))
    as Hr by (vm_compute; reflexivity).
  split; [assumption|].
  destruct (connection_lifecycle hasty tt _ 30 _ [] Hs Hr) as [(v & Hv & Hok & _) _].
  exists v. split; assumption.
Defined.

(** X5. At most one completion is ever pending.  Along every run of a client
    script on a fresh transport, whatever the listeners do (calling
    [connect] and [disconnect] from their callbacks included), the host
    holds at most one timer of the transport; it is the one
    [this.connectTimer] names, and it is due after now and at most
    [latency] ms from now. *)
Theorem one_completion_pending {C} (B : behaviour C) (c : C) script n w stk :
  Forall client_frame script →
  run B n (createMockTransport c) script = Some (w, stk) →
  length (timers w) ≤ 1 ∧
  ∀ id due, (id, due) ∈ timers w →
    connectTimer w = Some id ∧ now w < due ≤ now w + latency.
Proof.
  intros Hscript Hrun.
  assert (timers_ok w ∧ one_pending w) as [_ Hone].
  { eapply (run_invariant B (λ w _, timers_ok w ∧ one_pending w));
      [|by apply cinv_create| |done].
    - intros. by eapply step_one_pending.
    - split; [apply timers_ok_create|apply one_pending_create]. }
  destruct Hone as [->|(id & due & -> & Hct & Hdue)].
  - split; [simpl; lia|]. intros id due Hin. by apply elem_of_nil in Hin.
  - split; [simpl; lia|]. intros id' due' Hin.
    apply list_elem_of_singleton in Hin. by injection Hin as -> ->.
Qed.

Lemma one_completion_pending_witness :
  Forall client_frame
    [KOp (Connect (mkParams "a" None)); KAdvance 100; KOp (Connect (mkParams "b" None))] ∧
  timers (world_after onlookers tt 10
            [KOp (Connect (mkParams "a" None)); KAdvance 100;
             KOp (Connect (mkParams "b" None))]) = [(2, 500)] ∧
  length (timers (world_after onlookers tt 10
            [KOp (Connect (mkParams "a" None)); KAdvance 100;
             KOp (Connect (mkParams "b" None))])) ≤ 1.
Proof.
  assert (Forall client_frame
            [KOp (Connect (mkParams "a" None)); KAdvance 100;
             KOp (Connect (mkParams "b" None))]) as Hs by repeat constructor.
  assert (run onlookers 10 (createMockTransport tt)
              [KOp (Connect (mkParams "a" None)); KAdvance 100;
               KOp (Connect (mkParams "b" None))]
          = Some (world_after onlookers tt 10
                    [KOp (Connect (mkParams "a" None)); KAdvance 100;
                     KOp (Connect (mkParams "b" None))], []))
    as Hr by (vm_compute; reflexivity).
  split; [assumption|]. split; [vm_compute; reflexivity|].
  exact (proj1 (one_completion_pending onlookers tt _ 10 _ [] Hs Hr)).
Defined.

(** X6. A listener is in the set at most once, and is called once per
    emission.  Along every run, whatever the listeners do and however often
    [subscribe] is called with the same listener, the listener set holds no
    listener twice.  So when a method that updates the state runs to
    completion with listeners that only look, each listener in the set is
    called exactly once with the snapshot of that update, and a listener
    that is not in the set is not called. *)
Theorem listeners_called_once {C} (B : behaviour C) (w : World C) :
  NoDup (live_from 0 (listeners w)) →
  (∀ n stk w' stk', run B n w stk = Some (w', stk') →
                    NoDup (live_from 0 (listeners w'))) ∧
  (readonly B → inv w →
   ∀ o v ch, contents w = Some v → op_change o v = Some ch →
     ∃ w' snap,
       completes B w [KOp o] w' ∧ getState w' = Some (apply_change ch v) ∧
       ∀ l, calls_of l (trace w')
            = calls_of l (trace w)
              ++ (if bool_decide (Some l ∈ listeners w)
                  then [(snap, apply_change ch v)] else [])).
Proof.
  intros Hnd. split.
  - intros n stk w' stk'. by apply run_listeners_NoDup.
  - intros Hro Hinv o v ch Hv Hch.
    assert (updates o) as Hup by (by destruct o).
    destruct (run_op B w o v Hro Hinv Hv Hup)
      as (w' & Hr & Hinv' & Hc' & Hl' & _ & _ & _ & Hrest).
    unfold op_result in Hc', Hrest. rewrite Hch in Hc', Hrest.
    destruct Hrest as (snap & Hs & Htr & _).
    exists w', snap. split_and!.
    + by apply reaches_completes.
    + by apply contents_getState.
    + intros l. rewrite Htr, calls_of_pass by done.
      rewrite calls_of_snapshot. f_equal.
      rewrite (bool_decide_ext (l ∈ live_from 0 (listeners w)) (Some l ∈ listeners w));
        [done|apply elem_of_live].
Qed.

Lemma listeners_called_once_witness :
  NoDup (live_from 0 (listeners (world_after onlookers tt 6
                                   [KOp (Subscribe 4); KOp (Subscribe 4)]))) ∧
  listeners (world_after onlookers tt 6 [KOp (Subscribe 4); KOp (Subscribe 4)])
    = [Some 4] ∧
  ∃ w' snap v',
    completes onlookers
      (world_after onlookers tt 6 [KOp (Subscribe 4); KOp (Subscribe 4)])
      [KOp (JoinChannel 3)] w' ∧
    calls_of 4 (trace w')
    = calls_of 4 (trace (world_after onlookers tt 6
                           [KOp (Subscribe 4); KOp (Subscribe 4)]))
      ++ [(snap, v')].
Proof.
  set (w := world_after onlookers tt 6 [KOp (Subscribe 4); KOp (Subscribe 4)]).
  assert (run onlookers 6 (createMockTransport tt)
              [KOp (Subscribe 4); KOp (Subscribe 4)] = Some (w, []))
    as Hr by (vm_compute; reflexivity).
  assert (NoDup (live_from 0 (listeners w))) as Hnd
    by (vm_compute; apply NoDup_singleton).
  assert (inv w) as Hinv.
  { assert (Forall client_frame [KOp (Subscribe 4); KOp (Subscribe 4)]) as Hs
      by repeat constructor.
    exact (proj1 (reachable_cinv onlookers tt _ 6 w [] Hs Hr)). }
  pose proof Hinv as ([v Hv] & _).
  split; [exact Hnd|]. split; [vm_compute; reflexivity|].
  destruct (listeners_called_once onlookers w Hnd) as [_ H].
  destruct (H readonly_onlookers Hinv (JoinChannel 3) v (ChJoin 3) Hv eq_refl)
    as (w' & snap & Hc & _ & Hcalls).
  exists w', snap, (apply_change (ChJoin 3) v). split; [exact Hc|].
  exact (Hcalls 4).
Defined.

(** X7. [disconnect()] has no guard.  From every state, [disconnect()] run
    to completion with listeners that only look leaves "disconnected",
    keeps [currentServer] and every other field as it was, leaves no
    completion pending, and hands one new snapshot to every listener in
    the set; this also when the state was "disconnected" already, in which
    case the state it leaves has the contents it had. *)
Theorem disconnect_always_notifies {C} (B : behaviour C) (w : World C) v :
  readonly B → inv w → timers_ok w → contents w = Some v →
  ∃ w' snap v',
    completes B w [KOp Disconnect] w' ∧
    getState w' = Some v' ∧ v' = with_conn disconnected v ∧
    currentServer v' = currentServer v ∧
    (connState v = disconnected → v' = v) ∧
    timers w' = [] ∧
    trace w' = reverse ((λ l, EvCall l snap v') <$> live_from 0 (listeners w))
               ++ EvSnapshot FromUpdate snap v' :: trace w.
Proof.
  intros Hro Hinv Hok Hv.
  destruct (disconnect_settled B w v Hro Hinv Hok Hv)
    as (w' & snap & Hr & _ & _ & Hc' & Hts & _ & _ & _ & Htr).
  exists w', snap, (with_conn disconnected v). split_and!; try done.
  - by apply reaches_completes.
  - by apply contents_getState.
  - intros Hd. destruct v. simpl in *. by subst.
Qed.

Lemma disconnect_always_notifies_witness :
  inv (createMockTransport tt) ∧ timers_ok (createMockTransport tt) ∧
  ∃ w' snap,
    completes onlookers (createMockTransport tt) [KOp Disconnect] w' ∧
    getState w' = Some initialState ∧
    trace w' = [EvSnapshot FromUpdate snap initialState].
Proof.
  split; [apply inv_create|]. split; [apply timers_ok_create|].
  destruct (disconnect_always_notifies onlookers (createMockTransport tt) initialState
              readonly_onlookers (inv_create tt) (timers_ok_create tt) eq_refl)
    as (w' & snap & v' & Hc & Hg & -> & _ & _ & _ & Htr).
  exists w', snap. split_and!; assumption.
Defined.

(** X8. Muting and deafening are independent and commute.  With listeners
    that only look, [setMute(a)] leaves [me.deafened] as it was and
    [setDeafen(b)] leaves [me.muted] as it was (deafening does not mute);
    and [setMute(a)] followed by [setDeafen(b)] ends in the same state as
    [setDeafen(b)] followed by [setMute(a)], with [me = {muted: a,
    deafened: b}]. *)
Theorem mute_and_deafen_commute {C} (B : behaviour C) (w : World C) v a b :
  readonly B → inv w → contents w = Some v →
  (∃ w1 v1, completes B w [KOp (SetMute a)] w1 ∧ getState w1 = Some v1 ∧
            me v1 = mkMe a (deafened (me v))) ∧
  (∃ w2 v2, completes B w [KOp (SetDeafen b)] w2 ∧ getState w2 = Some v2 ∧
            me v2 = mkMe (muted (me v)) b) ∧
  (∃ w3 w4 v',
     completes B w [KOp (SetMute a); KOp (SetDeafen b)] w3 ∧
     completes B w [KOp (SetDeafen b); KOp (SetMute a)] w4 ∧
     getState w3 = Some v' ∧ getState w4 = Some v' ∧ me v' = mkMe a b).
Proof.
  intros Hro Hinv Hv. split_and!.
  - destruct (run_one_op B w (SetMute a) v Hro Hinv Hv I) as (w1 & Hc & _ & Hc1).
    exists w1, (op_result (SetMute a) v). split_and!; [done| |done].
    by apply contents_getState.
  - destruct (run_one_op B w (SetDeafen b) v Hro Hinv Hv I) as (w1 & Hc & _ & Hc1).
    exists w1, (op_result (SetDeafen b) v). split_and!; [done| |done].
    by apply contents_getState.
  - destruct (run_two_ops B w (SetMute a) (SetDeafen b) v Hro Hinv Hv I I)
      as (w3 & Hc3 & _ & Hv3).
    destruct (run_two_ops B w (SetDeafen b) (SetMute a) v Hro Hinv Hv I I)
      as (w4 & Hc4 & _ & Hv4).
    exists w3, w4, (updateMe_v (Some a) (Some b) v).
    unfold op_result in Hv3, Hv4. simpl in Hv3, Hv4.
    rewrite updateMe_updateMe in Hv3, Hv4. simpl in Hv3, Hv4.
    split_and!; [done|done| | |done]; by apply contents_getState.
Qed.

Lemma mute_and_deafen_commute_witness :
  inv (createMockTransport tt) ∧
  ∃ w3 w4 v',
    completes onlookers (createMockTransport tt)
      [KOp (SetMute true); KOp (SetDeafen true)] w3 ∧
    completes onlookers (createMockTransport tt)
      [KOp (SetDeafen true); KOp (SetMute true)] w4 ∧
    getState w3 = Some v' ∧ getState w4 = Some v' ∧ me v' = mkMe true true.
Proof.
  split; [apply inv_create|].
  exact (proj2 (proj2 (mute_and_deafen_commute onlookers (createMockTransport tt)
                         initialState true true readonly_onlookers
                         (inv_create tt) eq_refl))).
Defined.

(** X9. The last [joinChannel] wins, and joining commutes with muting.  With
    listeners that only look, [joinChannel(c)] followed by
    [joinChannel(c')] ends in the same state as [joinChannel(c')] alone, and
    [joinChannel(c)] followed by [setMute(b)] ends in the same state as
    [setMute(b)] followed by [joinChannel(c)]. *)
Theorem joinChannel_last_wins {C} (B : behaviour C) (w : World C) v c c' b :
  readonly B → inv w → contents w = Some v →
  (∃ w1 w2 v',
     completes B w [KOp (JoinChannel c); KOp (JoinChannel c')] w1 ∧
     completes B w [KOp (JoinChannel c')] w2 ∧
     getState w1 = Some v' ∧ getState w2 = Some v') ∧
  (∃ w3 w4 v',
     completes B w [KOp (JoinChannel c); KOp (SetMute b)] w3 ∧
     completes B w [KOp (SetMute b); KOp (JoinChannel c)] w4 ∧
     getState w3 = Some v' ∧ getState w4 = Some v').
Proof.
  intros Hro Hinv Hv. split.
  - destruct (run_two_ops B w (JoinChannel c) (JoinChannel c') v Hro Hinv Hv I I)
      as (w1 & Hc1 & _ & Hv1).
    destruct (run_one_op B w (JoinChannel c') v Hro Hinv Hv I) as (w2 & Hc2 & _ & Hv2).
    exists w1, w2, (join_v c' v).
    unfold op_result in Hv1, Hv2. simpl in Hv1, Hv2. rewrite join_join in Hv1.
    split_and!; [done|done| |]; by apply contents_getState.
  - destruct (run_two_ops B w (JoinChannel c) (SetMute b) v Hro Hinv Hv I I)
      as (w3 & Hc3 & _ & Hv3).
    destruct (run_two_ops B w (SetMute b) (JoinChannel c) v Hro Hinv Hv I I)
      as (w4 & Hc4 & _ & Hv4).
    exists w3, w4, (join_v c (updateMe_v (Some b) None v)).
    unfold op_result in Hv3, Hv4. simpl in Hv3, Hv4. rewrite join_updateMe in Hv3.
    split_and!; [done|done| |]; by apply contents_getState.
Qed.

Lemma joinChannel_last_wins_witness :
  inv (createMockTransport tt) ∧
  ∃ w1 w2 v',
    completes onlookers (createMockTransport tt)
      [KOp (JoinChannel 3); KOp (JoinChannel 2)] w1 ∧
    completes onlookers (createMockTransport tt) [KOp (JoinChannel 2)] w2 ∧
    getState w1 = Some v' ∧ getState w2 = Some v'.
Proof.
  split; [apply inv_create|].
  exact (proj1 (joinChannel_last_wins onlookers (createMockTransport tt)
                  initialState 3%Z 2%Z true readonly_onlookers
                  (inv_create tt) eq_refl)).
Defined.

(** X10. The transport never writes to a snapshot it has handed out.  Along
    every run in which no consumer writes to a snapshot, whatever else the
    listeners do, every snapshot that existed at the start still holds what
    it held then, and every snapshot built during the run holds what it was
    built with: later updates build new objects and leave the old ones
    alone. *)
Theorem snapshots_are_stable {C} (B : behaviour C) (w : World C) stk n w' stk' :
  cinv w stk → nomut B → Forall (λ k, ¬ is_mutate k) stk →
  run B n w stk = Some (w', stk') →
  (∀ r, r ∈ snapshot_roots (trace w) → view (heap_of w') r = view (heap_of w) r) ∧
  ∃ new, trace w' = new ++ trace w ∧ intact w' new.
Proof.
  intros Hc Hnm Hstk Hrun.
  set (tr0 := omap (λ e, match e with
                         | EvSnapshot src r _ =>
                             EvSnapshot src r <$> view (heap_of w) r
                         | _ => None
                         end) (trace w)).
  assert (intact w tr0) as Hi0.
  { intros src r v Hin. unfold tr0 in Hin. apply list_elem_of_omap in Hin
      as ([src' r' v'|] & _ & Heq); [|done].
    destruct (view (heap_of w) r') as [v0|] eqn:E; [|done].
    by injection Heq as -> -> ->. }
  assert (Forall (λ k, ¬ is_mutate k) stk' ∧ intact w' tr0 ∧
          ∃ new, trace w' = new ++ trace w ∧ intact w' new) as (_ & Hi & Hnew).
  { eapply (run_invariant B
              (λ w1 stk1, Forall (λ k, ¬ is_mutate k) stk1 ∧ intact w1 tr0 ∧
                          ∃ new, trace w1 = new ++ trace w ∧ intact w1 new));
      [|done| |done].
    - intros w1 k stk1 w2 ks Hc1 (Hst1 & Hi1 & new & Htr1 & Hnew1) Hs.
      apply Forall_cons in Hst1 as [Hk Hst1].
      split; [apply Forall_app; split; [by eapply step_frames_nomut|done]|].
      split; [by eapply step_intact|].
      pose proof (step_intact B w1 k stk1 w2 ks new Hc1 Hk Hnew1 Hs) as Hnew2.
      destruct (step_effect B w1 k stk1 w2 ks Hc1 Hs)
        as [Hh Hst Ht|src r v0 Hv0 Hv' Hr Ht Hpre|ch snap v0 Hv0 Hv' Hr Ht Hpre
           |l snap vs Hkeq Hvs Hh Hst Ht|t m Hkeq Hin Hh Hst Ht].
      + exists new. by rewrite Ht.
      + exists (EvSnapshot src r v0 :: new). rewrite Ht, Htr1. split; [done|].
        intros src' r' v'. rewrite elem_of_cons.
        intros [[= -> -> ->]|Hin]; [done|by eapply Hnew2].
      + exists (EvSnapshot FromUpdate snap (apply_change ch v0) :: new).
        rewrite Ht, Htr1. split; [done|].
        intros src' r' v'. rewrite elem_of_cons.
        intros [[= -> -> ->]|Hin]; [done|by eapply Hnew2].
      + exists (EvCall l snap vs :: new). rewrite Ht, Htr1. split; [done|].
        intros src' r' v'. rewrite elem_of_cons.
        intros [[=]|Hin]. by eapply Hnew2.
      + subst k. by destruct Hk.
    - split; [done|]. split; [done|]. exists []. split; [done|].
      intros src r v Hin. by apply elem_of_nil in Hin. }
  split; [|done]. intros r Hr.
  destruct Hc as [(_ & Hsn & _) _]. destruct (Hsn r Hr) as [[v Hv] _].
  apply elem_of_snapshot_roots in Hr as (src & v1 & Hin).
  rewrite Hv. apply (Hi src). unfold tr0. apply list_elem_of_omap.
  exists (EvSnapshot src r v1). split; [done|]. by rewrite Hv.
Qed.

Lemma snapshots_are_stable_witness :
  cinv (createMockTransport tt) sessionScript ∧
  nomut (@onlookers unit) ∧
  run onlookers 20 (createMockTransport tt) sessionScript = Some (sessionWorld, []) ∧
  ∃ new, trace sessionWorld = new ++ [] ∧ intact sessionWorld new.
Proof.
  assert (cinv (createMockTransport tt) sessionScript) as Hc
    by (apply cinv_create; repeat constructor).
  assert (nomut (@onlookers unit)) as Hnm.
  { intros l s v c a Ha. by apply elem_of_nil in Ha. }
  assert (Forall (λ k, ¬ is_mutate k) sessionScript) as Hst
    by (repeat constructor; by intros []).
  assert (run onlookers 20 (createMockTransport tt) sessionScript
          = Some (sessionWorld, [])) as Hr by (vm_compute; reflexivity).
  split; [assumption|]. split; [assumption|]. split; [assumption|].
  exact (proj2 (snapshots_are_stable onlookers (createMockTransport tt) sessionScript
                  20 sessionWorld [] Hc Hnm Hst Hr)).
Defined.

(** ** The store *)

(** X11. The store always shows the transport's state.  From a world in
    which the store is subscribed and shows what [getState()] returns,
    every session of store calls ([connect], [disconnect],
    [selectChannel], [toggleMute], [toggleDeafen]) and of time passing runs
    to completion, and at its end the store again shows exactly what
    [getState()] returns.  The world the application starts in is such a
    world. *)
Theorem store_follows_transport (w : World (option AppState)) es :
  in_sync w →
  in_sync appWorld ∧
  ∃ n w' v,
    (∀ m, n ≤ m → play m es w = Some w') ∧
    in_sync w' ∧ store_state w' = Some v ∧ getState w' = Some v.
Proof.
  intros Hs. split; [apply in_sync_appWorld|].
  destruct (play_total es w Hs) as (n & w' & Hp & Hs').
  destruct (in_sync_state w' Hs') as (v & Hst & Hg).
  by exists n, w', v.
Qed.

Lemma store_follows_transport_witness :
  in_sync appWorld ∧
  ∃ n w' v,
    (∀ m, n ≤ m →
       play m [Call (SConnect "example.org"); Call SToggleMute; Wait 1000;
               Call (SSelectChannel 3)] appWorld = Some w') ∧
    store_state w' = Some v ∧ getState w' = Some v.
Proof.
  split; [apply in_sync_appWorld|].
  destruct (store_follows_transport appWorld
              [Call (SConnect "example.org"); Call SToggleMute; Wait 1000;
               Call (SSelectChannel 3)] in_sync_appWorld)
    as (_ & n & w' & v & Hp & _ & Hst & Hg).
  exists n, w', v. split_and!; assumption.
Defined.

(** X12. [toggleDeafen] is an involution and leaves [muted] alone.  When the
    store shows the transport's state [v], [toggleDeafen()] calls
    [setDeafen] with the negation of the [me.deafened] it shows, after which
    the store shows [me.deafened] negated and [me.muted] as it was; a second
    [toggleDeafen()] shows the original [me] again, and, if the self user's
    flags were present to begin with, the original state altogether. *)
Theorem toggleDeafen_twice (w : World (option AppState)) v :
  in_sync w → store_state w = Some v →
  ∃ n w1 w2 v1 v2,
    toggleDeafen w = Some (KOp (SetDeafen (negb (deafened (me v))))) ∧
    (∀ m, n ≤ m → play m [Call SToggleDeafen] w = Some w1) ∧
    store_state w1 = Some v1 ∧
    me v1 = mkMe (muted (me v)) (negb (deafened (me v))) ∧
    (∀ m, n ≤ m → play m [Call SToggleDeafen] w1 = Some w2) ∧
    store_state w2 = Some v2 ∧ me v2 = me v ∧
    (strict_mirror v → v2 = v).
Proof.
  intros Hs Hst.
  destruct (play_one (Call SToggleDeafen) w v Hs Hst)
    as (n1 & w1 & k1 & Hk1 & Hr1 & Hs1 & Hst1).
  destruct (play_one (Call SToggleDeafen) w1 _ Hs1 Hst1)
    as (n2 & w2 & k2 & Hk2 & Hr2 & Hs2 & Hst2).
  unfold op_result in Hst1, Hst2. simpl in Hst1, Hst2.
  rewrite negb_involutive, updateMe_updateMe in Hst2. simpl in Hst2.
  exists (n1 `max` n2), w1, w2,
         (updateMe_v None (Some (negb (deafened (me v)))) v),
         (updateMe_v None (Some (deafened (me v))) v).
  split_and!.
  - apply (store_frame_call SToggleDeafen w v Hst).
  - intros m Hm. apply (play_single m _ w k1 w1 Hk1). apply Hr1. lia.
  - exact Hst1.
  - done.
  - intros m Hm. apply (play_single m _ w1 k2 w2 Hk2). apply Hr2. lia.
  - exact Hst2.
  - simpl. by destruct (me v).
  - intros Hm. by apply updateMe_same.
Qed.

Lemma toggleDeafen_twice_witness :
  in_sync appWorld ∧ store_state appWorld = Some initialState ∧
  ∃ n w1 w2 v1,
    (∀ m, n ≤ m → play m [Call SToggleDeafen] appWorld = Some w1) ∧
    store_state w1 = Some v1 ∧ me v1 = mkMe false true ∧
    (∀ m, n ≤ m → play m [Call SToggleDeafen] w1 = Some w2) ∧
    ∃ v2, store_state w2 = Some v2 ∧ me v2 = mkMe false false.
Proof.
  split; [apply in_sync_appWorld|]. split; [apply store_state_appWorld|].
  destruct (toggleDeafen_twice appWorld initialState in_sync_appWorld
              store_state_appWorld)
    as (n & w1 & w2 & v1 & v2 & _ & H1 & H2 & H3 & H4 & H5 & H6 & _).
  exists n, w1, w2, v1. split_and!; try assumption.
  exists v2. split; assumption.
Defined.

(** ** The view *)

(** X13. The room on the screen always exists and the user is in it.  In
    every session at the screen that starts with the application (clicks on
    the buttons that are drawn, and waiting), the session runs to
    completion, and in the state the store then shows: [currentChannelId]
    is present, so line 27 never falls back to the first channel or to 0;
    it is the id of a channel in the list, whose name is the heading (line
    121 never finds nothing); exactly one channel button is drawn as
    active; and the self user's card is among the cards of the room. *)
Theorem room_is_always_shown gs :
  Forall (clickable initialState) gs →
  ∃ n w' v,
    (∀ m, n ≤ m → use m gs appWorld = Some w') ∧
    store_state w' = Some v ∧ getState w' = Some v ∧
    currentChannelId v = Some (selectedChannelId v) ∧
    (∃ ch, ch ∈ channels v ∧ ch_id ch = selectedChannelId v ∧
           heading v = Some (ch_name ch)) ∧
    length (filter (λ c, active v c = true) (channels v)) = 1 ∧
    (∃ u, u ∈ usersHere v ∧ u_id u = 1%Z).
Proof.
  intros Hgs.
  destruct (use_total room_ok gs appWorld initialState)
    as (n & w' & v & Hu & Hs' & Hst & Hroom).
  - apply room_ok_click.
  - apply room_ok_connected.
  - intros v g Hv Hg. apply clickable_room; [done|].
    by eapply Forall_forall in Hgs.
  - apply in_sync_appWorld.
  - apply store_state_appWorld.
  - apply room_ok_initial.
  - destruct (in_sync_state w' Hs') as (v0 & Hst0 & Hg0).
    rewrite Hst in Hst0. injection Hst0 as <-.
    destruct (room_ok_view v Hroom) as (H1 & H2 & H3 & H4).
    by exists n, w', v.
Qed.

Lemma room_is_always_shown_witness :
  Forall (clickable initialState)
    [Click (ClickChannel 2); Click ClickMute; Click ClickConnect; Idle 500] ∧
  ∃ n w' v,
    (∀ m, n ≤ m →
       use m [Click (ClickChannel 2); Click ClickMute; Click ClickConnect; Idle 500]
           appWorld = Some w') ∧
    store_state w' = Some v ∧
    (∃ ch, ch ∈ channels v ∧ ch_id ch = selectedChannelId v ∧
           heading v = Some (ch_name ch)) ∧
    (∃ u, u ∈ usersHere v ∧ u_id u = 1%Z).
Proof.
  assert (Forall (clickable initialState)
            [Click (ClickChannel 2); Click ClickMute; Click ClickConnect; Idle 500])
    as Hgs.
  { repeat constructor; simpl; by eexists. }
  split; [assumption|].
  destruct (room_is_always_shown _ Hgs) as (n & w' & v & H1 & H2 & _ & _ & H4 & _ & H6).
  exists n, w', v. split_and!; assumption.
Defined.

(** X14. The cards agree with the controls.  In every session at the screen
    that starts with the application, in the state the store shows at the
    end: the self user's card carries the "Muted" pill exactly when
    [me.muted] is set (when the mute button reads "Muted") and the "Deaf"
    pill exactly when [me.deafened] is set, an absent flag drawing no pill;
    and no other user's card carries a pill. *)
Theorem cards_match_controls gs :
  Forall (clickable initialState) gs →
  ∃ n w' v,
    (∀ m, n ≤ m → use m gs appWorld = Some w') ∧
    store_state w' = Some v ∧
    (∀ u, u ∈ users v → u_id u = 1%Z →
          pills u = (if muted (me v) then ["Muted"] else [])
                    ++ (if deafened (me v) then ["Deaf"] else [])) ∧
    (∀ u, u ∈ users v → u_id u ≠ 1%Z → pills u = []) ∧
    (muteLabel v = "Muted" ↔ muted (me v) = true) ∧
    (deafenLabel v = "Deaf" ↔ deafened (me v) = true).
Proof.
  intros Hgs.
  destruct (use_total (λ v, channels v = defaultChannels ∧ cards_ok v)
              gs appWorld initialState)
    as (n & w' & v & Hu & Hs' & Hst & _ & Hcards).
  - intros v c a [Hch Hc] Hcl. split; [|by apply cards_ok_result].
    destruct (op_result_cases (call_op a v) v) as [->|(ch & _ & ->)]; [done|].
    by destruct ch.
  - intros v [Hch Hc]. split; [done|]. apply (cards_ok_change (ChConn connected) v Hc).
  - intros v g [Hv _] Hg. apply clickable_same; [done|].
    by eapply Forall_forall in Hgs.
  - apply in_sync_appWorld.
  - apply store_state_appWorld.
  - split; [done|apply cards_ok_initial].
  - destruct (cards_ok_view v Hcards) as [H1 H2].
    exists n, w', v. split_and!; try done.
    + unfold muteLabel. by destruct (muted (me v)).
    + unfold deafenLabel. by destruct (deafened (me v)).
Qed.

Lemma cards_match_controls_witness :
  Forall (clickable initialState) [Click ClickDeafen; Click (ClickChannel 1)] ∧
  ∃ n w' v,
    (∀ m, n ≤ m →
       use m [Click ClickDeafen; Click (ClickChannel 1)] appWorld = Some w') ∧
    store_state w' = Some v ∧
    (∀ u, u ∈ users v → u_id u ≠ 1%Z → pills u = []).
Proof.
  assert (Forall (clickable initialState) [Click ClickDeafen; Click (ClickChannel 1)])
    as Hgs.
  { repeat constructor; simpl; by eexists. }
  split; [assumption|].
  destruct (cards_match_controls _ Hgs) as (n & w' & v & H1 & H2 & _ & H4 & _).
  exists n, w', v. split_and!; assumption.
Defined.

(** X15. The connect button.  When the store shows a state that is not
    "connected", the button reads "Connect" and a click on it calls
    [connect("localhost")]: the store shows "connecting" to "localhost" at
    once and one completion is pending, due [latency] ms later; once that
    time has passed the store shows "connected", the title reads
    "localhost" and the button reads "Disconnect"; a click on it then calls
    [disconnect()], after which the store shows "disconnected", the button
    reads "Connect" again, no completion is pending, and the title still
    reads "localhost". *)
Theorem connect_button_toggles (w : World (option AppState)) v t :
  in_sync w → store_state w = Some v → connState v ≠ connected →
  now w + latency ≤ t →
  ∃ n w1 w2 w3 v1 v2 v3,
    connectLabel v = "Connect" ∧
    on_click ClickConnect v = Some (SConnect "localhost") ∧
    (∀ m, n ≤ m → use m [Click ClickConnect] w = Some w1) ∧
    store_state w1 = Some v1 ∧ connState v1 = connecting ∧
    currentServer v1 = Some "localhost" ∧
    timers w1 = [(next_timer w, now w + latency)] ∧
    (∀ m, n ≤ m → use m [Idle t] w1 = Some w2) ∧
    store_state w2 = Some v2 ∧ connState v2 = connected ∧
    serverTitle v2 = "localhost" ∧ connectLabel v2 = "Disconnect" ∧
    on_click ClickConnect v2 = Some SDisconnect ∧
    (∀ m, n ≤ m → use m [Click ClickConnect] w2 = Some w3) ∧
    store_state w3 = Some v3 ∧ connState v3 = disconnected ∧
    connectLabel v3 = "Connect" ∧ serverTitle v3 = "localhost" ∧
    timers w3 = [].
Proof.
  intros Hs Hst Hcn Ht.
  pose proof Hs as (_ & Hok & _).
  (* the first click *)
  destruct (in_sync_call (SConnect "localhost") w v Hs Hst)
    as (w1 & Hk1 & [n1 Hr1] & Hs1 & Hst1 & Hnow1 & Hts1).
  unfold op_result in Hst1. simpl in Hst1.
  rewrite decide_False in Hst1 by done. simpl in Hst1.
  unfold op_timers in Hts1. simpl in Hts1.
  rewrite decide_False in Hts1 by done.
  rewrite (timers_clear w Hok) in Hts1. simpl in Hts1.
  (* the wait *)
  destruct (in_sync_wait t w1 _ Hs1 Hst1) as (w2 & [n2 Hr2] & Hs2 & Hcases).
  destruct Hcases as [(Hall & _)|(id & due & Hts & Hle & Hst2 & Hts2 & Hnow2)].
  { rewrite Hts1 in Hall. apply Forall_cons in Hall as [Hlt _]. simpl in Hlt. lia. }
  (* the second click *)
  destruct (in_sync_call SDisconnect w2 _ Hs2 Hst2)
    as (w3 & Hk3 & [n3 Hr3] & Hs3 & Hst3 & Hnow3 & Hts3).
  unfold op_result in Hst3. simpl in Hst3.
  unfold op_timers in Hts3. simpl in Hts3.
  pose proof Hs2 as (_ & Hok2 & _). rewrite (timers_clear w2 Hok2) in Hts3.
  assert (∀ w0 v0 c a k w' n0,
            store_state w0 = Some v0 → on_click c v0 = Some a →
            store_frame a w0 = Some k → run app_store n0 w0 [k] = Some (w', []) →
            ∀ m, n0 ≤ m → use m [Click c] w0 = Some w') as Huse.
  { intros w0 v0 c a k w' n0 Hst0 Hc0 Hk0 Hr0 m Hm.
    rewrite (use_cons m (Click c) [] w0 (Call a) w'); [done| |].
    - simpl. rewrite Hst0. simpl. by rewrite Hc0.
    - apply (play_single m (Call a) w0 k w'); [done|]. by eapply run_done_mono. }
  exists ((n1 `max` n2) `max` n3), w1, w2, w3,
         (connecting_v "localhost" v),
         (with_conn connected (connecting_v "localhost" v)),
         (with_conn disconnected (with_conn connected (connecting_v "localhost" v))).
  split_and!.
  - unfold connectLabel. by rewrite decide_False.
  - simpl. by rewrite decide_False.
  - intros m Hm. eapply (Huse w v ClickConnect); [done| |done|done|lia].
    simpl. by rewrite decide_False.
  - exact Hst1.
  - done.
  - done.
  - done.
  - intros m Hm. rewrite (use_cons m (Idle t) [] w1 (Wait t) w2); [done|done|].
    apply (play_single m (Wait t) w1 (KAdvance t) w2); [done|].
    eapply run_done_mono; [done|lia].
  - exact Hst2.
  - done.
  - done.
  - done.
  - done.
  - intros m Hm. eapply (Huse w2 _ ClickConnect); [done| |done|done|lia]. done.
  - exact Hst3.
  - done.
  - done.
  - done.
  - done.
Qed.

Lemma connect_button_toggles_witness :
  in_sync appWorld ∧ store_state appWorld = Some initialState ∧
  ∃ n w1 w2 w3 v3,
    (∀ m, n ≤ m → use m [Click ClickConnect] appWorld = Some w1) ∧
    (∀ m, n ≤ m → use m [Idle 400] w1 = Some w2) ∧
    (∀ m, n ≤ m → use m [Click ClickConnect] w2 = Some w3) ∧
    store_state w3 = Some v3 ∧ connState v3 = disconnected ∧
    serverTitle v3 = "localhost".
Proof.
  split; [apply in_sync_appWorld|]. split; [apply store_state_appWorld|].
  destruct (connect_button_toggles appWorld initialState 400 in_sync_appWorld
              store_state_appWorld)
    as (n & w1 & w2 & w3 & v1 & v2 & v3 & _ & _ & H1 & _ & _ & _ & _ & H2 & _ & _
        & _ & _ & _ & H3 & H4 & H5 & _ & H6 & _);
    [done|vm_compute; lia|].
  exists n, w1, w2, w3, v3. split_and!; assumption.
Defined.

(** X16. The view only ever connects to "localhost".  In every session at
    the screen that starts with the application, the state the store shows
    at the end is never "error" and names no server or "localhost": the
    title reads "Server Name" or "localhost". *)
Theorem view_names_localhost gs :
  Forall (clickable initialState) gs →
  ∃ n w' v,
    (∀ m, n ≤ m → use m gs appWorld = Some w') ∧
    store_state w' = Some v ∧ connState v ≠ error ∧
    (serverTitle v = "Server Name" ∨ serverTitle v = "localhost").
Proof.
  intros Hgs.
  destruct (use_total (λ v, channels v = defaultChannels ∧ localhost_only v)
              gs appWorld initialState)
    as (n & w' & v & Hu & Hs' & Hst & _ & Hne & Hsrv).
  - intros v c a [Hch Hc] Hcl. split; [|by apply (localhost_only_click v c a)].
    destruct (op_result_cases (call_op a v) v) as [->|(ch & _ & ->)]; [done|].
    by destruct ch.
  - intros v [Hch Hc]. split; [done|]. by apply localhost_only_connected.
  - intros v g [Hv _] Hg. apply clickable_same; [done|].
    by eapply Forall_forall in Hgs.
  - apply in_sync_appWorld.
  - apply store_state_appWorld.
  - split; [done|]. split; [done|by left].
  - exists n, w', v. split_and!; try done.
    unfold serverTitle. destruct Hsrv as [->| ->]; [by left|by right].
Qed.

Lemma view_names_localhost_witness :
  Forall (clickable initialState) [Click ClickConnect; Idle 400] ∧
  ∃ n w' v,
    (∀ m, n ≤ m → use m [Click ClickConnect; Idle 400] appWorld = Some w') ∧
    store_state w' = Some v ∧ connState v ≠ error.
Proof.
  assert (Forall (clickable initialState) [Click ClickConnect; Idle 400]) as Hgs.
  { repeat constructor; simpl; by eexists. }
  split; [assumption|].
  destruct (view_names_localhost _ Hgs) as (n & w' & v & H1 & H2 & H3 & _).
  exists n, w', v. split_and!; assumption.
Defined.

(** ** Objects are added, never overwritten *)

(** X17. The transport never writes to an object that exists.  Along every
    run from a well-formed configuration, whatever the listeners and the
    clients do (writes to snapshots included): the heap only grows, and
    every object that existed at the start and was not part of a snapshot
    handed out by then is exactly as it was.  ([update], [joinChannel] and
    [updateMe] build new objects and arrays; only a consumer's write changes
    an object, and only inside the snapshot it writes to.)  In particular the
    seeded channels and users, the seeded arrays, and every state object the
    transport ever had are never modified. *)
Theorem objects_are_never_overwritten {C} (B : behaviour C) (w : World C)
    stk n w' stk' :
  cinv w stk → run B n w stk = Some (w', stk') →
  length (heap_of w) ≤ length (heap_of w') ∧
  ∀ l, l < length (heap_of w) →
       (∀ r, r ∈ snapshot_roots (trace w) → l ∉ reach (heap_of w) r) →
       heap_of w' !! l = heap_of w !! l.
Proof.
  intros Hc Hr.
  assert (kept (heap_of w) (snapshot_roots (trace w)) w') as (Hlen & Hold & _).
  { eapply (run_invariant B (λ w1 _, kept (heap_of w) (snapshot_roots (trace w)) w1));
      [|done| |done].
    - intros. by eapply step_kept.
    - split_and!; [done|done|]. intros r l Hin Hl _. eauto. }
  done.
Qed.

Lemma objects_are_never_overwritten_witness :
  cinv (createMockTransport tt) meddledScript ∧
  run meddler 20 (createMockTransport tt) meddledScript = Some (meddledWorld, []) ∧
  ∀ l, l < 10 → heap_of meddledWorld !! l = heap_of (createMockTransport tt) !! l.
Proof.
  assert (cinv (createMockTransport tt) meddledScript) as Hc
    by (apply cinv_create; repeat constructor).
  assert (run meddler 20 (createMockTransport tt) meddledScript
          = Some (meddledWorld, [])) as Hr by (vm_compute; reflexivity).
  split; [assumption|]. split; [assumption|].
  destruct (objects_are_never_overwritten meddler (createMockTransport tt)
              meddledScript 20 meddledWorld [] Hc Hr) as [_ H].
  intros l Hl. apply H; [exact Hl|].
  intros r Hin. apply elem_of_nil in Hin. destruct Hin.
Defined.

(** ** Updates made from inside a callback *)

Section Reentrant.
Context {C : Type} (B : behaviour C).
Implicit Types w : World C.

Lemma step_invoke w l s vs :
  view (heap_of w) s = Some vs →
  step B w (KInvoke l s)
  = Some (called B w l s vs, frame_of_action s <$> (B l s vs (client w)).2).
Proof.
  intros Hv. simpl. rewrite Hv. simpl. unfold called.
  by destruct (B l s vs (client w)).
Qed.

Lemma inv_called w l s vs : inv w → inv (called B w l s vs).
Proof. intros H. by eapply (inv_same w). Qed.

(** A method that updates the state and is not [connect]: its first step. *)
Lemma step_update_op w o v ch0 :
  inv w → contents w = Some v → op_change o v = Some ch0 →
  (∀ p, o ≠ Connect p) →
  ∃ w1 snap,
    step B w (KOp o) = Some (w1, [KDeliver 0 snap]) ∧
    contents w1 = Some (apply_change ch0 v) ∧
    view (heap_of w1) snap = Some (apply_change ch0 v) ∧
    trace w1 = EvSnapshot FromUpdate snap (apply_change ch0 v) :: trace w ∧
    listeners w1 = listeners w ∧ inv w1.
Proof.
  intros Hinv Hv Hch Hnc.
  destruct o as [|l|l|p| |c|b|b]; simpl in Hch; try done.
  - by destruct (Hnc p).
  - injection Hch as <-.
    destruct (step_disconnect B w v Hinv Hv)
      as (w1 & snap & Hs & Hc1 & Hs1 & Htr & _ & Hl & _ & _ & _ & _ & _ & Hinv1).
    destruct (clear_connect_timer_fields w) as (_ & _ & Hl' & _ & _ & _ & _ & Htr').
    exists w1, snap. rewrite Hl, Hl', Htr, Htr'. done.
  - injection Hch as <-.
    destruct (step_join B w c v Hinv Hv)
      as (w1 & snap & Hs & Hc1 & Hs1 & Htr & _ & Hl & _ & _ & _ & _ & _ & Hinv1).
    by exists w1, snap.
  - injection Hch as <-.
    destruct (step_setMute B w b v Hinv Hv)
      as (w1 & snap & Hs & Hc1 & Hs1 & Htr & _ & Hl & _ & _ & _ & _ & _ & Hinv1).
    by exists w1, snap.
  - injection Hch as <-.
    destruct (step_setDeafen B w b v Hinv Hv)
      as (w1 & snap & Hs & Hc1 & Hs1 & Htr & _ & Hl & _ & _ & _ & _ & _ & Hinv1).
    by exists w1, snap.
Qed.

End Reentrant.

(** X18. An update made from inside a callback is delivered first, and the
    update that was being delivered last.  Let the listener set be [a, b],
    where [a], shown a state whose current channel is not [ch], calls
    [joinChannel(ch)] (and only looks otherwise), and [b] only looks.  When
    a method other than [connect] updates the state to [v1] with a current
    channel other than [ch], the run completes; the state ends as
    [v2 = v1] moved to channel [ch]; [a] is called with [v1] and then with
    [v2]; but [b] is called with [v2] first and with [v1] last, so the
    last snapshot [b] was given is not the state of the transport. *)
Theorem reentrant_update_is_delivered_first {C} (B : behaviour C) (w : World C)
    a b ch o v ch0 :
  inv w → contents w = Some v → listeners w = [Some a; Some b] →
  (∀ s vs c, currentChannelId vs ≠ Some ch → (B a s vs c).2 = [ACall (JoinChannel ch)]) →
  (∀ s vs c, currentChannelId vs = Some ch → (B a s vs c).2 = []) →
  looks_only B b →
  op_change o v = Some ch0 → (∀ p, o ≠ Connect p) →
  currentChannelId (apply_change ch0 v) ≠ Some ch →
  ∃ w' snap1 snap2 v1 v2,
    v1 = apply_change ch0 v ∧ v2 = join_v ch v1 ∧ v1 ≠ v2 ∧
    completes B w [KOp o] w' ∧
    getState w' = Some v2 ∧
    trace w' = [EvCall b snap1 v1; EvCall b snap2 v2; EvCall a snap2 v2;
                EvSnapshot FromUpdate snap2 v2; EvCall a snap1 v1;
                EvSnapshot FromUpdate snap1 v1] ++ trace w.
Proof.
  intros Hinv Hv Hls Hcall Hquiet Hb Hch Hnc Hne.
  set (v1 := apply_change ch0 v). set (v2 := join_v ch v1).
  destruct (step_update_op B w o v ch0 Hinv Hv Hch Hnc)
    as (w1 & snap1 & Hs1 & Hc1 & Hv1 & Htr1 & Hl1 & Hinv1).
  fold v1 in Hc1, Hv1, Htr1. rewrite Hls in Hl1.
  (* [a] is called with [v1] and calls [joinChannel] *)
  set (w1a := called B w1 a snap1 v1).
  assert (inv w1a) as Hinv1a by by apply inv_called.
  assert (contents w1a = Some v1) as Hc1a by done.
  destruct (step_join B w1a ch v1 Hinv1a Hc1a)
    as (w2 & snap2 & Hs2 & Hc2 & Hv2 & Htr2 & [ext Hext] & Hl2 & _ & _ & _ & _ & _ & Hinv2).
  fold v2 in Hc2, Hv2, Htr2. simpl in Hl2, Hext. rewrite Hl1 in Hl2.
  (* [a] and then [b] are called with [v2] *)
  set (w2a := called B w2 a snap2 v2).
  set (w2b := called B w2a b snap2 v2).
  (* [b] is called with [v1] *)
  assert (view (heap_of w2b) snap1 = Some v1) as Hv1'.
  { simpl. rewrite Hext. by apply view_ext. }
  set (w2c := called B w2b b snap1 v1).
  exists w2c, snap1, snap2, v1, v2. split_and!; [done|done| | | |].
  - intros Heq. apply Hne. change (currentChannelId v1 = Some ch).
    by rewrite Heq.
  - apply reaches_completes.
    eapply reaches_step; [exact Hs1|]. simpl.
    eapply reaches_step; [simpl; by rewrite Hl1|]. simpl.
    eapply reaches_step; [by apply step_invoke|].
    rewrite (Hcall snap1 v1 (client w1) Hne). simpl.
    eapply reaches_step; [exact Hs2|]. simpl.
    eapply reaches_step; [simpl; by rewrite Hl2|]. simpl.
    eapply reaches_step; [by apply step_invoke|].
    rewrite (Hquiet snap2 v2 (client w2)) by done. simpl.
    eapply reaches_step; [simpl; by rewrite Hl2|]. simpl.
    eapply reaches_step; [by apply (step_invoke B w2a b snap2 v2)|].
    rewrite (Hb snap2 v2 (client w2a)). simpl.
    eapply reaches_step; [simpl; by rewrite Hl2|]. simpl.
    eapply reaches_step; [simpl; by rewrite Hl2|]. simpl.
    eapply reaches_step; [by apply (step_invoke B w2b b snap1 v1)|].
    rewrite (Hb snap1 v1 (client w2b)). simpl.
    eapply reaches_step; [simpl; by rewrite Hl2|]. simpl.
    apply reaches_refl.
  - apply contents_getState. exact Hc2.
  - simpl. rewrite Htr2. simpl. by rewrite Htr1.
Qed.

Lemma inv_insisterWorld : inv insisterWorld.
Proof.
  assert (Forall client_frame [KOp (Subscribe 0); KOp (Subscribe 1)]) as Hs
    by repeat constructor.
  assert (run insister 30 (createMockTransport tt)
              [KOp (Subscribe 0); KOp (Subscribe 1)] = Some (insisterWorld, []))
    as Hr by (vm_compute; reflexivity).
  exact (proj1 (reachable_cinv insister tt _ 30 insisterWorld [] Hs Hr)).
Qed.

Lemma contents_insisterWorld : contents insisterWorld = Some (join_v 2 initialState).
Proof. vm_compute. reflexivity. Qed.

Lemma listeners_insisterWorld : listeners insisterWorld = [Some 0; Some 1].
Proof. vm_compute. reflexivity. Qed.

Lemma reentrant_update_is_delivered_first_witness :
  inv insisterWorld ∧ listeners insisterWorld = [Some 0; Some 1] ∧
  contents insisterWorld = Some (join_v 2 initialState) ∧
  ∃ w' snap1 v1 v2,
    completes insister insisterWorld [KOp (JoinChannel 3)] w' ∧
    getState w' = Some v2 ∧ currentChannelId v2 = Some 2%Z ∧
    currentChannelId v1 = Some 3%Z ∧
    head (trace w') = Some (EvCall 1 snap1 v1).
Proof.
  split; [exact inv_insisterWorld|]. split; [exact listeners_insisterWorld|].
  split; [exact contents_insisterWorld|].
  destruct (reentrant_update_is_delivered_first insister insisterWorld 0 1 2%Z
              (JoinChannel 3) (join_v 2 initialState) (ChJoin 3)
              inv_insisterWorld contents_insisterWorld listeners_insisterWorld)
    as (w' & snap1 & snap2 & v1 & v2 & -> & -> & _ & Hc & Hg & Htr).
  - intros s vs c Hne. unfold insister. rewrite decide_True; [reflexivity|].
    split; [reflexivity|exact Hne].
  - intros s vs c He. unfold insister. rewrite decide_False; [reflexivity|].
    intros [_ Hne]. exact (Hne He).
  - intros s vs c. unfold insister. rewrite decide_False; [reflexivity|].
    intros [Hl' _]. discriminate Hl'.
  - reflexivity.
  - intros p Hp. discriminate Hp.
  - intros Hp. discriminate Hp.
  - exists w', snap1, (apply_change (ChJoin 3) (join_v 2 initialState)),
           (join_v 2 (apply_change (ChJoin 3) (join_v 2 initialState))).
    split; [exact Hc|]. split; [exact Hg|]. split; [reflexivity|].
    split; [reflexivity|]. rewrite Htr. reflexivity.
Defined.

(** ** The order of delivery *)

Section Order.
Context {C : Type} (B : behaviour C).
Implicit Types w : World C.

Lemma run_subscribe w l :
  inv w → looks_only B l →
  ∃ w1, completes B w [KOp (Subscribe l)] w1 ∧ inv w1 ∧
        listeners w1 = set_add l (listeners w).
Proof.
  intros Hinv Hlook. pose proof Hinv as ([v Hv] & _).
  destruct (take_snapshot_snapped (FromSubscribe l)
              (with_listeners w (set_add l (listeners w))) v Hinv Hv)
    as (w1 & r & Ht & Hc1 & Hv1 & Htr & Hpre & Hst & Hl & _ & _ & _ & _ & _ & Hinv1).
  exists (called B w1 l r v). split_and!.
  - apply reaches_completes.
    eapply reaches_step.
    { simpl. unfold with_listeners in Ht. rewrite Ht. simpl. done. }
    simpl. eapply reaches_step; [by apply step_invoke|].
    rewrite (Hlook r v (client w1)). simpl. apply reaches_refl.
  - by apply inv_called.
  - done.
Qed.

Lemma run_unsubscribe w l :
  inv w → completes B w [KOp (Unsubscribe l)] (unsubscribed w l) ∧
          inv (unsubscribed w l).
Proof.
  intros Hinv. split; [|done].
  apply reaches_completes. by apply (reaches_one B w _ [] _ []).
Qed.

End Order.

(** X19. The order of delivery is the order of subscription.  With a
    listener [l] that only looks: [subscribe(l)] leaves the order of the
    listeners as it is when [l] is in the set already, and puts [l] last
    otherwise; the function [subscribe(l)] returned takes [l] out and keeps
    the others in their order; and unsubscribing and subscribing again moves
    [l] to the end, behind listeners that subscribed after it did. *)
Theorem delivery_order_follows_subscription {C} (B : behaviour C) (w : World C) l :
  inv w → looks_only B l →
  (∃ w1, completes B w [KOp (Subscribe l)] w1 ∧
         live_from 0 (listeners w1)
         = if bool_decide (Some l ∈ listeners w) then live_from 0 (listeners w)
           else live_from 0 (listeners w) ++ [l]) ∧
  (∃ w2, completes B w [KOp (Unsubscribe l)] w2 ∧
         live_from 0 (listeners w2)
         = filter (λ x, x ≠ l) (live_from 0 (listeners w))) ∧
  (∃ w3, completes B w [KOp (Unsubscribe l); KOp (Subscribe l)] w3 ∧
         live_from 0 (listeners w3)
         = filter (λ x, x ≠ l) (live_from 0 (listeners w)) ++ [l]).
Proof.
  intros Hinv Hlook. split_and!.
  - destruct (run_subscribe B w l Hinv Hlook) as (w1 & Hc & _ & Hl).
    exists w1. split; [done|]. rewrite Hl. apply live_set_add.
  - destruct (run_unsubscribe B w l Hinv) as [Hc _].
    exists (unsubscribed w l). split; [done|]. apply live_set_delete.
  - destruct (run_unsubscribe B w l Hinv) as [Hc2 Hinv2].
    destruct (run_subscribe B (unsubscribed w l) l Hinv2 Hlook) as (w3 & Hc3 & _ & Hl3).
    exists w3. split.
    + apply reaches_completes.
      apply (reaches_seq B w [KOp (Unsubscribe l)] (unsubscribed w l)
               [KOp (Subscribe l)] w3); by apply completes_reaches.
    + rewrite Hl3, live_set_add. simpl.
      rewrite bool_decide_eq_false_2 by apply not_elem_of_set_delete.
      by rewrite live_set_delete.
Qed.

Lemma delivery_order_follows_subscription_witness :
  inv (snapshotWorld [Some 5; Some 6; Some 7]) ∧ looks_only (@onlookers unit) 5 ∧
  ∃ w3, completes onlookers (snapshotWorld [Some 5; Some 6; Some 7])
          [KOp (Unsubscribe 5); KOp (Subscribe 5)] w3 ∧
        live_from 0 (listeners w3) = [6; 7; 5].
Proof.
  assert (looks_only (@onlookers unit) 5) as Hlook by (intros s v c; reflexivity).
  split; [apply inv_snapshotWorld|]. split; [exact Hlook|].
  destruct (delivery_order_follows_subscription onlookers
              (snapshotWorld [Some 5; Some 6; Some 7]) 5
              (inv_snapshotWorld _) Hlook) as (_ & _ & w3 & Hc & Hl).
  exists w3. split; [exact Hc|]. rewrite Hl. reflexivity.
Defined.

(** ** Calls that change nothing *)

Lemma join_same c v :
  currentChannelId v = Some c → self_in_current v → join_v c v = v.
Proof.
  intros Hcur Hself. unfold join_v.
  destruct v as [cs srv cur m chs us]. simpl in *. subst cur. f_equal.
  rewrite <- (list_fmap_id us) at 2. apply list_fmap_ext. intros i u Hu. simpl.
  unfold upd_self. destruct (decide (u_id u = 1%Z)) as [Hid|Hid]; [|done].
  specialize (Hself u (list_elem_of_lookup_2 _ _ _ Hu) Hid).
  injection Hself as Hc. destruct u. simpl in *. by subst.
Qed.

(** X20. No method compares the new state with the old one.  With listeners
    that only look, a call that leaves the contents of the state as they
    are, [joinChannel] with the current channel (the self user being in it),
    or [setMute] or [setDeafen] with the value [me] has (the self user's
    flags being present), still builds one new snapshot and calls every
    listener in the set with it. *)
Theorem unchanged_state_is_still_emitted {C} (B : behaviour C) (w : World C) v o :
  readonly B → inv w → contents w = Some v →
  (∃ c, o = JoinChannel c ∧ currentChannelId v = Some c ∧ self_in_current v) ∨
  (o = SetMute (muted (me v)) ∧ strict_mirror v) ∨
  (o = SetDeafen (deafened (me v)) ∧ strict_mirror v) →
  ∃ w' snap,
    completes B w [KOp o] w' ∧ getState w' = Some v ∧
    view (heap_of w') snap = Some v ∧
    trace w' = reverse ((λ l, EvCall l snap v) <$> live_from 0 (listeners w))
               ++ EvSnapshot FromUpdate snap v :: trace w.
Proof.
  intros Hro Hinv Hv Ho.
  assert (updates o ∧ is_Some (op_change o v) ∧ op_result o v = v) as (Hup & [ch Hch] & Hres).
  { destruct Ho as [(c & -> & Hcur & Hself)|[[-> Hm]|[-> Hm]]];
      (split; [done|]); (split; [by eexists|]); unfold op_result; simpl.
    - by apply join_same.
    - by apply updateMe_same.
    - by apply updateMe_same. }
  destruct (run_op B w o v Hro Hinv Hv Hup)
    as (w' & Hr & Hinv' & Hc' & _ & _ & _ & _ & Hrest).
  rewrite Hch in Hrest. rewrite Hres in Hc', Hrest.
  destruct Hrest as (snap & Hs & Htr & _).
  exists w', snap. split_and!; try done.
  - by apply reaches_completes.
  - by apply contents_getState.
Qed.

Lemma unchanged_state_is_still_emitted_witness :
  inv (createMockTransport tt) ∧
  contents (createMockTransport tt) = Some initialState ∧
  ∃ w' snap,
    completes onlookers (createMockTransport tt) [KOp (JoinChannel 1)] w' ∧
    getState w' = Some initialState ∧
    trace w' = [EvSnapshot FromUpdate snap initialState].
Proof.
  split; [apply inv_create|]. split; [reflexivity|].
  destruct (unchanged_state_is_still_emitted onlookers (createMockTransport tt)
              initialState (JoinChannel 1) readonly_onlookers (inv_create tt) eq_refl)
    as (w' & snap & Hc & Hg & _ & Htr).
  - left. exists 1%Z. split; [reflexivity|]. split; [reflexivity|].
    apply self_in_current_initial.
  - exists w', snap. split; [exact Hc|]. split; [exact Hg|]. exact Htr.
Defined.
